(** * skill-curator: the overlap pipeline of [scripts/analyze.py]

    A shallow embedding of the feature extractors, the similarity engine
    ([jaccard], [compute_overlap]) and the cluster builder ([find_clusters])
    of [scripts/analyze.py], followed by the properties the specification
    states about them; then of the parser ([parse_frontmatter]) and of the
    scan of the directory in [main], with further properties of all of
    them.

    Conventions of the embedding.
    - A Python [str] is the list of its code points ([pystr]); strings are
      compared as Python compares them, code point by code point.
    - A Python [set] of strings is a [gset pystr], a [dict] a [gmap].
    - A Python [float] is an exact rational ([Q]): the arithmetic of the
      score is the arithmetic of the specification, without the rounding of
      binary floating point.  [round(x, 3)] is decimal rounding to nearest,
      ties to even.  Where that rounding decides, at the reporting
      threshold, the overlap list is given a second time in the arithmetic
      of the interpreter (module [B64]: IEEE 754 binary64, every operation
      rounded to nearest), and the property is stated there.
    - A Python expression that can raise ([a / b], [d[k]]) returns an
      [option]; [None] stands for the exception.  The [while] loop of
      [find] runs on fuel and returns [None] when it is exhausted.
    - [str.lower] is a parameter ([str_lower]): its table belongs to the
      interpreter, not to the program.  So is the order in which a [set] is
      iterated ([set_iter]), which Python leaves unspecified and which
      varies from one interpreter process to the next for sets of strings.
    - The directory is the list of its entries, each with what is found at
      its [SKILL.md]; a regular expression is the function that computes
      its match, in the order in which the engine tries the alternatives.
      The class [\w] beyond ASCII is a parameter too ([isalnum]). *)

From Stdlib Require Import QArith Qround Lqa.
From Stdlib Require SpecFloat.
From stdpp Require Import gmap list sorting strings.

(** ** Strings *)

Module Py.

Abbreviation pystr := (list N).

(** An ASCII literal as a list of code points. *)
Definition s (lit : string) : pystr :=
  Ascii.N_of_ascii <$> String.list_ascii_of_string lit.

(** Comparison of two strings, as [<] and [==] on [str]. *)
Fixpoint str_compare (a b : pystr) : comparison :=
  match a, b with
  | [], [] => Eq
  | [], _ :: _ => Lt
  | _ :: _, [] => Gt
  | x :: a', y :: b' =>
      match (x ?= y)%N with
      | Eq => str_compare a' b'
      | c => c
      end
  end.

Definition str_lt (a b : pystr) : Prop := str_compare a b = Lt.

Definition str_leb (a b : pystr) : bool :=
  match str_compare a b with Gt => false | _ => true end.

(** [str.isspace] on one code point. *)
Definition isspace (c : N) : bool :=
  ((0x9 <=? c) && (c <=? 0xd) || (0x1c <=? c) && (c <=? 0x20)
   || (c =? 0x85) || (c =? 0xa0) || (c =? 0x1680)
   || (0x2000 <=? c) && (c <=? 0x200a)
   || (c =? 0x2028) || (c =? 0x2029) || (c =? 0x202f) || (c =? 0x205f)
   || (c =? 0x3000))%N.

Fixpoint lstrip (x : pystr) : pystr :=
  match x with
  | c :: x' => if isspace c then lstrip x' else x
  | [] => []
  end.

(** [x.strip()] *)
Definition strip (x : pystr) : pystr := rev (lstrip (rev (lstrip x))).

(** [x.split(sep)] for a separator of one character. *)
Fixpoint split (sep : N) (x : pystr) : list pystr :=
  match x with
  | [] => [[]]
  | c :: x' =>
      if (c =? sep)%N then [] :: split sep x'
      else match split sep x' with
           | w :: ws => (c :: w) :: ws
           | [] => [[c]]
           end
  end.

(** ** Lists *)

(** [sorted(l)] and [l.sort()] for the order [le]: Python's sort is stable,
    and a stable sort is determined by its input, so insertion from the
    right, which keeps an element before the equal ones that followed it,
    computes the same list. *)
Fixpoint sort_insert {A} (le : A → A → bool) (x : A) (l : list A) : list A :=
  match l with
  | [] => [x]
  | y :: l' => if le x y then x :: y :: l' else y :: sort_insert le x l'
  end.

Definition sorted {A} (le : A → A → bool) (l : list A) : list A :=
  foldr (sort_insert le) [] l.

(** [itertools.combinations(l, 2)] *)
Fixpoint combinations2 {A} (l : list A) : list (A * A) :=
  match l with
  | [] => []
  | x :: l' => (pair x <$> l') ++ combinations2 l'
  end.

(** A loop whose body can raise. *)
Fixpoint foldlM {A B} (f : B → A → option B) (b : B) (l : list A) : option B :=
  match l with
  | [] => Some b
  | x :: l' => b' ← f b x; foldlM f b' l'
  end.

(** ** Numbers *)

(** [n / d] on two lengths: [ZeroDivisionError] when [d] is 0. *)
Definition truediv (n d : nat) : option Q :=
  match d with
  | O => None
  | S _ => Some (Z.of_nat n # Pos.of_nat d)
  end.

(** [x < y] on two floats. *)
Definition Qlt_bool (x y : Q) : bool := negb (Qle_bool y x).

(** The integer nearest to [q], the even one of the two when [q] lies
    halfway between them. *)
Definition round_half_even (q : Q) : Z :=
  let f := Qfloor q in
  match (q - inject_Z f ?= 1 # 2)%Q with
  | Lt => f
  | Gt => (f + 1)%Z
  | Eq => if Z.even f then f else (f + 1)%Z
  end.

(** [round(x, ndigits)] *)
Definition round (x : Q) (ndigits : nat) : Q :=
  let scale := (10 ^ Z.of_nat ndigits)%Z in
  Qred (inject_Z (round_half_even (x * inject_Z scale)) / inject_Z scale)%Q.

End Py.

Import Py.

(** ** The program *)

(** The frontmatter of one skill, as [parse_frontmatter] returns it: the
    keys of the document with their text.  (The two entries the parser adds,
    [_body_lines] and [_path], are read by the report only.) *)
Abbreviation frontmatter := (gmap pystr pystr).

(** One entry of the list [compute_overlap] returns. *)
Record overlap := Overlap {
  pair : pystr * pystr;
  composite : Q;
  keyword_sim : Q;
  tool_sim : Q;
  trigger_overlap : list pystr;
  shared_keywords : list pystr
}.

(** What [main] hands to [json.dumps]. *)
Record report := Report {
  total_skills : nat;
  overlaps : list overlap;
  clusters : list (list pystr)
}.

Section Program.

(** [str.lower] *)
Variable str_lower : pystr → pystr.

(** The order in which a [for] loop visits a set of strings. *)
Variable set_iter : gset pystr → list pystr.

(** *** Feature extraction *)

Definition quote : N := 0x22.

(** [re.findall] of the pattern [Q([^Q]+)Q], where [Q] is the double quote,
    returning the group of each match.  The scan is outside a phrase
    ([open = None]) or behind an opening quote, with the characters read
    since ([open = Some acc], newest first).  A quote closes a phrase that
    has at least one character; behind an opening quote with nothing read,
    the pattern fails there and the quote at hand is the next candidate to
    open a phrase.  An opening quote that is never closed matches nothing. *)
Fixpoint scan_triggers (open : option pystr) (d : pystr) : list pystr :=
  match d with
  | [] => []
  | c :: d' =>
      match open with
      | None =>
          if (c =? quote)%N then scan_triggers (Some []) d'
          else scan_triggers None d'
      | Some acc =>
          if (c =? quote)%N then
            match acc with
            | [] => scan_triggers (Some []) d'
            | _ :: _ => rev acc :: scan_triggers None d'
            end
          else scan_triggers (Some (c :: acc)) d'
      end
  end.

Definition extract_triggers (description : pystr) : list pystr :=
  scan_triggers None description.

(** The character class [[a-zA-Z一-鿿]]. *)
Definition is_word_char (c : N) : bool :=
  ((0x61 <=? c) && (c <=? 0x7a) || (0x41 <=? c) && (c <=? 0x5a)
   || (0x4e00 <=? c) && (c <=? 0x9fff))%N.

(** [re.findall] of the pattern [[a-zA-Z一-鿿]{2,}]: the maximal runs of
    word characters that are at least two characters long.  [acc] is the run
    being read, newest first. *)
Fixpoint scan_words (acc : pystr) (text : pystr) : list pystr :=
  let flush := if 2 <=? length acc then [rev acc] else [] in
  match text with
  | [] => flush
  | c :: text' =>
      if is_word_char c then scan_words (c :: acc) text'
      else flush ++ scan_words [] text'
  end.

Definition stopwords : gset pystr :=
  list_to_set [
    (* --- English stopwords --- *)
    (* Articles & conjunctions *)
    s "the"; s "an"; s "and"; s "or"; s "but";
    (* Prepositions *)
    s "in"; s "on"; s "at"; s "to"; s "for"; s "of"; s "with"; s "by"; s "from";
    s "into"; s "about"; s "after"; s "before"; s "over";
    (* Be / auxiliaries *)
    s "is"; s "are"; s "was"; s "were"; s "be"; s "been"; s "being";
    s "have"; s "has"; s "had"; s "do"; s "does"; s "did";
    s "will"; s "would"; s "could"; s "should"; s "may"; s "might"; s "can";
    (* Pronouns & demonstratives *)
    s "this"; s "that"; s "these"; s "those"; s "it"; s "its";
    s "they"; s "them"; s "their";
    (* Negation / logic *)
    s "not"; s "no"; s "if"; s "then"; s "than"; s "so"; s "as";
    (* Adverbs / quantifiers *)
    s "also"; s "just"; s "only"; s "very"; s "more"; s "most";
    s "some"; s "any"; s "all"; s "each"; s "every"; s "both";
    s "few"; s "many"; s "much"; s "such";
    (* Other common function words *)
    s "other"; s "another"; s "same"; s "different"; s "new";
    s "when"; s "how"; s "what"; s "which"; s "who"; s "where"; s "why";
    (* Common verbs that don't carry domain meaning *)
    s "use"; s "used"; s "using"; s "make"; s "like";
    (* Common nouns in skill descriptions (too generic to differentiate) *)
    s "user"; s "users"; s "skill"; s "skills"; s "tool"; s "tools";
    s "file"; s "files";
    (* Words frequently found in SKILL.md trigger-phrase boilerplate *)
    s "asks"; s "mentions"; s "discusses"; s "including"; s "provides";
    (* --- Chinese stopwords (traditional) --- *)
    [0x7684]; [0x662f]; [0x5728]; [0x4e86]; [0x548c]; [0x8207]; [0x6216];
    [0x4e5f]; [0x90fd];
    [0x4e0d]; [0x6709]; [0x9019]; [0x90a3]; [0x5c31]; [0x8981]; [0x6703];
    [0x53ef; 0x4ee5]; [0x53ef]; [0x80fd]; [0x628a]; [0x8b93]; [0x88ab];
    [0x5c0d]; [0x5f9e]; [0x5230]; [0x505a]; [0x7528]; [0x4f7f; 0x7528];
    [0x9700; 0x8981];
    [0x4e00; 0x500b]; [0x9019; 0x500b]; [0x90a3; 0x500b];
    [0x5982; 0x679c]; [0x7576]; [0x6642]; [0x9032; 0x884c]; [0x4ee5; 0x53ca];
    [0x7b49]; [0x53ca]
  ]%N.

#[local] Typeclasses Opaque stopwords.

Definition extract_keywords (description : pystr) : gset pystr :=
  let words := scan_words [] (str_lower description) in
  list_to_set (filter (.∉ stopwords) words).

Definition extract_tools (fm : frontmatter) : gset pystr :=
  let tools_str := default [] (fm !! s "tools") in
  match tools_str with
  | [] => ∅
  | _ :: _ =>
      list_to_set (filter (λ t, t ≠ []) (strip <$> split 0x2c tools_str))
  end.

(** *** Similarity *)

Definition jaccard `{Countable K} (a b : gset K) : option Q :=
  if (size a =? 0) && (size b =? 0) then Some 0%Q
  else truediv (size (a ∩ b)) (size (a ∪ b)).

(** The trigger set of a description, [set(t.lower() for t in ...)]. *)
Definition trigger_set (description : pystr) : gset pystr :=
  list_to_set (str_lower <$> extract_triggers description).

(** The scores of one pair: the body of the loop of [compute_overlap] up to
    the threshold test. *)
Record scores := Scores {
  kw_sim : Q;
  tl_sim : Q;
  trig_overlap : gset pystr;
  kw_shared : gset pystr;
  score : Q
}.

Definition pair_scores (fa fb : frontmatter) : option scores :=
  let desc_a := default [] (fa !! s "description") in
  let desc_b := default [] (fb !! s "description") in
  let kw_a := extract_keywords desc_a in
  let kw_b := extract_keywords desc_b in
  kw_sim ← jaccard kw_a kw_b;
  let tools_a := extract_tools fa in
  let tools_b := extract_tools fb in
  tool_sim ← jaccard tools_a tools_b;
  let trigs_a := trigger_set desc_a in
  let trigs_b := trigger_set desc_b in
  let trig_overlap := trigs_a ∩ trigs_b in
  let composite :=
    (kw_sim * 0.5 + tool_sim * 0.2
     + (if bool_decide (trig_overlap ≠ ∅) then 0.3 else 0))%Q in
  Some (Scores kw_sim tool_sim trig_overlap (kw_a ∩ kw_b) composite).

(** The record appended for a pair that passes the threshold. *)
Definition overlap_of (a b : pystr) (sc : scores) : overlap :=
  {| pair := (a, b);
     composite := round (score sc) 3;
     keyword_sim := round (kw_sim sc) 3;
     tool_sim := round (tl_sim sc) 3;
     trigger_overlap := sorted str_leb (elements (trig_overlap sc));
     shared_keywords := take 10 (sorted str_leb (elements (kw_shared sc))) |}.

(** One turn of the loop over the pairs. *)
Definition overlap_step (skills : gmap pystr frontmatter)
    (results : list overlap) (ab : pystr * pystr) : option (list overlap) :=
  let '(a, b) := ab in
  fa ← skills !! a;
  fb ← skills !! b;
  sc ← pair_scores fa fb;
  if Qlt_bool 0.15 (score sc)
  then Some (results ++ [overlap_of a b sc])
  else Some results.

(** The order of [results.sort(key=..., reverse=True)] on the key
    [composite]: the larger key first, equal keys in the order they had. *)
Definition composite_geb (x y : overlap) : bool :=
  Qle_bool (composite y) (composite x).

Definition compute_overlap (skills : gmap pystr frontmatter)
    : option (list overlap) :=
  let names := sorted str_leb (elements (dom skills)) in
  results ← foldlM (overlap_step skills) [] (combinations2 names);
  Some (sorted composite_geb results).

(** *** Clusters *)

(** [find(x)], with the dictionary [parent] passed in and out. *)
Fixpoint find (fuel : nat) (parent : gmap pystr pystr) (x : pystr)
    : option (gmap pystr pystr * pystr) :=
  match fuel with
  | O => None
  | S fuel' =>
      if bool_decide (default x (parent !! x) ≠ x) then
        px ← parent !! x;
        let parent' := <[x := default px (parent !! px)]> parent in
        x' ← parent' !! x;
        find fuel' parent' x'
      else Some (parent, x)
  end.

(** [union(x, y)] *)
Definition union (fuel : nat) (parent : gmap pystr pystr) (x y : pystr)
    : option (gmap pystr pystr) :=
  '(parent, px) ← find fuel parent x;
  '(parent, py) ← find fuel parent y;
  if bool_decide (px ≠ py) then Some (<[px := py]> parent) else Some parent.

(** The first loop of [find_clusters]. *)
Definition union_step (fuel : nat) (threshold : Q)
    (parent : gmap pystr pystr) (o : overlap) : option (gmap pystr pystr) :=
  if Qle_bool threshold (composite o)
  then union fuel parent (pair o).1 (pair o).2
  else Some parent.

(** [groups[r].add(x)] on a [defaultdict(set)], whose keys stay in the order
    of their first insertion. *)
Fixpoint groups_add (r x : pystr) (groups : list (pystr * gset pystr))
    : list (pystr * gset pystr) :=
  match groups with
  | [] => [(r, {[x]})]
  | (k, c) :: groups' =>
      if bool_decide (k = r) then (k, c ∪ {[x]}) :: groups'
      else (k, c) :: groups_add r x groups'
  end.

(** The third loop of [find_clusters]. *)
Definition group_step (fuel : nat)
    (st : gmap pystr pystr * list (pystr * gset pystr)) (x : pystr)
    : option (gmap pystr pystr * list (pystr * gset pystr)) :=
  '(parent, r) ← find fuel st.1 x;
  Some (parent, groups_add r x st.2).

(** [all_skills] after the second loop. *)
Definition all_skills (overlaps : list overlap) : gset pystr :=
  foldl (λ acc o, acc ∪ {[(pair o).1; (pair o).2]}) ∅ overlaps.

Definition find_clusters_fuel (fuel : nat) (overlaps : list overlap)
    (threshold : Q) : option (list (gset pystr)) :=
  parent ← foldlM (union_step fuel threshold) ∅ overlaps;
  '(_, groups) ← foldlM (group_step fuel) (parent, [])
                   (set_iter (all_skills overlaps));
  Some (filter (λ c, 1 < size c) groups.*2).

(** A chain of [parent] links is never longer than the number of unions
    made, so this fuel is enough: see [find_clusters_returns]. *)
Definition find_clusters (overlaps : list overlap) (threshold : Q)
    : option (list (gset pystr)) :=
  find_clusters_fuel (S (length overlaps)) overlaps threshold.

(** *** The pipeline of [main], from the mapping of the skills to the
    object that is printed as JSON. *)
Definition main (skills : gmap pystr frontmatter) (threshold : Q)
    : option report :=
  overlaps ← compute_overlap skills;
  clusters ← find_clusters overlaps threshold;
  Some {| total_skills := size skills;
          overlaps := overlaps;
          clusters := (λ c, sorted str_leb (elements c)) <$> clusters |}.

End Program.

(** ** Two interpreters and some corpora *)

(** [str.lower] on ASCII text. *)
Definition ascii_lower (x : pystr) : pystr :=
  (λ c, if (0x41 <=? c) && (c <=? 0x5a) then c + 0x20 else c)%N <$> x.

(** Two iteration orders for sets of strings: ascending and descending. *)
Definition iter_up (X : gset pystr) : list pystr :=
  sorted str_leb (elements X).

Definition iter_down (X : gset pystr) : list pystr :=
  rev (sorted str_leb (elements X)).

Definition skill (description tools : pystr) : frontmatter :=
  {[ s "description" := description; s "tools" := tools ]}.

(** A phrase between double quotes. *)
Definition quoted (phrase : string) : pystr := quote :: s phrase ++ [quote].

(** The example of the specification. *)
Definition deploy_a : frontmatter :=
  skill (s "Handles " ++ quoted "deploy app"
           ++ s " requests for Kubernetes clusters")
        (s "kubectl,helm").

Definition deploy_b : frontmatter :=
  skill (s "Handles " ++ quoted "deploy app"
           ++ s " and rollback for container clusters")
        (s "kubectl,docker").

Definition corpus_deploy : gmap pystr frontmatter :=
  {[ s "a" := deploy_a; s "b" := deploy_b ]}.




(** Four skills in two unrelated pairs: [a] and [b] share a trigger phrase
    and two keywords, and so do [c] and [d]. *)
Definition corpus_two : gmap pystr frontmatter :=
  {[ s "a" := skill (s "Run " ++ quoted "alpha task" ++ s " now") [];
     s "b" := skill (s "Start " ++ quoted "alpha task" ++ s " here") [];
     s "c" := skill (s "Open " ++ quoted "gamma job" ++ s " there") [];
     s "d" := skill (s "Close " ++ quoted "gamma job" ++ s " soon") [] ]}.

(** A list of overlap records as [find_clusters] takes it: a chain from [a]
    to [d] whose links have the composites 0.5, 0.3 and 0.2. *)
Definition link (a b : string) (c : Q) : overlap :=
  {| pair := (s a, s b); composite := c; keyword_sim := c; tool_sim := 0;
     trigger_overlap := []; shared_keywords := [] |}.

Definition overlaps_chain : list overlap :=
  [link "a" "b" 0.5; link "b" "c" 0.3; link "c" "d" 0.2].

(** ** Notions used in the statements *)

(** The order of the list a stable sort returns: [x] stands before [y] when
    [le x y], and, the two being equal for [le], when [x] stood before [y]
    in the input, which [R] describes. *)
Definition sorted_rel {A} (le : A → A → bool) (R : relation A) (x y : A)
    : Prop :=
  le x y = true ∧ (le y x = true → R x y).

(** The order of two pairs of names, first name first. *)
Definition pair_lt (p q : pystr * pystr) : Prop :=
  str_lt p.1 q.1 ∨ (p.1 = q.1 ∧ str_lt p.2 q.2).

(** The record the loop of [compute_overlap] appends for one pair of names,
    if it appends one. *)
Definition emitted (str_lower : pystr → pystr)
    (skills : gmap pystr frontmatter) (ab : pystr * pystr) : option overlap :=
  fa ← skills !! ab.1;
  fb ← skills !! ab.2;
  sc ← pair_scores str_lower fa fb;
  if Qlt_bool 0.15 (score sc) then Some (overlap_of ab.1 ab.2 sc) else None.

(** [r1] may stand before [r2] in a list ordered by the composite field,
    the greater first, and by the pair where the composite is the same. *)
Definition overlap_before (r1 r2 : overlap) : Prop :=
  (composite r2 < composite r1)%Q
  ∨ ((composite r1 == composite r2)%Q ∧ pair_lt (pair r1) (pair r2)).

(** A chain of [n] links of [parent] that leads from [x] to [r], where the
    loop of [find] stops. *)
Inductive path (parent : gmap pystr pystr) : pystr → pystr → nat → Prop :=
  | path_root x :
      default x (parent !! x) = x → path parent x x 0
  | path_step x p r n :
      parent !! x = Some p → p ≠ x → path parent p r n →
      path parent x r (S n).

Definition root_of (parent : gmap pystr pystr) (x r : pystr) : Prop :=
  ∃ n, path parent x r n.

(** [parent'] has the roots of [parent], and no longer chains. *)
Definition compresses (parent parent' : gmap pystr pystr) : Prop :=
  ∀ x r n, path parent x r n → ∃ n', n' ≤ n ∧ path parent' x r n'.

(** An edge of the cluster graph: a record of the list whose composite is
    at least the threshold. *)
Definition edge (overlaps : list overlap) (threshold : Q) (x y : pystr)
    : Prop :=
  ∃ o, o ∈ overlaps ∧ (threshold <= composite o)%Q ∧ pair o = (x, y).

(** Joined by a chain of edges, each taken in either direction. *)
Definition connected (overlaps : list overlap) (threshold : Q)
    : relation pystr :=
  rtsc (edge overlaps threshold).

(** The state of the disjoint-set forest after the unions of the edges [E]:
    every chain ends, after [k] links at most; a name is joined to its root
    by edges; the two ends of an edge have the same root. *)
Definition uf_inv (E : relation pystr) (k : nat)
    (parent : gmap pystr pystr) : Prop :=
  (∀ x, ∃ r n, n ≤ k ∧ path parent x r n)
  ∧ (∀ x r, root_of parent x r → rtsc E x r)
  ∧ (∀ x y, E x y → ∃ r, root_of parent x r ∧ root_of parent y r).

(** The groups after the names [seen] have been visited. *)
Definition groups_inv (parent : gmap pystr pystr) (seen : gset pystr)
    (groups : list (pystr * gset pystr)) : Prop :=
  NoDup groups.*1
  ∧ (∀ r c, (r, c) ∈ groups →
       ∀ x, x ∈ c ↔ x ∈ seen ∧ root_of parent x r)
  ∧ (∀ x r, x ∈ seen → root_of parent x r → r ∈ groups.*1).


(** [str_lower] acts on the descriptions of the corpus, and on their quoted
    phrases, as it does on ASCII text. *)
Definition lowers_ascii (str_lower : pystr → pystr)
    (skills : gmap pystr frontmatter) : Prop :=
  ∀ name fm, skills !! name = Some fm →
    str_lower (default [] (fm !! s "description"))
    = ascii_lower (default [] (fm !! s "description"))
    ∧ ∀ t, t ∈ extract_triggers (default [] (fm !! s "description")) →
           str_lower t = ascii_lower t.

(** ** Notions used in the further properties *)

(** A description written as pieces of text, each followed by a phrase
    between double quotes, and a last piece of text. *)
Fixpoint description_of (parts : list (pystr * pystr)) (last : pystr)
    : pystr :=
  match parts with
  | [] => last
  | (text, phrase) :: parts' =>
      text ++ quote :: phrase ++ quote :: description_of parts' last
  end.

(** [sep.join(l)] *)
Fixpoint join (sep : pystr) (l : list pystr) : pystr :=
  match l with
  | [] => []
  | [x] => x
  | x :: l' => x ++ sep ++ join sep l'
  end.

(** A name as it can stand in a list of tools: not empty, without a comma,
    and with no white space at either end. *)
Definition tool_name (name : pystr) : Prop :=
  name ≠ [] ∧ (0x2c%N ∉ name)
  ∧ (∀ c, head name = Some c → isspace c = false)
  ∧ (∀ c, last name = Some c → isspace c = false).

(** [piece] is [name] with white space around it. *)
Definition padded (piece name : pystr) : Prop :=
  ∃ pre post, piece = pre ++ name ++ post
              ∧ Forall (λ c, isspace c = true) pre
              ∧ Forall (λ c, isspace c = true) post.

(** The dictionary [parent] is a forest: from every name the chain of links
    ends, after [k] links at most. *)
Definition forest (k : nat) (parent : gmap pystr pystr) : Prop :=
  ∀ x, ∃ r n, n ≤ k ∧ path parent x r n.

(** Two names with the same root. *)
Definition same_root (parent : gmap pystr pystr) (a b : pystr) : Prop :=
  ∃ r, root_of parent a r ∧ root_of parent b r.

(** ** The parser of the frontmatter and the scan of the directory *)

(** [x.startswith(p)] *)
Fixpoint startswith (p x : pystr) : bool :=
  match p, x with
  | [], _ => true
  | c :: p', d :: x' => (c =? d)%N && startswith p' x'
  | _ :: _, [] => false
  end.

(** The longest prefix of [x] whose characters all satisfy [p], and what
    follows it. *)
Fixpoint span (p : N → bool) (x : pystr) : pystr * pystr :=
  match x with
  | c :: x' =>
      if p c then let '(run, rest) := span p x' in (c :: run, rest)
      else ([], x)
  | [] => ([], [])
  end.

Definition newline : N := 0xa.

(** The three hyphens that open and close the frontmatter. *)
Definition fence : pystr := s "---".

(** The ways the pattern [\s*\n] matches at the start of [text], in the
    order in which the regex engine tries them: [\s*] is greedy, so the
    longest run of white space comes first.  Each way is given by the text
    that follows the match. *)
Fixpoint after_blank (text : pystr) : list pystr :=
  match text with
  | c :: text' =>
      if isspace c then
        after_blank text' ++ (if (c =? newline)%N then [text'] else [])
      else []
  | [] => []
  end.

(** The lazy group [(.*?)] followed by [\n---], under [re.DOTALL]: the text
    before the first newline that three hyphens follow, and the text behind
    the hyphens.  [acc] is the text passed over, newest first. *)
Fixpoint find_fence (acc : pystr) (text : pystr) : option (pystr * pystr) :=
  match text with
  | [] => None
  | c :: text' =>
      if startswith (newline :: fence) text then Some (rev acc, drop 4 text)
      else find_fence (c :: acc) text'
  end.

(** [m = re.match] of the pattern [^---\s*\n(.*?)\n---] with [re.DOTALL];
    the result is [m.group(1)] with [text[m.end():]]. *)
Definition match_fences (text : pystr) : option (pystr * pystr) :=
  if startswith fence text then
    head (omap (find_fence []) (after_blank (drop 3 text)))
  else None.

(** The values that announce a block of indented lines. *)
Definition block_marker (val : pystr) : bool :=
  bool_decide (val ∈ [s ">-"; s ">"; s "|"; s "|-"]).

(** What is found at [skill_path / SKILL.md]: nothing, a file that
    [read_text] cannot read as UTF-8 text, or the text [read_text]
    returns. *)
Inductive file :=
  | NoFile
  | Unreadable
  | Text (text : pystr).

(** The dictionary [parse_frontmatter] returns: the entries whose value is
    a string, [_path] among them, and the number under [_body_lines]. *)
Record parsed := Parsed {
  fields : frontmatter;
  body_lines : nat
}.

(** What [iterdir] yields: [d.name], [str(d)], [d.is_dir()] and what is
    found at [d / SKILL.md]. *)
Record entry := Entry {
  entry_name : pystr;
  entry_path : pystr;
  is_dir : bool;
  skill_md : file
}.

(** How a run of the program ends: [sys.exit] with a code, or the object
    printed as JSON. *)
Inductive outcome :=
  | Exit (code : nat)
  | Printed (r : report).

Section Reader.

(** [str.lower] *)
Variable str_lower : pystr → pystr.

(** The order in which a [for] loop visits a set of strings. *)
Variable set_iter : gset pystr → list pystr.

(** [str.isalnum] on one code point beyond ASCII: the table of the
    interpreter. *)
Variable isalnum : N → bool.

(** The class [\w]: the letters and digits, and the underscore. *)
Definition is_w (c : N) : bool :=
  if (c <? 0x80)%N then
    ((0x30 <=? c) && (c <=? 0x39) || (0x41 <=? c) && (c <=? 0x5a)
     || (c =? 0x5f) || (0x61 <=? c) && (c <=? 0x7a))%N
  else isalnum c.

(** [re.match] of the pattern for a key and its value: a character of
    [\w] and a run of [[\w-]] (group 1), a colon, [\s*], and any characters
    but a newline (group 2).  The run is greedy and a colon is not in the
    class, so the colon can only follow the whole run; [\s*] takes all the
    white space and group 2 the rest, up to a newline. *)
Definition match_key (line : pystr) : option (pystr * pystr) :=
  match line with
  | c :: line' =>
      if is_w c then
        let '(run, rest) := span (λ c, is_w c || (c =? 0x2d)%N) line' in
        match rest with
        | c' :: rest' =>
            if (c' =? 0x3a)%N then
              Some (c :: run,
                    (span (λ c, negb (c =? newline)%N) (lstrip rest')).1)
            else None
        | [] => None
        end
      else None
  | [] => None
  end.

(** [if current_key: fm[current_key] = ' '.join(current_val_lines).strip()] *)
Definition flush (fm : frontmatter) (current_key : option pystr)
    (current_val_lines : list pystr) : frontmatter :=
  match current_key with
  | Some k => <[k := strip (join (s " ") current_val_lines)]> fm
  | None => fm
  end.

(** One line of the frontmatter.  The state is [fm], [current_key] and
    [current_val_lines]; a key, once set, is never the empty string. *)
Definition line_step (st : frontmatter * option pystr * list pystr)
    (line : pystr) : frontmatter * option pystr * list pystr :=
  let '(fm, current_key, current_val_lines) := st in
  let continued :=
    if bool_decide (is_Some current_key) && startswith (s "  ") line then
      (fm, current_key, current_val_lines ++ [strip line])
    else st in
  match match_key line with
  | Some (k, v) =>
      if negb (startswith (s "  ") line) then
        let val := strip v in
        (flush fm current_key current_val_lines, Some k,
         if block_marker val then [] else [val])
      else continued
  | None => continued
  end.

(** [parse_frontmatter] on the text of the file. *)
Definition parse_text (path text : pystr) : option parsed :=
  '(raw, body) ← match_fences text;
  let '(fm, current_key, current_val_lines) :=
    foldl line_step (∅, None, []) (split newline raw) in
  let fm := flush fm current_key current_val_lines in
  let n := match strip body with
           | [] => 0
           | _ :: _ => length (split newline (strip body))
           end in
  Some {| fields := <[s "_path" := path]> (delete (s "_body_lines") fm);
          body_lines := n |}.

(** [parse_frontmatter(skill_path)], where [path] is [str(skill_path)].
    The outer [None] is the exception of [read_text], the inner one the
    [None] the function returns. *)
Definition parse_frontmatter (path : pystr) (skill_md : file)
    : option (option parsed) :=
  match skill_md with
  | NoFile => Some None
  | Unreadable => None
  | Text text => Some (parse_text path text)
  end.

(** The body of the loop of [main] over the directory. *)
Definition scan_step (skills : gmap pystr frontmatter) (d : entry)
    : option (gmap pystr frontmatter) :=
  if is_dir d && negb (startswith (s ".") (entry_name d)) then
    fm ← parse_frontmatter (entry_path d) (skill_md d);
    match fm with
    | Some p =>
        Some (<[default (entry_name d) (fields p !! s "name") := fields p]>
                skills)
    | None => Some skills
    end
  else Some skills.

(** The entries of one directory are compared by their names. *)
Definition entry_leb (d1 d2 : entry) : bool :=
  str_leb (entry_name d1) (entry_name d2).

(** [for d in sorted(skills_dir.iterdir()): ...] *)
Definition scan_skills (entries : list entry)
    : option (gmap pystr frontmatter) :=
  foldlM scan_step ∅ (sorted entry_leb entries).

(** [main] with [--json], from the directory: [None] where there is no
    such directory, else its entries in the order [iterdir] yields them. *)
Definition main_json (skills_dir : option (list entry)) (threshold : Q)
    : option outcome :=
  match skills_dir with
  | None => Some (Exit 1)
  | Some entries =>
      skills ← scan_skills entries;
      r ← main str_lower set_iter skills threshold;
      Some (Printed r)
  end.

End Reader.

(** [str.isalnum] of an interpreter that knows ASCII only. *)
Definition ascii_alnum (c : N) : bool := false.

(** ** Notions used in the properties of the parser and of the scan *)

(** A key of the frontmatter: a character of [\w], then characters of [\w]
    and hyphens. *)
Definition key_name (isalnum : N → bool) (k : pystr) : Prop :=
  ∃ c run, k = c :: run ∧ is_w isalnum c = true
           ∧ Forall (λ c, is_w isalnum c || (c =? 0x2d)%N = true) run.

(** [piece] does not occur in [x]. *)
Definition absent (piece x : pystr) : Prop :=
  ∀ pre post, x ≠ pre ++ piece ++ post.

(** An entry of a frontmatter as it is written: the key, the text behind
    the colon, and the indented lines below. *)
Definition render_entry (e : pystr * pystr * list pystr) : list pystr :=
  (e.1.1 ++ s ": " ++ e.1.2) :: ((λ l, s "  " ++ l) <$> e.2).

(** A document: the entries between two fences, and the body. *)
Definition render (entries : list (pystr * pystr * list pystr))
    (body : pystr) : pystr :=
  fence ++ newline :: join [newline] (entries ≫= render_entry)
  ++ newline :: fence ++ body.

(** The value of an entry: its pieces of text without the white space
    around them, with one space between two of them; a block marker
    behind the colon is no piece. *)
Definition value_of (v : pystr) (below : list pystr) : pystr :=
  strip (join (s " ")
           ((if block_marker (strip v) then [] else [strip v])
            ++ (strip <$> below))).

(** The dictionary of a list of entries: of two entries with the same key,
    the later one stays. *)
Definition written (entries : list (pystr * pystr * list pystr))
    : frontmatter :=
  foldl (λ fm e, <[e.1.1 := value_of e.1.2 e.2]> fm) ∅ entries.

(** An entry of the directory that the scan opens: a directory whose name
    does not start with a dot. *)
Definition visible (d : entry) : Prop :=
  is_dir d = true ∧ startswith (s ".") (entry_name d) = false.

(** No [SKILL.md] that the scan opens is unreadable. *)
Definition readable (entries : list entry) : Prop :=
  ∀ d, d ∈ entries → visible d → skill_md d ≠ Unreadable.

(** The entry [d] holds a skill that goes under the name [n], with the
    frontmatter [fm]. *)
Definition declares (isalnum : N → bool) (d : entry) (n : pystr)
    (fm : frontmatter) : Prop :=
  visible d
  ∧ ∃ text p, skill_md d = Text text
      ∧ parse_text isalnum (entry_path d) text = Some p
      ∧ fm = fields p
      ∧ n = default (entry_name d) (fields p !! s "name").

(** ** A directory *)

(** Two directories whose frontmatter gives the same name, a hidden
    directory and a file. *)
Definition dir_alpha : entry :=
  {| entry_name := s "alpha"; entry_path := s "/skills/alpha";
     is_dir := true;
     skill_md := Text (render [(s "name", s "deploy", [])] []) |}.

Definition dir_beta : entry :=
  {| entry_name := s "beta"; entry_path := s "/skills/beta";
     is_dir := true;
     skill_md := Text (render [(s "name", s "deploy", [])] []) |}.

Definition dir_hidden : entry :=
  {| entry_name := s ".git"; entry_path := s "/skills/.git";
     is_dir := true; skill_md := Unreadable |}.

Definition file_readme : entry :=
  {| entry_name := s "README.md"; entry_path := s "/skills/README.md";
     is_dir := false; skill_md := NoFile |}.

Definition listing : list entry :=
  [dir_beta; file_readme; dir_alpha; dir_hidden].

(** ** The overlap list in binary64 arithmetic *)

(** The numbers of [compute_overlap] as the interpreter computes them: a
    [float] is an IEEE 754 binary64 number, and every operation is rounded
    to nearest, ties to even.  The functions have the names they have
    above, where the same numbers are exact rationals; those that do not
    compute with numbers are shared. *)
Module B64.

Abbreviation f64 := SpecFloat.spec_float.

Definition mul (x y : f64) : f64 := SpecFloat.SFmul 53 1024 x y.
Definition add (x y : f64) : f64 := SpecFloat.SFadd 53 1024 x y.
Definition div (x y : f64) : f64 := SpecFloat.SFdiv 53 1024 x y.

(** [x < y] and [x <= y] *)
Definition ltb (x y : f64) : bool := SpecFloat.SFltb x y.
Definition leb (x y : f64) : bool := SpecFloat.SFleb x y.

(** [0.0], also what the integer [0] becomes when it is added to a
    float. *)
Definition zero : f64 := SpecFloat.S754_zero false.

(** The double nearest to [n / d]: what [n / d] returns on two integers,
    and the value of a decimal literal that is written [n / d]. *)
Definition of_ratio (n : Z) (d : positive) : f64 :=
  match n with
  | Z0 => zero
  | Zpos p =>
      div (SpecFloat.S754_finite false p 0) (SpecFloat.S754_finite false d 0)
  | Zneg p =>
      div (SpecFloat.S754_finite true p 0) (SpecFloat.S754_finite false d 0)
  end.

(** The number a double stands for (0 for the infinities and NaN). *)
Definition exact (x : f64) : Q :=
  match x with
  | SpecFloat.S754_finite sign m e =>
      ((if sign then -1 else 1) * inject_Z (Z.pos m) * 2 ^ e)%Q
  | _ => 0%Q
  end.

(** [n / d] on two lengths: [ZeroDivisionError] when [d] is 0. *)
Definition truediv (n d : nat) : option f64 :=
  match d with
  | O => None
  | S _ => Some (of_ratio (Z.of_nat n) (Pos.of_nat d))
  end.

(** [round(x, ndigits)] on a float, as [float.__round__] computes it: the
    number [x] stands for is rounded to [ndigits] decimals, ties to even,
    and the result is the double nearest to that decimal, with the sign of
    [x]. *)
Definition round (x : f64) (ndigits : nat) : f64 :=
  match x with
  | SpecFloat.S754_finite sign m e =>
      let scale := (10 ^ Z.of_nat ndigits)%Z in
      let magnitude := (inject_Z (Z.pos m) * 2 ^ e)%Q in
      match round_half_even (magnitude * inject_Z scale) with
      | Zpos k =>
          div (SpecFloat.S754_finite sign k 0)
              (SpecFloat.S754_finite false (Z.to_pos scale) 0)
      | _ => SpecFloat.S754_zero sign
      end
  | _ => x
  end.

Definition jaccard `{Countable K} (a b : gset K) : option f64 :=
  if (size a =? 0) && (size b =? 0) then Some zero
  else truediv (size (a ∩ b)) (size (a ∪ b)).

(** One entry of the list [compute_overlap] returns. *)
Record overlap := Overlap {
  pair : pystr * pystr;
  composite : f64;
  keyword_sim : f64;
  tool_sim : f64;
  trigger_overlap : list pystr;
  shared_keywords : list pystr
}.

(** The scores of one pair: the body of the loop of [compute_overlap] up to
    the threshold test. *)
Record scores := Scores {
  kw_sim : f64;
  tl_sim : f64;
  trig_overlap : gset pystr;
  kw_shared : gset pystr;
  score : f64
}.

Section Program.

(** [str.lower] *)
Variable str_lower : pystr → pystr.

Definition pair_scores (fa fb : frontmatter) : option scores :=
  let desc_a := default [] (fa !! s "description") in
  let desc_b := default [] (fb !! s "description") in
  let kw_a := extract_keywords str_lower desc_a in
  let kw_b := extract_keywords str_lower desc_b in
  kw_sim ← jaccard kw_a kw_b;
  let tools_a := extract_tools fa in
  let tools_b := extract_tools fb in
  tool_sim ← jaccard tools_a tools_b;
  let trigs_a := trigger_set str_lower desc_a in
  let trigs_b := trigger_set str_lower desc_b in
  let trig_overlap := trigs_a ∩ trigs_b in
  let composite :=
    add (add (mul kw_sim (of_ratio 5 10)) (mul tool_sim (of_ratio 2 10)))
        (if bool_decide (trig_overlap ≠ ∅) then of_ratio 3 10 else zero) in
  Some (Scores kw_sim tool_sim trig_overlap (kw_a ∩ kw_b) composite).

(** The record appended for a pair that passes the threshold. *)
Definition overlap_of (a b : pystr) (sc : scores) : overlap :=
  {| pair := (a, b);
     composite := round (score sc) 3;
     keyword_sim := round (kw_sim sc) 3;
     tool_sim := round (tl_sim sc) 3;
     trigger_overlap := sorted str_leb (elements (trig_overlap sc));
     shared_keywords := take 10 (sorted str_leb (elements (kw_shared sc))) |}.

(** One turn of the loop over the pairs. *)
Definition overlap_step (skills : gmap pystr frontmatter)
    (results : list overlap) (ab : pystr * pystr) : option (list overlap) :=
  let '(a, b) := ab in
  fa ← skills !! a;
  fb ← skills !! b;
  sc ← pair_scores fa fb;
  if ltb (of_ratio 15 100) (score sc)
  then Some (results ++ [overlap_of a b sc])
  else Some results.

(** The order of [results.sort(key=..., reverse=True)] on the key
    [composite]: the larger key first, equal keys in the order they had. *)
Definition composite_geb (x y : overlap) : bool :=
  leb (composite y) (composite x).

Definition compute_overlap (skills : gmap pystr frontmatter)
    : option (list overlap) :=
  let names := sorted str_leb (elements (dom skills)) in
  results ← foldlM (overlap_step skills) [] (combinations2 names);
  Some (sorted composite_geb results).

(** The record the loop of [compute_overlap] appends for one pair of names,
    if it appends one. *)
Definition emitted (skills : gmap pystr frontmatter) (ab : pystr * pystr)
    : option overlap :=
  fa ← skills !! ab.1;
  fb ← skills !! ab.2;
  sc ← pair_scores fa fb;
  if ltb (of_ratio 15 100) (score sc) then Some (overlap_of ab.1 ab.2 sc)
  else None.

End Program.

End B64.

(** Two skills with no description, three of whose four tools are shared:
    the composite is [3/4 * 0.2], which is 0.15 in exact arithmetic. *)
Definition corpus_boundary : gmap pystr frontmatter :=
  {[ s "a" := {[ s "tools" := s "w,x,y,z" ]};
     s "b" := {[ s "tools" := s "w,x,y" ]} ]}.

(** * Properties *)

(** ** Numbers and strings *)

Lemma Qlt_bool_iff (x y : Q) : Qlt_bool x y = true ↔ (x < y)%Q.
Proof.
  unfold Qlt_bool. rewrite negb_true_iff, <- not_true_iff_false, Qle_bool_iff.
  split; [apply Qnot_le_lt | apply Qlt_not_le].
Qed.

Lemma truediv_Some (n d : nat) :
  d ≠ 0 →
  ∃ q, truediv n d = Some q
       ∧ (q == inject_Z (Z.of_nat n) / inject_Z (Z.of_nat d))%Q.
Proof.
  intros Hd. destruct d as [|d]; [done|].
  eexists; split; [reflexivity|].
  rewrite Qmake_Qdiv. by rewrite <- positive_nat_Z, Nat2Pos.id.
Qed.

Lemma size_0_iff `{Countable K} (a : gset K) : size a = 0 ↔ a = ∅.
Proof. rewrite size_empty_iff. by fold_leibniz. Qed.

Lemma size_empty_iff_0 `{Countable K} (a : gset K) :
  (size a =? 0) = true ↔ a = ∅.
Proof. rewrite Nat.eqb_eq. apply size_0_iff. Qed.

(** ** Jaccard similarity *)

Lemma jaccard_returns `{Countable K} (a b : gset K) :
  ∃ q, jaccard a b = Some q
       ∧ (a ∪ b ≠ ∅ →
          (q == inject_Z (Z.of_nat (size (a ∩ b)))
                / inject_Z (Z.of_nat (size (a ∪ b))))%Q)
       ∧ (a ∪ b = ∅ → q = 0%Q).
Proof.
  unfold jaccard.
  destruct (size a =? 0) eqn:Ha; [destruct (size b =? 0) eqn:Hb|]; simpl.
  - apply size_empty_iff_0 in Ha, Hb. subst.
    eexists; split; [done|]. split; [|done]. intros []. set_solver.
  - assert (size (a ∪ b) ≠ 0) as Hne.
    { rewrite size_0_iff. intros He.
      apply not_true_iff_false in Hb. apply Hb, size_empty_iff_0. set_solver. }
    destruct (truediv_Some (size (a ∩ b)) _ Hne) as (q & -> & Hq).
    exists q. split; [done|]. split; [done|].
    intros He. by apply size_0_iff in He.
  - assert (size (a ∪ b) ≠ 0) as Hne.
    { rewrite size_0_iff. intros He.
      apply not_true_iff_false in Ha. apply Ha, size_empty_iff_0. set_solver. }
    destruct (truediv_Some (size (a ∩ b)) _ Hne) as (q & -> & Hq).
    exists q. split; [done|]. split; [done|].
    intros He. by apply size_0_iff in He.
Qed.

(** C7.  [jaccard] is total: on any two sets it returns a number and never
    raises.  When the union is not empty the number is
    [|a ∩ b| / |a ∪ b|], and the divisor is not zero; when both sets are
    empty it is exactly 0. *)
Theorem jaccard_total `{Countable K} (a b : gset K) :
  is_Some (jaccard a b)
  ∧ (a ∪ b ≠ ∅ →
     size (a ∪ b) ≠ 0
     ∧ ∃ q, jaccard a b = Some q
            ∧ (q == inject_Z (Z.of_nat (size (a ∩ b)))
                    / inject_Z (Z.of_nat (size (a ∪ b))))%Q)
  ∧ (a = ∅ → b = ∅ → jaccard a b = Some 0%Q).
Proof.
  destruct (jaccard_returns a b) as (q & Hq & Hne & He).
  split; [by rewrite Hq|]. split.
  - intros Hu. split; [by rewrite size_0_iff|]. exists q. auto.
  - intros -> ->. rewrite Hq, He; [done|set_solver].
Qed.

Lemma jaccard_total_witness :
  let a : gset pystr := {[s "kubectl"; s "helm"]} in
  let b : gset pystr := {[s "kubectl"; s "docker"]} in
  (a ∪ b ≠ ∅ ∧ ∃ q, jaccard a b = Some q ∧ (q == 1 # 3)%Q)
  ∧ jaccard (∅ : gset pystr) ∅ = Some 0%Q.
Proof.
  intros a b. split.
  - assert (a ∪ b ≠ ∅) as Hne.
    { apply (non_empty_inhabited_L (s "kubectl")). set_solver. }
    split; [exact Hne|].
    destruct (jaccard_total a b) as (_ & H & _).
    destruct (H Hne) as (_ & q & Hq & Heq).
    exists q. split; [exact Hq|]. rewrite Heq. by vm_compute.
  - destruct (jaccard_total (∅ : gset pystr) ∅) as (_ & _ & H). by apply H.
Defined.

(** ** Trigger phrases *)

Lemma scan_triggers_phrase (open : option pystr) (d t : pystr) :
  (∀ acc, open = Some acc → quote ∉ acc) →
  t ∈ scan_triggers open d → t ≠ [] ∧ quote ∉ t.
Proof.
  revert open. induction d as [|c d IH]; intros open Hacc; simpl.
  - by intros ?%elem_of_nil.
  - destruct open as [acc|].
    + destruct (N.eqb_spec c quote) as [->|Hc].
      * destruct acc as [|a acc].
        { apply IH. intros ? [= <-]. apply not_elem_of_nil. }
        intros [->|Ht]%elem_of_cons.
        { split.
          - intros Hnil%(f_equal length). rewrite length_rev in Hnil. done.
          - rewrite list_elem_of_In, <- in_rev, <- list_elem_of_In.
            by apply Hacc. }
        revert Ht. by apply IH.
      * apply IH. intros ? [= <-]. rewrite elem_of_cons.
        intros [?|?]; [done|]. by eapply Hacc.
    + destruct (c =? quote)%N; apply IH; try done.
      intros ? [= <-]. apply not_elem_of_nil.
Qed.

Lemma scan_triggers_no_quote (open : option pystr) (d : pystr) :
  quote ∉ d → scan_triggers open d = [].
Proof.
  revert open. induction d as [|c d IH]; intros open Hd; [done|].
  apply not_elem_of_cons in Hd as [Hc Hd]. simpl.
  destruct (N.eqb_spec c quote) as [->|_]; [done|].
  destruct open; by apply IH.
Qed.

Lemma scan_triggers_app_no_quote (d1 d2 : pystr) :
  quote ∉ d1 → scan_triggers None (d1 ++ d2) = scan_triggers None d2.
Proof.
  induction d1 as [|c d1 IH]; intros Hd; [done|].
  apply not_elem_of_cons in Hd as [Hc Hd]. simpl.
  destruct (N.eqb_spec c quote) as [->|_]; [done|]. by apply IH.
Qed.

(** C10.  Every phrase [extract_triggers] returns has at least one
    character (and no double quote).  Two adjacent double quotes enclose no
    phrase: a description whose only quotes are such a pair has no trigger.
    So the trigger set of a description, the lower-cased phrases, never
    contains the empty string, [str.lower] mapping no other string to it. *)
Theorem triggers_nonempty (str_lower : pystr → pystr) (d : pystr) :
  (∀ x, str_lower x = [] → x = []) →
  (∀ t, t ∈ extract_triggers d → t ≠ [] ∧ quote ∉ t)
  ∧ (∀ d1 d2, quote ∉ d1 → quote ∉ d2 →
       extract_triggers (d1 ++ quote :: quote :: d2) = [])
  ∧ [] ∉ trigger_set str_lower d.
Proof.
  intros Hlower. split; [|split].
  - intros t. by apply scan_triggers_phrase.
  - intros d1 d2 H1 H2. unfold extract_triggers.
    rewrite scan_triggers_app_no_quote by done. simpl.
    by apply scan_triggers_no_quote.
  - unfold trigger_set. rewrite elem_of_list_to_set, list_elem_of_fmap.
    intros (t & Ht & Hin). symmetry in Ht. apply Hlower in Ht. subst t.
    by apply (scan_triggers_phrase None d []) in Hin as [? _].
Qed.

Lemma ascii_lower_nil (x : pystr) : ascii_lower x = [] → x = [].
Proof. by destruct x. Qed.

Lemma triggers_nonempty_witness :
  (∀ x, ascii_lower x = [] → x = [])
  ∧ extract_triggers
      (s "On " ++ quoted "Deploy App" ++ s " or " ++ [quote; quote])
    = [s "Deploy App"]
  ∧ [] ∉ trigger_set ascii_lower
           (s "On " ++ quoted "Deploy App" ++ s " or " ++ [quote; quote]).
Proof.
  split; [exact ascii_lower_nil|]. split; [reflexivity|].
  apply (triggers_nonempty ascii_lower _ ascii_lower_nil).
Defined.

(** ** Scores *)

Lemma truediv_unit (n d : nat) (q : Q) :
  n ≤ d → truediv n d = Some q → (0 <= q <= 1)%Q.
Proof.
  intros Hnd Hq. destruct d as [|d]; [done|]. injection Hq as <-.
  unfold Qle; simpl. split; [lia|].
  rewrite Z.mul_1_r, <- Pos.of_nat_succ, Zpos_P_of_succ_nat. lia.
Qed.

Lemma jaccard_unit `{Countable K} (a b : gset K) (q : Q) :
  jaccard a b = Some q → (0 <= q <= 1)%Q.
Proof.
  unfold jaccard. destruct (_ && _).
  - intros [= <-]. done.
  - apply truediv_unit, subseteq_size.
    etrans; [apply intersection_subseteq_l|apply union_subseteq_l].
Qed.

Lemma round_half_even_between (q : Q) (n m : Z) :
  (inject_Z n <= q)%Q → (q <= inject_Z m)%Q →
  (n ≤ round_half_even q ≤ m)%Z.
Proof.
  intros Hn Hm.
  assert (n ≤ Qfloor q)%Z as Hnf.
  { rewrite <- (Qfloor_Z n). by apply Qfloor_resp_le. }
  assert (Qfloor q ≤ m)%Z as Hfm.
  { rewrite <- (Qfloor_Z m). by apply Qfloor_resp_le. }
  assert ((1 # 2 <= q - inject_Z (Qfloor q))%Q → (Qfloor q + 1 ≤ m)%Z) as Hup.
  { intros Hhalf. destruct (decide (Qfloor q = m)) as [Heq|]; [|lia].
    exfalso. rewrite Heq in Hhalf.
    apply (Qle_not_lt _ _ Hm).
    apply Qlt_le_trans with (inject_Z m + (1 # 2))%Q.
    - rewrite <- (Qplus_0_r (inject_Z m)) at 1.
      by apply Qplus_lt_r.
    - apply (Qplus_le_l _ _ (- inject_Z m)).
      assert (inject_Z m + (1 # 2) + - inject_Z m == 1 # 2)%Q as -> by ring.
      done. }
  unfold round_half_even.
  destruct (Qcompare_spec (q - inject_Z (Qfloor q)) (1 # 2)) as [He|Hl|Hg].
  - destruct (Z.even _); [lia|]. split; [lia|]. apply Hup. by rewrite He.
  - lia.
  - split; [lia|]. apply Hup. by apply Qlt_le_weak.
Qed.

Lemma round_unit (x : Q) (ndigits : nat) :
  (0 <= x <= 1)%Q → (0 <= round x ndigits <= 1)%Q.
Proof.
  intros [H0 H1]. unfold round.
  assert (0 < 10 ^ Z.of_nat ndigits)%Z as Hpos by (apply Z.pow_pos_nonneg; lia).
  set (scale := (10 ^ Z.of_nat ndigits)%Z) in *.
  assert (0 < inject_Z scale)%Q as Hposq.
  { by rewrite (Zlt_Qlt 0 scale) in Hpos. }
  destruct (round_half_even_between (x * inject_Z scale) 0 scale) as [Hlo Hhi].
  - apply Qmult_le_0_compat; [done|]. by apply Qlt_le_weak.
  - rewrite <- (Qmult_1_l (inject_Z scale)) at 2.
    apply Qmult_le_compat_r; [done|]. by apply Qlt_le_weak.
  - rewrite Qred_correct. split.
    + apply Qle_shift_div_l; [done|]. rewrite Qmult_0_l.
      by rewrite (Zle_Qle 0) in Hlo.
    + apply Qle_shift_div_r; [done|]. rewrite Qmult_1_l.
      by rewrite Zle_Qle in Hhi.
Qed.

(** C2.  For any two skills the scores are computed, and the composite is
    [0.5 * keyword similarity + 0.2 * tool similarity], plus [0.3] when the
    two trigger sets meet and nothing otherwise; the two similarities are
    the Jaccard indices of the keyword sets and of the tool sets.  So the
    three numbers lie between 0 and 1, and so do the three rounded numbers
    of the record. *)
Theorem composite_weighted_sum (str_lower : pystr → pystr)
    (fa fb : frontmatter) :
  let desc_a := default [] (fa !! s "description") in
  let desc_b := default [] (fb !! s "description") in
  ∃ sc kw tl,
    pair_scores str_lower fa fb = Some sc
    ∧ jaccard (extract_keywords str_lower desc_a)
              (extract_keywords str_lower desc_b) = Some kw
    ∧ jaccard (extract_tools fa) (extract_tools fb) = Some tl
    ∧ kw_sim sc = kw ∧ tl_sim sc = tl
    ∧ trig_overlap sc
      = trigger_set str_lower desc_a ∩ trigger_set str_lower desc_b
    ∧ (score sc == 0.5 * kw + 0.2 * tl
                   + (if decide (trig_overlap sc = ∅) then 0 else 0.3))%Q
    ∧ (0 <= kw <= 1)%Q ∧ (0 <= tl <= 1)%Q ∧ (0 <= score sc <= 1)%Q
    ∧ ∀ a b, (0 <= keyword_sim (overlap_of a b sc) <= 1)%Q
             ∧ (0 <= tool_sim (overlap_of a b sc) <= 1)%Q
             ∧ (0 <= composite (overlap_of a b sc) <= 1)%Q.
Proof.
  intros desc_a desc_b. unfold pair_scores. fold desc_a desc_b.
  destruct (jaccard_returns (extract_keywords str_lower desc_a)
              (extract_keywords str_lower desc_b)) as (kw & Hkw & _).
  destruct (jaccard_returns (extract_tools fa) (extract_tools fb))
    as (tl & Htl & _).
  rewrite Hkw, Htl. simpl.
  pose proof (jaccard_unit _ _ _ Hkw) as Hkw1.
  pose proof (jaccard_unit _ _ _ Htl) as Htl1.
  eexists _, kw, tl. split; [reflexivity|]. simpl.
  set (ov := trigger_set str_lower desc_a ∩ trigger_set str_lower desc_b).
  assert (0 <= kw * 0.5 + tl * 0.2
               + (if bool_decide (ov ≠ ∅) then 0.3 else 0) <= 1)%Q as Hsc.
  { destruct (bool_decide _); lra. }
  repeat split; try done; try tauto.
  - destruct (decide (ov = ∅)) as [He|Hne].
    + rewrite bool_decide_eq_false_2 by (by intros []). ring.
    + rewrite bool_decide_eq_true_2 by done. ring.
  - by apply round_unit.
  - by apply round_unit.
  - by apply round_unit.
  - by apply round_unit.
  - by apply round_unit.
  - by apply round_unit.
Qed.

(** ** The order of strings *)

Lemma str_compare_eq (a b : pystr) : str_compare a b = Eq ↔ a = b.
Proof.
  revert b. induction a as [|x a IH]; intros [|y b]; simpl; try done.
  destruct (N.compare_spec x y) as [->|Hlt|Hgt].
  - rewrite IH. split; [by intros ->|by intros [= ->]].
  - split; [done|]. intros [= -> _]. lia.
  - split; [done|]. intros [= -> _]. lia.
Qed.

Lemma str_compare_antisym (a b : pystr) :
  str_compare b a = CompOpp (str_compare a b).
Proof.
  revert b. induction a as [|x a IH]; intros [|y b]; simpl; try done.
  rewrite (N.compare_antisym x y).
  destruct (x ?= y)%N; simpl; [apply IH|done|done].
Qed.

Lemma str_lt_trans (a b c : pystr) : str_lt a b → str_lt b c → str_lt a c.
Proof.
  unfold str_lt. revert b c.
  induction a as [|x a IH]; intros [|y b] [|z c]; simpl; try done.
  destruct (N.compare_spec x y) as [->|Hxy|Hxy]; [|  |done].
  - destruct (y ?= z)%N; [apply IH|done|done].
  - intros _. destruct (N.compare_spec y z) as [->|Hyz|Hyz]; [| |done].
    + intros _. by apply N.compare_lt_iff in Hxy as ->.
    + intros _. assert (x < z)%N as ->%N.compare_lt_iff by lia. done.
Qed.

Lemma str_lt_irrefl (a : pystr) : ¬ str_lt a a.
Proof. unfold str_lt. by rewrite (proj2 (str_compare_eq a a)). Qed.

Lemma str_leb_lt (a b : pystr) : str_leb a b = true → a ≠ b → str_lt a b.
Proof.
  unfold str_leb, str_lt. intros Hle Hne.
  destruct (str_compare a b) eqn:Hc; [|done|done].
  by apply str_compare_eq in Hc.
Qed.

Lemma str_leb_total (a b : pystr) : str_leb a b = true ∨ str_leb b a = true.
Proof.
  unfold str_leb. rewrite (str_compare_antisym a b).
  destruct (str_compare a b); simpl; auto.
Qed.

Lemma str_leb_trans (a b c : pystr) :
  str_leb a b = true → str_leb b c = true → str_leb a c = true.
Proof.
  intros Hab Hbc.
  destruct (decide (a = b)) as [->|Hne1]; [done|].
  destruct (decide (b = c)) as [->|Hne2]; [done|].
  pose proof (str_lt_trans _ _ _ (str_leb_lt _ _ Hab Hne1)
                (str_leb_lt _ _ Hbc Hne2)) as Hac.
  unfold str_leb. by rewrite Hac.
Qed.

(** ** Sorting *)

Section Sorting.
Context {A : Type} (le : A → A → bool).

Lemma sort_insert_perm (x : A) (l : list A) : sort_insert le x l ≡ₚ x :: l.
Proof.
  induction l as [|y l IH]; simpl; [done|].
  destruct (le x y); [done|]. rewrite IH. apply Permutation_swap.
Qed.

Lemma sorted_perm (l : list A) : sorted le l ≡ₚ l.
Proof.
  induction l as [|x l IH]; simpl; [done|].
  by rewrite sort_insert_perm, IH.
Qed.

Lemma elem_of_sorted (x : A) (l : list A) : x ∈ sorted le l ↔ x ∈ l.
Proof. by rewrite sorted_perm. Qed.

Hypothesis le_total : ∀ x y, le x y = true ∨ le y x = true.
Hypothesis le_trans : ∀ x y z, le x y = true → le y z = true → le x z = true.

(** The order of the input list, [R], decides between equal keys. *)
Variable R : relation A.

Lemma sort_insert_stable (x : A) (l : list A) :
  StronglySorted (sorted_rel le R) l → Forall (R x) l →
  StronglySorted (sorted_rel le R) (sort_insert le x l).
Proof.
  induction l as [|y l IH]; intros Hs HR; simpl.
  { repeat constructor. }
  apply StronglySorted_inv in Hs as [Hs Hy].
  apply Forall_cons in HR as [HRy HR].
  destruct (le x y) eqn:Hxy.
  - constructor; [by constructor|].
    constructor; [done|].
    rewrite Forall_forall in *. intros z Hz. split.
    + eapply le_trans; [done|]. by apply Hy.
    + intros _. by apply HR.
  - constructor; [by apply IH|].
    rewrite sort_insert_perm. constructor; [|done]. split.
    + by destruct (le_total x y) as [?|?]; [congruence|].
    + congruence.
Qed.

Lemma sorted_stable (l : list A) :
  StronglySorted R l → StronglySorted (sorted_rel le R) (sorted le l).
Proof.
  induction l as [|x l IH]; intros Hs; simpl; [constructor|].
  apply StronglySorted_inv in Hs as [Hs Hx].
  apply sort_insert_stable; [by apply IH|]. by rewrite sorted_perm.
Qed.
End Sorting.

Lemma StronglySorted_impl {A} (R1 R2 : relation A) (l : list A) :
  (∀ x y, x ∈ l → y ∈ l → R1 x y → R2 x y) →
  StronglySorted R1 l → StronglySorted R2 l.
Proof.
  induction l as [|x l IH]; intros Himp Hs; [constructor|].
  apply StronglySorted_inv in Hs as [Hs Hx]. constructor.
  - apply IH; [|done]. intros ?????. apply Himp; by try right.
  - rewrite Forall_forall in *. intros y Hy.
    apply Himp; [left|by right|by apply Hx].
Qed.

Lemma StronglySorted_trivial {A} (l : list A) :
  StronglySorted (λ _ _, True) l.
Proof. induction l; constructor; [done|]. by apply Forall_forall. Qed.

(** [sorted(set)] lists the elements of the set in ascending order. *)
Lemma sorted_set_lt (X : gset pystr) :
  StronglySorted str_lt (sorted str_leb (elements X)).
Proof.
  assert (NoDup (sorted str_leb (elements X))) as Hnd.
  { rewrite sorted_perm. apply NoDup_elements. }
  pose proof (sorted_stable str_leb str_leb_total str_leb_trans (λ _ _, True)
                (elements X) (StronglySorted_trivial _)) as Hs.
  revert Hnd Hs. generalize (sorted str_leb (elements X)). intros l.
  induction l as [|x l IH]; intros Hnd Hs; [constructor|].
  apply NoDup_cons in Hnd as [Hx Hnd].
  apply StronglySorted_inv in Hs as [Hs Hall].
  constructor; [by apply IH|].
  rewrite Forall_forall in *. intros y Hy.
  apply str_leb_lt; [by apply Hall|]. by intros ->.
Qed.

Lemma elem_of_sorted_set (x : pystr) (X : gset pystr) :
  x ∈ sorted str_leb (elements X) ↔ x ∈ X.
Proof. by rewrite elem_of_sorted, elem_of_elements. Qed.

(** ** The pairs of names *)

Lemma elem_of_combinations2 {A} (l : list A) (a b : A) :
  (a, b) ∈ combinations2 l → a ∈ l ∧ b ∈ l.
Proof.
  induction l as [|x l IH]; simpl; [by intros ?%elem_of_nil|].
  rewrite elem_of_app, list_elem_of_fmap.
  intros [(y & [= -> ->] & Hy)|Hin].
  - split; [left|by right].
  - destruct (IH Hin). split; by right.
Qed.

Lemma combinations2_sorted {A} (R : relation A) (l : list A) (a b : A) :
  StronglySorted R l → (a, b) ∈ combinations2 l → R a b.
Proof.
  induction l as [|x l IH]; simpl; [by intros _ ?%elem_of_nil|].
  intros [Hs Hx]%StronglySorted_inv.
  rewrite elem_of_app, list_elem_of_fmap.
  intros [(y & [= -> ->] & Hy)|Hin]; [|by apply IH].
  rewrite Forall_forall in Hx. by apply Hx.
Qed.

Lemma combinations2_complete {A} (l : list A) (a b : A) :
  a ∈ l → b ∈ l → a ≠ b →
  (a, b) ∈ combinations2 l ∨ (b, a) ∈ combinations2 l.
Proof.
  induction l as [|x l IH]; simpl; [by intros ?%elem_of_nil|].
  rewrite !elem_of_cons, !elem_of_app, !list_elem_of_fmap.
  intros [->|Ha] [->|Hb] Hne; try done.
  - left. left. by exists b.
  - right. left. by exists a.
  - destruct (IH Ha Hb Hne); auto.
Qed.

Lemma combinations2_pair_lt (l : list pystr) :
  StronglySorted str_lt l → StronglySorted pair_lt (combinations2 l).
Proof.
  induction l as [|x l IH]; simpl; [constructor|].
  intros [Hs Hx]%StronglySorted_inv. rewrite Forall_forall in Hx.
  apply StronglySorted_app_2; [| |by apply IH].
  2:{ clear IH Hx. induction l as [|y l IH]; simpl; [constructor|].
    apply StronglySorted_inv in Hs as [Hs Hy]. constructor; [by apply IH|].
    rewrite Forall_forall in Hy. apply Forall_forall.
    intros [? z] (z' & [= -> ->] & Hz)%list_elem_of_fmap.
    right. split; [done|]. by apply Hy. }
  - intros [? y] [a b] (y' & [= -> ->] & Hy)%list_elem_of_fmap
      [Ha _]%elem_of_combinations2.
    left. by apply Hx.
Qed.

(** ** The overlap list *)

Lemma jaccard_comm `{Countable K} (a b : gset K) :
  jaccard a b = jaccard b a.
Proof.
  unfold jaccard.
  by rewrite (comm_L (∩) a b), (comm_L (∪) a b), (andb_comm (size a =? 0)).
Qed.

Section Overlap.
Variable str_lower : pystr → pystr.
Variable skills : gmap pystr frontmatter.

Lemma pair_scores_returns (fa fb : frontmatter) :
  is_Some (pair_scores str_lower fa fb).
Proof.
  unfold pair_scores.
  destruct (jaccard_returns
    (extract_keywords str_lower (default [] (fa !! s "description")))
    (extract_keywords str_lower (default [] (fb !! s "description"))))
    as (kw & -> & _).
  destruct (jaccard_returns (extract_tools fa) (extract_tools fb))
    as (tl & -> & _).
  by eexists.
Qed.

Lemma pair_scores_sym (fa fb : frontmatter) (sc : scores) :
  pair_scores str_lower fa fb = Some sc →
  ∃ sc', pair_scores str_lower fb fa = Some sc' ∧ score sc' = score sc.
Proof.
  unfold pair_scores.
  set (ka := extract_keywords _ (default [] (fa !! _))).
  set (kb := extract_keywords _ (default [] (fb !! _))).
  set (ta := trigger_set _ (default [] (fa !! _))).
  set (tb := trigger_set _ (default [] (fb !! _))).
  rewrite (jaccard_comm kb ka), (comm_L (∩) tb ta).
  rewrite (jaccard_comm (extract_tools fb) (extract_tools fa)).
  destruct (jaccard ka kb) as [kw|]; [|done]. simpl.
  destruct (jaccard (extract_tools fa) (extract_tools fb)) as [tl|]; [|done].
  simpl. intros [= <-]. by eexists.
Qed.

Lemma emitted_Some (ab : pystr * pystr) (r : overlap) :
  emitted str_lower skills ab = Some r ↔
  ∃ fa fb sc, skills !! ab.1 = Some fa ∧ skills !! ab.2 = Some fb
              ∧ pair_scores str_lower fa fb = Some sc
              ∧ (0.15 < score sc)%Q ∧ r = overlap_of ab.1 ab.2 sc.
Proof.
  unfold emitted. split.
  - destruct (skills !! ab.1) as [fa|]; [|done].
    destruct (skills !! ab.2) as [fb|]; [|done]. simpl.
    destruct (pair_scores str_lower fa fb) as [sc|] eqn:Hsc; [|done]. simpl.
    destruct (Qlt_bool 0.15 (score sc)) eqn:Hlt; [|done].
    intros [= <-]. exists fa, fb, sc. split_and!; try done.
    by apply Qlt_bool_iff.
  - intros (fa & fb & sc & -> & -> & Hsc & Hlt & ->). simpl.
    rewrite Hsc. simpl. apply Qlt_bool_iff in Hlt. by rewrite Hlt.
Qed.

Lemma emitted_pair (ab : pystr * pystr) (r : overlap) :
  emitted str_lower skills ab = Some r → pair r = ab.
Proof.
  intros (fa & fb & sc & _ & _ & _ & _ & ->)%emitted_Some. by destruct ab.
Qed.

Lemma foldlM_overlap_step (l : list (pystr * pystr)) (acc : list overlap) :
  (∀ ab, ab ∈ l → is_Some (skills !! ab.1) ∧ is_Some (skills !! ab.2)) →
  foldlM (overlap_step str_lower skills) acc l
  = Some (acc ++ omap (emitted str_lower skills) l).
Proof.
  revert acc. induction l as [|[a b] l IH]; intros acc Hdom; simpl.
  { by rewrite app_nil_r. }
  destruct (Hdom (a, b)) as [[fa Hfa] [fb Hfb]]; [left|]. simpl in *.
  unfold emitted. simpl. rewrite Hfa, Hfb. simpl.
  destruct (pair_scores_returns fa fb) as [sc ->]. simpl.
  destruct (Qlt_bool 0.15 (score sc)); simpl.
  - rewrite IH by (intros; apply Hdom; by right).
    by rewrite <- app_assoc.
  - apply IH. intros; apply Hdom; by right.
Qed.

(** The names in the order the loop takes them. *)
Lemma names_sorted :
  StronglySorted str_lt (sorted str_leb (elements (dom skills))).
Proof. apply sorted_set_lt. Qed.

Lemma compute_overlap_eq :
  compute_overlap str_lower skills
  = Some (sorted composite_geb
            (omap (emitted str_lower skills)
               (combinations2 (sorted str_leb (elements (dom skills)))))).
Proof.
  unfold compute_overlap. rewrite foldlM_overlap_step; [done|].
  intros [a b] [Ha Hb]%elem_of_combinations2.
  rewrite elem_of_sorted_set in Ha, Hb.
  by rewrite <- !elem_of_dom.
Qed.

Lemma elem_of_compute_overlap (rs : list overlap) (r : overlap) :
  compute_overlap str_lower skills = Some rs →
  r ∈ rs ↔
  ∃ a b fa fb sc, str_lt a b
    ∧ skills !! a = Some fa ∧ skills !! b = Some fb
    ∧ pair_scores str_lower fa fb = Some sc
    ∧ (0.15 < score sc)%Q ∧ r = overlap_of a b sc.
Proof.
  rewrite compute_overlap_eq. intros [= <-].
  rewrite elem_of_sorted, list_elem_of_omap. split.
  - intros ([a b] & Hin & Hr).
    apply emitted_Some in Hr as (fa & fb & sc & ? & ? & ? & ? & ?).
    exists a, b, fa, fb, sc. split; [|done].
    eapply combinations2_sorted; [apply names_sorted|done].
  - intros (a & b & fa & fb & sc & Hlt & Hfa & Hfb & Hsc & Hgt & ->).
    exists (a, b). split; [|apply emitted_Some; by exists fa, fb, sc].
    destruct (combinations2_complete
                (sorted str_leb (elements (dom skills))) a b) as [?|Hba];
      try done.
    + rewrite elem_of_sorted_set, elem_of_dom. by eexists.
    + rewrite elem_of_sorted_set, elem_of_dom. by eexists.
    + intros ->. by apply str_lt_irrefl in Hlt.
    + apply (combinations2_sorted _ _ _ _ names_sorted) in Hba.
      destruct (str_lt_irrefl a). by eapply str_lt_trans.
Qed.
End Overlap.

Lemma str_lt_total (a b : pystr) : a ≠ b → str_lt a b ∨ str_lt b a.
Proof.
  intros Hne. unfold str_lt. rewrite (str_compare_antisym a b).
  destruct (str_compare a b) eqn:Hc; simpl; auto.
  by apply str_compare_eq in Hc.
Qed.

Lemma composite_geb_total (x y : overlap) :
  composite_geb x y = true ∨ composite_geb y x = true.
Proof.
  unfold composite_geb. rewrite !Qle_bool_iff.
  destruct (Qlt_le_dec (composite x) (composite y)); [right|by left].
  by apply Qlt_le_weak.
Qed.

Lemma composite_geb_trans (x y z : overlap) :
  composite_geb x y = true → composite_geb y z = true →
  composite_geb x z = true.
Proof.
  unfold composite_geb. rewrite !Qle_bool_iff. intros ??.
  by eapply Qle_trans.
Qed.

Lemma omap_sorted {A B} (R : relation A) (R' : relation B)
    (f : A → option B) (l : list A) :
  (∀ x y x' y', R x y → f x = Some x' → f y = Some y' → R' x' y') →
  StronglySorted R l → StronglySorted R' (omap f l).
Proof.
  intros Hf. induction l as [|x l IH]; simpl; [constructor|].
  intros [Hs Hx]%StronglySorted_inv.
  destruct (f x) as [x'|] eqn:Hfx; [|by apply IH].
  constructor; [by apply IH|].
  rewrite Forall_forall in Hx. apply Forall_forall.
  intros y' (y & Hy & Hfy)%list_elem_of_omap.
  eapply Hf; [by apply Hx| |]; done.
Qed.

(** *** The threshold in binary64 arithmetic *)

Lemma jaccard64_returns `{Countable K} (a b : gset K) :
  is_Some (B64.jaccard a b).
Proof.
  unfold B64.jaccard.
  destruct (size a =? 0) eqn:Ha; [destruct (size b =? 0) eqn:Hb|]; simpl.
  - by eexists.
  - assert (size (a ∪ b) ≠ 0) as Hne.
    { rewrite size_0_iff. intros He.
      apply not_true_iff_false in Hb. apply Hb, size_empty_iff_0.
      by apply empty_union_L in He as [_ ?]. }
    unfold B64.truediv. destruct (size (a ∪ b)); [done|by eexists].
  - assert (size (a ∪ b) ≠ 0) as Hne.
    { rewrite size_0_iff. intros He.
      apply not_true_iff_false in Ha. apply Ha, size_empty_iff_0.
      by apply empty_union_L in He as [? _]. }
    unfold B64.truediv. destruct (size (a ∪ b)); [done|by eexists].
Qed.

Lemma jaccard64_comm `{Countable K} (a b : gset K) :
  B64.jaccard a b = B64.jaccard b a.
Proof.
  unfold B64.jaccard.
  by rewrite (comm_L (∩) a b), (comm_L (∪) a b), (andb_comm (size a =? 0)).
Qed.

Lemma ltb64_not_leb (x y : B64.f64) :
  B64.ltb y x = true → B64.leb x y = false.
Proof.
  unfold B64.ltb, B64.leb, SpecFloat.SFltb, SpecFloat.SFleb.
  destruct x as [sx|sx| |sx mx ex], y as [sy|sy| |sy my ey]; simpl;
    try done; try (by destruct sx); try (by destruct sy);
    try (by destruct sx, sy).
  pose proof (Pos.compare_cont_antisym my mx Eq) as Ha. simpl in Ha.
  destruct sx, sy; try done; rewrite (Z.compare_antisym ey ex);
    destruct (ey ?= ex)%Z; simpl; try done; rewrite <- Ha;
    by destruct (Pos.compare_cont Eq my mx).
Qed.

Section Overlap64.
Variable str_lower : pystr → pystr.
Variable skills : gmap pystr frontmatter.

Lemma pair_scores64_returns (fa fb : frontmatter) :
  is_Some (B64.pair_scores str_lower fa fb).
Proof.
  unfold B64.pair_scores.
  destruct (jaccard64_returns
    (extract_keywords str_lower (default [] (fa !! s "description")))
    (extract_keywords str_lower (default [] (fb !! s "description"))))
    as [kw ->].
  destruct (jaccard64_returns (extract_tools fa) (extract_tools fb))
    as [tl ->].
  by eexists.
Qed.

Lemma pair_scores64_sym (fa fb : frontmatter) (sc : B64.scores) :
  B64.pair_scores str_lower fa fb = Some sc →
  ∃ sc', B64.pair_scores str_lower fb fa = Some sc'
         ∧ B64.score sc' = B64.score sc.
Proof.
  unfold B64.pair_scores.
  set (ka := extract_keywords _ (default [] (fa !! _))).
  set (kb := extract_keywords _ (default [] (fb !! _))).
  set (ta := trigger_set _ (default [] (fa !! _))).
  set (tb := trigger_set _ (default [] (fb !! _))).
  rewrite (jaccard64_comm kb ka), (comm_L (∩) tb ta).
  rewrite (jaccard64_comm (extract_tools fb) (extract_tools fa)).
  destruct (B64.jaccard ka kb) as [kw|]; [|done]. simpl.
  destruct (B64.jaccard (extract_tools fa) (extract_tools fb)) as [tl|];
    [|done].
  simpl. intros [= <-]. by eexists.
Qed.

Lemma emitted64_Some (ab : pystr * pystr) (r : B64.overlap) :
  B64.emitted str_lower skills ab = Some r ↔
  ∃ fa fb sc, skills !! ab.1 = Some fa ∧ skills !! ab.2 = Some fb
              ∧ B64.pair_scores str_lower fa fb = Some sc
              ∧ B64.ltb (B64.of_ratio 15 100) (B64.score sc) = true
              ∧ r = B64.overlap_of ab.1 ab.2 sc.
Proof.
  unfold B64.emitted. split.
  - destruct (skills !! ab.1) as [fa|]; [|done].
    destruct (skills !! ab.2) as [fb|]; [|done]. cbn [mbind option_bind fst snd foldlM].
    destruct (B64.pair_scores str_lower fa fb) as [sc|] eqn:Hsc; [|done].
    cbn [mbind option_bind fst snd foldlM].
    destruct (B64.ltb (B64.of_ratio 15 100) (B64.score sc)) eqn:Hlt; [|done].
    intros [= <-]. by exists fa, fb, sc.
  - intros (fa & fb & sc & -> & -> & Hsc & Hlt & ->). cbn [mbind option_bind fst snd foldlM].
    rewrite Hsc. cbn [mbind option_bind fst snd foldlM]. by rewrite Hlt.
Qed.

Lemma foldlM_overlap_step64 (l : list (pystr * pystr))
    (acc : list B64.overlap) :
  (∀ ab, ab ∈ l → is_Some (skills !! ab.1) ∧ is_Some (skills !! ab.2)) →
  foldlM (B64.overlap_step str_lower skills) acc l
  = Some (acc ++ omap (B64.emitted str_lower skills) l).
Proof.
  revert acc. induction l as [|[a b] l IH]; intros acc Hdom.
  { cbn [foldlM omap list_omap]. by rewrite app_nil_r. }
  destruct (Hdom (a, b)) as [[fa Hfa] [fb Hfb]]; [left|]. cbn [fst snd] in *.
  cbn [foldlM omap list_omap]. unfold B64.overlap_step, B64.emitted.
  cbn [fst snd]. rewrite Hfa, Hfb. cbn [mbind option_bind].
  destruct (pair_scores64_returns fa fb) as [sc ->]. cbn [mbind option_bind].
  destruct (B64.ltb (B64.of_ratio 15 100) (B64.score sc));
    cbn [mbind option_bind].
  - rewrite IH by (intros; apply Hdom; by right).
    by rewrite <- app_assoc.
  - apply IH. intros; apply Hdom; by right.
Qed.

Lemma compute_overlap64_eq :
  B64.compute_overlap str_lower skills
  = Some (sorted B64.composite_geb
            (omap (B64.emitted str_lower skills)
               (combinations2 (sorted str_leb (elements (dom skills)))))).
Proof.
  unfold B64.compute_overlap. rewrite foldlM_overlap_step64; [done|].
  intros [a b] [Ha Hb]%elem_of_combinations2.
  rewrite elem_of_sorted_set in Ha, Hb.
  by rewrite <- !elem_of_dom.
Qed.

Lemma elem_of_compute_overlap64 (rs : list B64.overlap) (r : B64.overlap) :
  B64.compute_overlap str_lower skills = Some rs →
  r ∈ rs ↔
  ∃ a b fa fb sc, str_lt a b
    ∧ skills !! a = Some fa ∧ skills !! b = Some fb
    ∧ B64.pair_scores str_lower fa fb = Some sc
    ∧ B64.ltb (B64.of_ratio 15 100) (B64.score sc) = true
    ∧ r = B64.overlap_of a b sc.
Proof.
  rewrite compute_overlap64_eq. intros [= <-].
  rewrite elem_of_sorted, list_elem_of_omap. split.
  - intros ([a b] & Hin & Hr).
    apply emitted64_Some in Hr as (fa & fb & sc & ? & ? & ? & ? & ?).
    exists a, b, fa, fb, sc. split; [|done].
    eapply combinations2_sorted; [apply names_sorted|done].
  - intros (a & b & fa & fb & sc & Hlt & Hfa & Hfb & Hsc & Hgt & ->).
    exists (a, b). split; [|apply emitted64_Some; by exists fa, fb, sc].
    destruct (combinations2_complete
                (sorted str_leb (elements (dom skills))) a b) as [?|Hba];
      try done.
    + rewrite elem_of_sorted_set, elem_of_dom. by eexists.
    + rewrite elem_of_sorted_set, elem_of_dom. by eexists.
    + intros ->. by apply str_lt_irrefl in Hlt.
    + apply (combinations2_sorted _ _ _ _ (names_sorted skills)) in Hba.
      destruct (str_lt_irrefl a). by eapply str_lt_trans.
Qed.
End Overlap64.

(** C1.  For two distinct skills of the corpus, the overlap list has a
    record for the pair, whichever way round, if and only if the composite
    the program computes for the pair is greater than 0.15; with a
    composite of 0.15 or less there is none.  The composite is the float
    of the program: the sum, rounded at each operation, of the keyword
    similarity times 0.5, the tool similarity times 0.2, and 0.3 or 0; and
    0.15 is the double of that literal.  The list and the score are
    computed for every corpus. *)
Theorem overlap_iff_computed_above_threshold (str_lower : pystr → pystr)
    (skills : gmap pystr frontmatter) (a b : pystr) (fa fb : frontmatter) :
  skills !! a = Some fa → skills !! b = Some fb → a ≠ b →
  ∃ rs sc,
    B64.compute_overlap str_lower skills = Some rs
    ∧ B64.pair_scores str_lower fa fb = Some sc
    ∧ B64.score sc
      = B64.add
          (B64.add (B64.mul (B64.kw_sim sc) (B64.of_ratio 5 10))
                   (B64.mul (B64.tl_sim sc) (B64.of_ratio 2 10)))
          (if bool_decide (B64.trig_overlap sc ≠ ∅) then B64.of_ratio 3 10
           else B64.zero)
    ∧ ((∃ r, r ∈ rs ∧ (B64.pair r = (a, b) ∨ B64.pair r = (b, a)))
       ↔ B64.ltb (B64.of_ratio 15 100) (B64.score sc) = true)
    ∧ (B64.leb (B64.score sc) (B64.of_ratio 15 100) = true →
       ∀ r, r ∈ rs → B64.pair r ≠ (a, b) ∧ B64.pair r ≠ (b, a)).
Proof.
  intros Hfa Hfb Hne.
  destruct (pair_scores64_returns str_lower fa fb) as [sc Hsc].
  eexists _, sc. split; [apply compute_overlap64_eq|]. split; [done|].
  split.
  { revert Hsc. unfold B64.pair_scores.
    destruct (B64.jaccard (extract_keywords _ _) _) as [kw|];
      cbn [mbind option_bind]; [|done].
    destruct (B64.jaccard (extract_tools fa) _) as [tl|];
      cbn [mbind option_bind]; [|done].
    by intros [= <-]. }
  assert (∀ r, r ∈ sorted B64.composite_geb
                     (omap (B64.emitted str_lower skills)
                        (combinations2
                           (sorted str_leb (elements (dom skills))))) →
               B64.pair r = (a, b) ∨ B64.pair r = (b, a) →
               B64.ltb (B64.of_ratio 15 100) (B64.score sc) = true)
    as Himp.
  { intros r Hr Hp.
    apply (elem_of_compute_overlap64 str_lower skills _ r
             (compute_overlap64_eq str_lower skills)) in Hr
      as (a0 & b0 & fa0 & fb0 & sc0 & _ & Hfa0 & Hfb0 & Hsc0 & Hgt & ->).
    simpl in Hp. destruct Hp as [[= -> ->]|[= -> ->]].
    - by simplify_eq.
    - simplify_eq.
      destruct (pair_scores64_sym _ _ _ _ Hsc0) as (sc' & Hsc' & Heq).
      simplify_eq. by rewrite Heq. }
  split; [split|].
  - intros (r & Hr & Hp). by eapply Himp.
  - intros Hgt. destruct (str_lt_total a b Hne) as [Hlt|Hlt].
    + exists (B64.overlap_of a b sc). split; [|by left].
      apply (elem_of_compute_overlap64 str_lower skills _ _
               (compute_overlap64_eq str_lower skills)).
      by exists a, b, fa, fb, sc.
    + destruct (pair_scores64_sym _ _ _ _ Hsc) as (sc' & Hsc' & Heq).
      exists (B64.overlap_of b a sc'). split; [|by right].
      apply (elem_of_compute_overlap64 str_lower skills _ _
               (compute_overlap64_eq str_lower skills)).
      exists b, a, fb, fa, sc'. rewrite Heq. done.
  - intros Hle r Hr.
    split; intros Hp;
      rewrite (ltb64_not_leb _ _ (Himp r Hr ltac:(auto))) in Hle; done.
Qed.

Lemma overlap_iff_computed_above_threshold_witness :
  corpus_deploy !! s "a" = Some deploy_a
  ∧ corpus_deploy !! s "b" = Some deploy_b
  ∧ s "a" ≠ s "b"
  ∧ ∃ rs sc,
      B64.compute_overlap ascii_lower corpus_deploy = Some rs
      ∧ B64.pair_scores ascii_lower deploy_a deploy_b = Some sc
      ∧ B64.score sc
        = B64.add
            (B64.add (B64.mul (B64.kw_sim sc) (B64.of_ratio 5 10))
                     (B64.mul (B64.tl_sim sc) (B64.of_ratio 2 10)))
            (if bool_decide (B64.trig_overlap sc ≠ ∅) then B64.of_ratio 3 10
             else B64.zero)
      ∧ ((∃ r, r ∈ rs
               ∧ (B64.pair r = (s "a", s "b") ∨ B64.pair r = (s "b", s "a")))
         ↔ B64.ltb (B64.of_ratio 15 100) (B64.score sc) = true)
      ∧ (B64.leb (B64.score sc) (B64.of_ratio 15 100) = true →
         ∀ r, r ∈ rs →
              B64.pair r ≠ (s "a", s "b") ∧ B64.pair r ≠ (s "b", s "a")).
Proof.
  split; [reflexivity|]. split; [reflexivity|]. split; [discriminate|].
  apply (overlap_iff_computed_above_threshold ascii_lower corpus_deploy
           (s "a") (s "b") deploy_a deploy_b);
    [reflexivity|reflexivity|discriminate].
Defined.

(** The composite of the program is not the number of the formula.  For
    two skills that have no description and share three of their four
    tools the formula gives 0.15, not more; the program computes
    [0.75 * 0.2] as 0.15000000000000002, which is above the double 0.15,
    and emits the pair, with the composite 0.15 in the record. *)
Lemma overlap_at_exact_threshold :
  ∃ fa fb sc sc64 rs r,
    corpus_boundary !! s "a" = Some fa
    ∧ corpus_boundary !! s "b" = Some fb
    ∧ pair_scores ascii_lower fa fb = Some sc
    ∧ (score sc == 0.15)%Q
    ∧ B64.pair_scores ascii_lower fa fb = Some sc64
    ∧ B64.score sc64 = SpecFloat.S754_finite false 5404319552844596 (-55)
    ∧ B64.of_ratio 15 100
      = SpecFloat.S754_finite false 5404319552844595 (-55)
    ∧ (B64.exact (B64.of_ratio 15 100) < 0.15 < B64.exact (B64.score sc64))%Q
    ∧ B64.compute_overlap ascii_lower corpus_boundary = Some rs
    ∧ r ∈ rs
    ∧ B64.pair r = (s "a", s "b")
    ∧ B64.composite r = B64.of_ratio 15 100.
Proof.
  eexists _, _, _, _, _, _.
  split; [reflexivity|]. split; [reflexivity|].
  split; [by vm_compute|]. split; [by vm_compute|].
  split; [by vm_compute|]. split; [by vm_compute|].
  split; [by vm_compute|]. split; [by vm_compute|].
  split; [by vm_compute|].
  split; [apply list_elem_of_here|]. split; by vm_compute.
Qed.

(** C5.  The overlap list is computed for every corpus.  In each of its
    records the first name of the pair is before the second in the order of
    strings; and the list is in descending order of the composite field,
    two records with the same composite being in the order of their
    pairs. *)
Theorem overlaps_ordered (str_lower : pystr → pystr)
    (skills : gmap pystr frontmatter) :
  ∃ rs, compute_overlap str_lower skills = Some rs
        ∧ (∀ r, r ∈ rs → str_lt (pair r).1 (pair r).2)
        ∧ StronglySorted overlap_before rs.
Proof.
  eexists. split; [apply compute_overlap_eq|]. split.
  - intros r Hr.
    apply (elem_of_compute_overlap str_lower skills _ r
             (compute_overlap_eq str_lower skills)) in Hr
      as (a & b & fa & fb & sc & Hlt & _ & _ & _ & _ & ->).
    done.
  - eapply StronglySorted_impl;
      [|apply (sorted_stable composite_geb composite_geb_total
                 composite_geb_trans
                 (λ r1 r2, pair_lt (pair r1) (pair r2)))].
    + intros x y _ _ [Hle Htie]. unfold composite_geb in *.
      rewrite Qle_bool_iff in Hle, Htie. unfold overlap_before.
      destruct (Qlt_le_dec (composite y) (composite x)) as [?|Hle'];
        [by left|right].
      split; [by apply Qle_antisym|by apply Htie].
    + eapply omap_sorted;
        [|apply combinations2_pair_lt, (names_sorted skills)].
      intros ab cd r1 r2 Hlt <-%emitted_pair <-%emitted_pair. exact Hlt.
Qed.

Lemma pair_scores_trig_overlap (str_lower : pystr → pystr)
    (fa fb : frontmatter) (sc : scores) :
  pair_scores str_lower fa fb = Some sc →
  trig_overlap sc
  = trigger_set str_lower (default [] (fa !! s "description"))
    ∩ trigger_set str_lower (default [] (fb !! s "description")).
Proof.
  unfold pair_scores.
  destruct (jaccard (extract_keywords _ _) _); simpl; [|done].
  destruct (jaccard (extract_tools _) _); simpl; [|done].
  by intros [= <-].
Qed.

Lemma pair_scores_bonus (str_lower : pystr → pystr)
    (fa fb : frontmatter) (sc : scores) :
  pair_scores str_lower fa fb = Some sc →
  trig_overlap sc ≠ ∅ → (0.3 <= score sc)%Q.
Proof.
  unfold pair_scores.
  destruct (jaccard (extract_keywords _ _) _) as [kw|] eqn:Hkw; simpl; [|done].
  destruct (jaccard (extract_tools _) _) as [tl|] eqn:Htl; simpl; [|done].
  intros [= <-]. simpl. intros Hne.
  rewrite bool_decide_eq_true_2 by done.
  apply jaccard_unit in Hkw, Htl. lra.
Qed.

(** C8.  In every record of the overlap list, [trigger_overlap] lists,
    once each and in ascending order, the phrases that are the lower-cased
    form of a quoted phrase of the first description and of a quoted phrase
    of the second: the quoted phrases the two skills share when letter case
    is ignored.  And two skills that share such a phrase have a record in
    the list. *)
Theorem trigger_overlap_shared (str_lower : pystr → pystr)
    (skills : gmap pystr frontmatter) :
  ∃ rs, compute_overlap str_lower skills = Some rs
    ∧ (∀ r, r ∈ rs →
       ∃ fa fb,
         skills !! (pair r).1 = Some fa ∧ skills !! (pair r).2 = Some fb
         ∧ StronglySorted str_lt (trigger_overlap r)
         ∧ ∀ p, p ∈ trigger_overlap r ↔
             (∃ ta, ta ∈ extract_triggers (default [] (fa !! s "description"))
                    ∧ str_lower ta = p)
             ∧ (∃ tb, tb ∈ extract_triggers (default [] (fb !! s "description"))
                      ∧ str_lower tb = p))
    ∧ (∀ a b fa fb ta tb,
         skills !! a = Some fa → skills !! b = Some fb → str_lt a b →
         ta ∈ extract_triggers (default [] (fa !! s "description")) →
         tb ∈ extract_triggers (default [] (fb !! s "description")) →
         str_lower ta = str_lower tb →
         ∃ r, r ∈ rs ∧ pair r = (a, b) ∧ str_lower ta ∈ trigger_overlap r).
Proof.
  eexists. split; [apply compute_overlap_eq|]. split.
  - intros r Hr.
    apply (elem_of_compute_overlap str_lower skills _ r
             (compute_overlap_eq str_lower skills)) in Hr
      as (a & b & fa & fb & sc & _ & Hfa & Hfb & Hsc & _ & ->).
    exists fa, fb. split; [done|]. split; [done|]. simpl.
    split; [apply sorted_set_lt|]. intros p.
    rewrite elem_of_sorted_set.
    rewrite (pair_scores_trig_overlap _ _ _ _ Hsc). unfold trigger_set.
    rewrite elem_of_intersection, !elem_of_list_to_set, !list_elem_of_fmap.
    split; intros [(ta & ? & ?) (tb & ? & ?)];
      (split; [by exists ta|by exists tb]).
  - intros a b fa fb ta tb Hfa Hfb Hlt Hta Htb Heq.
    destruct (pair_scores_returns str_lower fa fb) as [sc Hsc].
    assert (str_lower ta ∈ trig_overlap sc) as Hin.
    { rewrite (pair_scores_trig_overlap _ _ _ _ Hsc). unfold trigger_set.
      rewrite elem_of_intersection, !elem_of_list_to_set, !list_elem_of_fmap.
      split; [by exists ta|by exists tb]. }
    exists (overlap_of a b sc). split; [|split; [done|]].
    + apply (elem_of_compute_overlap str_lower skills _ _
               (compute_overlap_eq str_lower skills)).
      exists a, b, fa, fb, sc. split_and!; try done.
      eapply Qlt_le_trans; [|apply (pair_scores_bonus _ _ _ _ Hsc)].
      * reflexivity.
      * intros He. rewrite He in Hin. by apply not_elem_of_empty in Hin.
    + simpl. by rewrite elem_of_sorted_set.
Qed.

(** The example of the specification: the two skills share the quoted phrase
    and one tool of three, and their record is in the list. *)
Example deploy_overlap :
  ∃ r, compute_overlap ascii_lower corpus_deploy = Some [r]
       ∧ pair r = (s "a", s "b")
       ∧ trigger_overlap r = [s "deploy app"]
       ∧ jaccard (extract_tools deploy_a) (extract_tools deploy_b)
         = Some (1 # 3)%Q
       ∧ (tool_sim r == 0.333)%Q
       ∧ (keyword_sim r == 0.5)%Q
       ∧ (composite r == 0.617)%Q.
Proof.
  eexists. split; [vm_compute; reflexivity|]. simpl.
  repeat split; reflexivity.
Qed.

Lemma pair_scores_ascii (str_lower : pystr → pystr)
    (skills : gmap pystr frontmatter) (a b : pystr) (fa fb : frontmatter) :
  lowers_ascii str_lower skills →
  skills !! a = Some fa → skills !! b = Some fb →
  pair_scores str_lower fa fb = pair_scores ascii_lower fa fb.
Proof.
  intros Hlow Ha Hb. destruct (Hlow _ _ Ha) as [Hda Hta].
  destruct (Hlow _ _ Hb) as [Hdb Htb].
  unfold pair_scores, extract_keywords, trigger_set.
  rewrite Hda, Hdb.
  assert (∀ l : list pystr, (∀ t, t ∈ l → str_lower t = ascii_lower t) →
            str_lower <$> l = ascii_lower <$> l) as Hmap.
  { intros l Hl. apply list_fmap_ext. intros ? t ?%list_elem_of_lookup_2.
    by apply Hl. }
  by rewrite (Hmap _ Hta), (Hmap _ Htb).
Qed.

Lemma compute_overlap_ascii (str_lower : pystr → pystr)
    (skills : gmap pystr frontmatter) :
  lowers_ascii str_lower skills →
  compute_overlap str_lower skills = compute_overlap ascii_lower skills.
Proof.
  intros Hlow. rewrite !compute_overlap_eq. do 2 f_equal.
  generalize (combinations2 (sorted str_leb (elements (dom skills)))).
  assert (∀ ab, emitted str_lower skills ab = emitted ascii_lower skills ab)
    as Hext.
  { intros [a b]. unfold emitted. simpl.
    destruct (skills !! a) as [fa|] eqn:Ha; [|done].
    destruct (skills !! b) as [fb|] eqn:Hb; [|done]. simpl.
    by rewrite (pair_scores_ascii _ _ _ _ _ _ Hlow Ha Hb). }
  intros l. apply list_omap_ext, Forall2_same_length_lookup.
  split; [done|]. intros i ab ab' Hab Hab'. simplify_eq. apply Hext.
Qed.

Lemma lowers_ascii_refl (skills : gmap pystr frontmatter) :
  lowers_ascii ascii_lower skills.
Proof. by intros name fm _. Qed.



(** ** The disjoint-set forest *)

Lemma path_det (parent : gmap pystr pystr) (x r r' : pystr) (n n' : nat) :
  path parent x r n → path parent x r' n' → r = r' ∧ n = n'.
Proof.
  intros H. revert r' n'. induction H as [x Hx|x p r n Hp Hne _ IH];
    intros r' n' H'; inversion H' as [? Hx'|? p' ? m Hp' Hne' Hpath]; subst.
  - done.
  - rewrite Hp' in Hx. done.
  - rewrite Hp in Hx'. done.
  - rewrite Hp in Hp'. injection Hp' as <-.
    destruct (IH _ _ Hpath) as [-> ->]. done.
Qed.

Lemma path_end_root (parent : gmap pystr pystr) (x r : pystr) (n : nat) :
  path parent x r n → default r (parent !! r) = r.
Proof. induction 1; done. Qed.

Lemma root_of_det (parent : gmap pystr pystr) (x r r' : pystr) :
  root_of parent x r → root_of parent x r' → r = r'.
Proof. intros [n H] [n' H']. by destruct (path_det _ _ _ _ _ _ H H'). Qed.

Lemma compresses_refl (parent : gmap pystr pystr) : compresses parent parent.
Proof. intros x r n H. by exists n. Qed.

Lemma compresses_trans (p1 p2 p3 : gmap pystr pystr) :
  compresses p1 p2 → compresses p2 p3 → compresses p1 p3.
Proof.
  intros H12 H23 x r n H.
  destruct (H12 _ _ _ H) as (n' & Hn' & H').
  destruct (H23 _ _ _ H') as (n'' & Hn'' & H'').
  exists n''. split; [lia|done].
Qed.

(** One turn of the loop of [find]: [x] is linked to the parent of its
    parent. *)
Lemma halve_compresses (parent : gmap pystr pystr) (x px r : pystr) (n : nat) :
  parent !! x = Some px → px ≠ x → path parent x r n →
  compresses parent (<[x := default px (parent !! px)]> parent).
Proof.
  intros Hx Hne Hpath. set (g := default px (parent !! px)).
  intros z rz m. revert z rz.
  induction (lt_wf m) as [m _ IH]. intros z rz Hz.
  destruct (decide (z = x)) as [->|Hzx].
  - inversion Hz as [? Hroot|? p' ? m1 Hp' Hne' Hp1]; subst.
    { rewrite Hx in Hroot. done. }
    rewrite Hx in Hp'. injection Hp' as <-.
    inversion Hp1 as [? Hroot|? p2 ? m2 Hp2 Hne2 Hpath2]; subst.
    + exists 1. split; [lia|].
      assert (g = rz) as Hg.
      { unfold g. destruct (parent !! rz); simpl in *; done. }
      eapply path_step; [by rewrite lookup_insert_eq, Hg|done|].
      apply path_root. by rewrite lookup_insert_ne.
    + assert (g = p2) as Hg by (unfold g; by rewrite Hp2).
      destruct (IH m2 ltac:(lia) _ _ Hpath2) as (m' & Hm' & H').
      exists (S m'). split; [lia|].
      eapply path_step; [by rewrite lookup_insert_eq, Hg| |done].
      intros ->.
      destruct (path_det _ _ _ _ _ _ Hz Hpath2) as [_ ?]. lia.
  - inversion Hz as [? Hroot|? p' ? m1 Hp' Hne' Hp1]; subst.
    + exists 0. split; [lia|]. apply path_root. by rewrite lookup_insert_ne.
    + destruct (IH m1 ltac:(lia) _ _ Hp1) as (m' & Hm' & H').
      exists (S m'). split; [lia|].
      eapply path_step; [by rewrite lookup_insert_ne|done|done].
Qed.

(** [find] returns the root, given fuel for the chain. *)
Lemma find_returns (fuel : nat) (parent : gmap pystr pystr) (x r : pystr)
    (n : nat) :
  path parent x r n → n < fuel →
  ∃ parent', find fuel parent x = Some (parent', r)
             ∧ compresses parent parent'.
Proof.
  revert parent x n. induction fuel as [|fuel IH]; intros parent x n Hp Hn;
    [lia|].
  simpl. inversion Hp as [? Hroot|? px ? n1 Hx Hne Hp1]; subst.
  - rewrite bool_decide_eq_false_2 by (by intros []).
    exists parent. split; [done|apply compresses_refl].
  - rewrite Hx. simpl. rewrite bool_decide_eq_true_2 by done.
    rewrite lookup_insert_eq. simpl.
    pose proof (halve_compresses _ _ _ _ _ Hx Hne Hp) as Hc.
    set (g := default px (parent !! px)) in *.
    assert (∃ n2, n2 ≤ n1 ∧ path parent g r n2) as (n2 & Hn2 & Hg).
    { inversion Hp1 as [? Hroot|? p2 ? m2 Hp2 Hne2 Hpath2]; subst.
      - exists 0. split; [lia|].
        assert (g = r) as -> by (unfold g; by destruct (parent !! r)).
        done.
      - exists m2. split; [lia|]. unfold g. by rewrite Hp2. }
    destruct (Hc _ _ _ Hg) as (n3 & Hn3 & Hg3).
    destruct (IH _ _ n3 Hg3 ltac:(lia)) as (parent' & Hfind & Hc').
    exists parent'. split; [done|]. by eapply compresses_trans.
Qed.

Lemma uf_inv_empty (E : relation pystr) :
  (∀ x y, ¬ E x y) → uf_inv E 0 ∅.
Proof.
  intros HE. split; [|split].
  - intros x. exists x, 0. split; [done|]. by apply path_root.
  - intros x r [n H]. inversion H; subst; [done|]. by rewrite lookup_empty in *.
  - intros x y Hxy. by destruct (HE x y).
Qed.

Lemma uf_inv_compresses (E : relation pystr) (k : nat)
    (parent parent' : gmap pystr pystr) :
  uf_inv E k parent → compresses parent parent' → uf_inv E k parent'.
Proof.
  intros (Hterm & Hsound & Hcompl) Hc. split; [|split].
  - intros x. destruct (Hterm x) as (r & n & Hn & Hp).
    destruct (Hc _ _ _ Hp) as (n' & Hn' & Hp').
    exists r, n'. split; [lia|done].
  - intros x r Hr. destruct (Hterm x) as (r0 & n & Hn & Hp).
    destruct (Hc _ _ _ Hp) as (n' & Hn' & Hp').
    rewrite (root_of_det _ _ _ _ Hr (ex_intro _ _ Hp')).
    apply Hsound. by exists n.
  - intros x y Hxy. destruct (Hcompl x y Hxy) as (r & [n Hx] & [m Hy]).
    destruct (Hc _ _ _ Hx) as (n' & _ & Hx').
    destruct (Hc _ _ _ Hy) as (m' & _ & Hy').
    exists r. split; eexists; done.
Qed.

Lemma uf_inv_weaken (E E' : relation pystr) (k k' : nat)
    (parent : gmap pystr pystr) :
  (∀ x y, E x y ↔ E' x y) → k ≤ k' → uf_inv E k parent → uf_inv E' k' parent.
Proof.
  intros HE Hk (Hterm & Hsound & Hcompl). split; [|split].
  - intros x. destruct (Hterm x) as (r & n & Hn & Hp).
    exists r, n. split; [lia|done].
  - intros x r Hr. eapply rtc_subrel; [|by apply Hsound].
    intros ?? [?|?]; [left|right]; by apply HE.
  - intros x y Hxy. apply Hcompl. by apply HE.
Qed.

(** Linking the root [px] to another root [py]. *)
Lemma link_path (parent : gmap pystr pystr) (px py x r : pystr) (n : nat) :
  default px (parent !! px) = px → default py (parent !! py) = py →
  px ≠ py → path parent x r n →
  path (<[px := py]> parent) x (if decide (r = px) then py else r)
       (if decide (r = px) then S n else n).
Proof.
  intros Hpx Hpy Hne. induction 1 as [x Hx|x p r n Hp Hnp Hpath IH].
  - destruct (decide (x = px)) as [->|Hxp].
    + eapply path_step; [apply lookup_insert_eq|done|].
      apply path_root. by rewrite lookup_insert_ne.
    + apply path_root. by rewrite lookup_insert_ne.
  - assert (x ≠ px) as Hxp.
    { intros ->. rewrite Hp in Hpx. done. }
    destruct (decide (r = px)); (eapply path_step; [|done|done]);
      by rewrite lookup_insert_ne.
Qed.

Lemma union_returns (E : relation pystr) (k fuel : nat)
    (parent : gmap pystr pystr) (x y : pystr) :
  uf_inv E k parent → k < fuel →
  ∃ parent', union fuel parent x y = Some parent'
    ∧ uf_inv (λ a b, E a b ∨ (a = x ∧ b = y)) (S k) parent'.
Proof.
  intros Hinv Hk. unfold union.
  destruct Hinv as (Hterm & Hsound & Hcompl).
  destruct (Hterm x) as (px & n & Hn & Hx).
  destruct (find_returns fuel _ _ _ _ Hx ltac:(lia)) as (p1 & -> & Hc1).
  simpl.
  pose proof (uf_inv_compresses _ _ _ _ (conj Hterm (conj Hsound Hcompl)) Hc1)
    as (Hterm1 & Hsound1 & Hcompl1).
  destruct (Hterm1 y) as (py & m & Hm & Hy).
  destruct (find_returns fuel _ _ _ _ Hy ltac:(lia)) as (p2 & -> & Hc2).
  simpl.
  pose proof (uf_inv_compresses _ _ _ _
                (conj Hterm1 (conj Hsound1 Hcompl1)) Hc2)
    as (Hterm2 & Hsound2 & Hcompl2).
  assert (root_of p2 x px) as Hrx.
  { destruct (Hterm1 x) as (r & n1 & _ & Hx1).
    destruct (Hc1 _ _ _ Hx) as (? & _ & Hx1').
    destruct (Hc2 _ _ _ Hx1') as (? & _ & Hx2). by eexists. }
  assert (root_of p2 y py) as Hry.
  { destruct (Hc2 _ _ _ Hy) as (? & _ & Hy2). by eexists. }
  assert (∀ a b, rtsc E a b → rtsc (λ a b, E a b ∨ a = x ∧ b = y) a b)
    as Hsub.
  { intros a b. apply rtc_subrel. intros ?? [?|?]; [left|right]; by left. }
  destruct (decide (px = py)) as [<-|Hne].
  - rewrite bool_decide_eq_false_2 by (by intros []).
    exists p2. split; [done|]. split; [|split].
    + intros z. destruct (Hterm2 z) as (r & l & Hl & Hz).
      exists r, l. split; [lia|done].
    + intros z r Hr. by apply Hsub, Hsound2.
    + intros a b [Hab|[-> ->]]; [by apply Hcompl2|]. by exists px.
  - rewrite bool_decide_eq_true_2 by done.
    exists (<[px := py]> p2). split; [done|].
    assert (default px (p2 !! px) = px) as Hpx.
    { destruct Hrx as [? Hrx]. by eapply path_end_root. }
    assert (default py (p2 !! py) = py) as Hpy.
    { destruct Hry as [? Hry]. by eapply path_end_root. }
    assert (∀ z r, root_of p2 z r →
              root_of (<[px := py]> p2) z (if decide (r = px) then py else r))
      as Hlink.
    { intros z r [l Hz]. eexists. by apply link_path. }
    split; [|split].
    + intros z. destruct (Hterm2 z) as (r & l & Hl & Hz).
      eexists _, _. split; [|by apply link_path].
      destruct (decide (r = px)); lia.
    + intros z r' Hr'. destruct (Hterm2 z) as (r & l & Hl & Hz).
      rewrite (root_of_det _ _ _ _ Hr' (Hlink _ _ (ex_intro _ _ Hz))).
      pose proof (Hsub _ _ (Hsound2 _ _ (ex_intro _ _ Hz))) as Hzr.
      destruct (decide (r = px)) as [->|]; [|done].
      etrans; [done|].
      etrans; [symmetry; by apply Hsub, Hsound2|].
      etrans; [|by apply Hsub, Hsound2].
      apply rtsc_lr. by right.
    + intros a b [Hab|[-> ->]].
      * destruct (Hcompl2 a b Hab) as (r & Ha & Hb).
        eexists. split; by apply Hlink.
      * exists py. split.
        -- pose proof (Hlink _ _ Hrx) as H. by rewrite decide_True in H.
        -- pose proof (Hlink _ _ Hry) as H. by rewrite decide_False in H.
Qed.

(** ** The loops of [find_clusters] *)

Lemma edge_snoc (done : list overlap) (o : overlap) (t : Q) (x y : pystr) :
  edge (done ++ [o]) t x y ↔
  edge done t x y ∨ ((t <= composite o)%Q ∧ pair o = (x, y)).
Proof.
  unfold edge. split.
  - intros (o' & [Hin| ->%list_elem_of_singleton]%elem_of_app & Ht & Hp).
    + left. by exists o'.
    + by right.
  - intros [(o' & Hin & Ht & Hp)|[Ht Hp]].
    + exists o'. rewrite elem_of_app. auto.
    + exists o. rewrite elem_of_app, list_elem_of_singleton. auto.
Qed.

Lemma union_loop_returns (fuel : nat) (t : Q) (l done : list overlap)
    (parent : gmap pystr pystr) :
  uf_inv (edge done t) (length done) parent →
  length done + length l < fuel →
  ∃ parent', foldlM (union_step fuel t) parent l = Some parent'
    ∧ uf_inv (edge (done ++ l) t) (length (done ++ l)) parent'.
Proof.
  revert done parent. induction l as [|o l IH]; intros done parent Hinv Hfuel.
  { exists parent. by rewrite app_nil_r. }
  simpl in *.
  assert (∃ parent1, union_step fuel t parent o = Some parent1
              ∧ uf_inv (edge (done ++ [o]) t) (length (done ++ [o])) parent1)
    as (parent1 & -> & Hinv1).
  { unfold union_step. rewrite length_app. simpl.
    destruct (Qle_bool t (composite o)) eqn:Ht.
    - apply Qle_bool_iff in Ht.
      destruct (union_returns _ _ fuel _ (pair o).1 (pair o).2 Hinv
                  ltac:(lia)) as (parent1 & Hu & Hinv1).
      exists parent1. split; [done|].
      eapply uf_inv_weaken; [|by rewrite Nat.add_1_r|done].
      intros x y. rewrite edge_snoc. destruct (pair o) as [a b]. simpl.
      split; (intros [?|[??]]; [by left|right]); by simplify_eq.
    - exists parent. split; [done|].
      eapply uf_inv_weaken; [|by apply Nat.le_add_r|done].
      intros x y. rewrite edge_snoc. split; [by left|].
      intros [?|[Hle _]]; [done|].
      apply Qle_bool_iff in Hle. congruence. }
  simpl. rewrite (cons_middle o done l), app_assoc.
  apply IH; [done|]. rewrite length_app. simpl. lia.
Qed.

Lemma elem_of_all_skills (overlaps : list overlap) (x : pystr) :
  x ∈ all_skills overlaps ↔
  ∃ o, o ∈ overlaps ∧ (x = (pair o).1 ∨ x = (pair o).2).
Proof.
  unfold all_skills.
  assert (∀ acc : gset pystr,
            x ∈ foldl (λ acc o, acc ∪ {[(pair o).1; (pair o).2]}) acc overlaps
            ↔ x ∈ acc ∨ ∃ o, o ∈ overlaps ∧ (x = (pair o).1 ∨ x = (pair o).2))
    as H.
  { induction overlaps as [|o l IH]; intros acc; simpl.
    - split; [by left|]. intros [?|(? & ?%elem_of_nil & _)]; done.
    - rewrite IH, !elem_of_union, !elem_of_singleton. split.
      + intros [[?|[?|?]]|(o' & ? & ?)].
        * by left.
        * right. exists o. split; [left|by left].
        * right. exists o. split; [left|by right].
        * right. exists o'. split; [by right|done].
      + intros [?|(o' & [->|?]%elem_of_cons & Ho)].
        * left. by left.
        * left. right. done.
        * right. by exists o'. }
  rewrite H. split; [|by right]. by intros [?%not_elem_of_empty|?].
Qed.

Lemma root_of_compresses (E : relation pystr) (k : nat)
    (parent parent' : gmap pystr pystr) (x r : pystr) :
  uf_inv E k parent → compresses parent parent' →
  root_of parent x r ↔ root_of parent' x r.
Proof.
  intros (Hterm & _) Hc. split.
  - intros [n H]. destruct (Hc _ _ _ H) as (n' & _ & H'). by exists n'.
  - intros Hr. destruct (Hterm x) as (r0 & n & _ & H).
    destruct (Hc _ _ _ H) as (n' & _ & H').
    rewrite (root_of_det _ _ _ _ Hr (ex_intro _ _ H')). by exists n.
Qed.

Lemma groups_inv_compresses (E : relation pystr) (k : nat)
    (parent parent' : gmap pystr pystr) (seen : gset pystr)
    (groups : list (pystr * gset pystr)) :
  uf_inv E k parent → compresses parent parent' →
  groups_inv parent seen groups → groups_inv parent' seen groups.
Proof.
  intros Hinv Hc (Hnd & Hmem & Hkey). split; [done|]. split.
  - intros r c Hin x. rewrite <- (root_of_compresses _ _ _ _ _ _ Hinv Hc).
    by apply Hmem.
  - intros x r Hx Hr. eapply Hkey; [done|].
    by rewrite (root_of_compresses _ _ _ _ _ _ Hinv Hc).
Qed.

Lemma groups_add_keys (r x k : pystr) (groups : list (pystr * gset pystr)) :
  k ∈ (groups_add r x groups).*1 ↔ k = r ∨ k ∈ groups.*1.
Proof.
  induction groups as [|[k0 c0] g IH]; simpl.
  - rewrite list_elem_of_singleton. split; [by left|].
    by intros [?|?%elem_of_nil].
  - case_bool_decide as Hk; simpl.
    + subst k0. rewrite !elem_of_cons. tauto.
    + rewrite !elem_of_cons, IH. tauto.
Qed.

Lemma groups_add_NoDup (r x : pystr) (groups : list (pystr * gset pystr)) :
  NoDup groups.*1 → NoDup (groups_add r x groups).*1.
Proof.
  induction groups as [|[k0 c0] g IH]; simpl.
  - intros _. apply NoDup_singleton.
  - intros [Hk0 Hnd]%NoDup_cons. case_bool_decide as Hk; simpl.
    + by apply NoDup_cons.
    + apply NoDup_cons. split; [|by apply IH].
      rewrite groups_add_keys. intros [?|?]; done.
Qed.

Lemma elem_of_groups_add (r x r' : pystr) (c' : gset pystr)
    (groups : list (pystr * gset pystr)) :
  NoDup groups.*1 → (r', c') ∈ groups_add r x groups →
  (r' ≠ r ∧ (r', c') ∈ groups)
  ∨ (r' = r ∧ ∃ c, c' = c ∪ {[x]}
                   ∧ ((r, c) ∈ groups ∨ (c = ∅ ∧ r ∉ groups.*1))).
Proof.
  induction groups as [|[k0 c0] g IH]; simpl.
  - intros _ [= -> ->]%list_elem_of_singleton. right. split; [done|].
    exists ∅. split; [by rewrite (left_id_L ∅ (∪))|].
    right. split; [done|]. apply not_elem_of_nil.
  - intros [Hk0 Hnd]%NoDup_cons. case_bool_decide as Hk; simpl.
    + subst k0. intros [[= -> ->]|Hin]%elem_of_cons.
      * right. split; [done|]. exists c0. split; [done|]. left. left.
      * left. split; [|by right]. intros ->. apply Hk0.
        apply list_elem_of_fmap. by exists (r, c').
    + intros [[= -> ->]|Hin]%elem_of_cons.
      * left. split; [done|left].
      * destruct (IH Hnd Hin) as [[? ?]|[-> (c & -> & [?|[-> Hr]])]].
        -- left. split; [done|by right].
        -- right. split; [done|]. exists c. split; [done|]. left. by right.
        -- right. split; [done|]. exists ∅. split; [done|]. right.
           split; [done|]. rewrite not_elem_of_cons. done.
Qed.

Lemma groups_add_inv (parent : gmap pystr pystr) (seen : gset pystr)
    (groups : list (pystr * gset pystr)) (x r : pystr) :
  root_of parent x r → groups_inv parent seen groups →
  groups_inv parent (seen ∪ {[x]}) (groups_add r x groups).
Proof.
  intros Hxr (Hnd & Hmem & Hkey). split; [by apply groups_add_NoDup|]. split.
  - intros r' c' Hin z. rewrite elem_of_union, elem_of_singleton.
    apply elem_of_groups_add in Hin
      as [[Hne Hin]|[-> (c & -> & [Hin|[-> Hr]])]]; [| | |done].
    + rewrite (Hmem _ _ Hin z). split; [tauto|].
      intros [[?| ->] Hz]; [done|].
      destruct Hne. by eapply root_of_det.
    + rewrite elem_of_union, elem_of_singleton, (Hmem _ _ Hin z).
      split; [|tauto]. intros [[? ?]| ->]; auto.
    + rewrite elem_of_union, elem_of_singleton. split.
      * intros [?%not_elem_of_empty| ->]; [done|]. auto.
      * intros [[Hz| ->] Hzr]; [|by right]. destruct Hr. by eapply Hkey.
  - intros z r' [Hz| ->%elem_of_singleton]%elem_of_union Hzr;
      rewrite groups_add_keys.
    + right. by eapply Hkey.
    + left. by eapply root_of_det.
Qed.

Lemma group_loop_returns (E : relation pystr) (k fuel : nat) (l : list pystr)
    (parent : gmap pystr pystr) (seen : gset pystr)
    (groups : list (pystr * gset pystr)) :
  uf_inv E k parent → k < fuel → groups_inv parent seen groups →
  ∃ parent' groups',
    foldlM (group_step fuel) (parent, groups) l = Some (parent', groups')
    ∧ uf_inv E k parent'
    ∧ groups_inv parent' (seen ∪ list_to_set l) groups'.
Proof.
  revert parent seen groups.
  induction l as [|x l IH]; intros parent seen groups Hinv Hk Hg; simpl.
  { exists parent, groups. by rewrite (right_id_L ∅ (∪)). }
  destruct Hinv as (Hterm & Hrest).
  destruct (Hterm x) as (r & n & Hn & Hx).
  destruct (find_returns fuel _ _ _ _ Hx ltac:(lia)) as (p1 & Hfind & Hc).
  assert (group_step fuel (parent, groups) x
          = Some (p1, groups_add r x groups)) as ->.
  { unfold group_step. simpl. by rewrite Hfind. }
  simpl.
  pose proof (uf_inv_compresses _ _ _ _ (conj Hterm Hrest) Hc) as Hinv1.
  destruct (IH p1 (seen ∪ {[x]}) (groups_add r x groups) Hinv1 Hk)
    as (parent' & groups' & Hloop & Hinv' & Hg').
  - apply groups_add_inv.
    + destruct (Hc _ _ _ Hx) as (? & _ & ?). by eexists.
    + by apply (groups_inv_compresses E k parent _ _ _ (conj Hterm Hrest) Hc).
  - exists parent', groups'. split; [done|]. split; [done|].
    by rewrite (assoc_L (∪)).
Qed.

(** ** The clusters are the connected components *)

Lemma uf_inv_connected (E : relation pystr) (k : nat)
    (parent : gmap pystr pystr) (x y r : pystr) :
  uf_inv E k parent → root_of parent x r →
  rtsc E x y ↔ root_of parent y r.
Proof.
  intros (Hterm & Hsound & Hcompl) Hx. split.
  - intros Hxy. revert r Hx.
    induction Hxy as [x|x z y Hxz _ IH]; intros r Hx; [done|].
    apply IH.
    destruct Hxz as [Hxz|Hzx].
    + destruct (Hcompl _ _ Hxz) as (r' & Hx' & Hz').
      by rewrite (root_of_det _ _ _ _ Hx Hx').
    + destruct (Hcompl _ _ Hzx) as (r' & Hz' & Hx').
      by rewrite (root_of_det _ _ _ _ Hx Hx').
  - intros Hy. etrans; [by apply Hsound|]. symmetry. by apply Hsound.
Qed.

Lemma edge_mono (overlaps : list overlap) (t1 t2 : Q) (x y : pystr) :
  (t1 <= t2)%Q → edge overlaps t2 x y → edge overlaps t1 x y.
Proof.
  intros Ht (o & Hin & Hle & Hp). exists o. split; [done|].
  split; [|done]. by eapply Qle_trans.
Qed.

Lemma connected_mono (overlaps : list overlap) (t1 t2 : Q) (x y : pystr) :
  (t1 <= t2)%Q → connected overlaps t2 x y → connected overlaps t1 x y.
Proof.
  intros Ht. apply rtc_subrel.
  intros ?? [?|?]; [left|right]; by eapply edge_mono.
Qed.

Section Clusters.
Variable set_iter : gset pystr → list pystr.
Hypothesis set_iter_perm : ∀ X, set_iter X ≡ₚ elements X.

Lemma set_iter_set (X : gset pystr) : list_to_set (set_iter X) = X.
Proof.
  apply set_eq. intros x.
  by rewrite elem_of_list_to_set, set_iter_perm, elem_of_elements.
Qed.

(** [find_clusters] returns, and what it returns are the connected
    components, of two names or more, of the graph whose nodes are the
    names of the list and whose edges are its records at or above the
    threshold. *)
Lemma find_clusters_returns (overlaps : list overlap) (t : Q) :
  ∃ cl, find_clusters set_iter overlaps t = Some cl
    ∧ (∀ c, c ∈ cl →
         1 < size c
         ∧ ∃ x, x ∈ all_skills overlaps
                ∧ ∀ y, y ∈ c ↔
                       y ∈ all_skills overlaps ∧ connected overlaps t x y)
    ∧ (∀ x, x ∈ all_skills overlaps →
         ∃ c, (∀ y, y ∈ c ↔
                    y ∈ all_skills overlaps ∧ connected overlaps t x y)
              ∧ (1 < size c → c ∈ cl)).
Proof.
  unfold find_clusters, find_clusters_fuel.
  destruct (union_loop_returns (S (length overlaps)) t overlaps [] ∅)
    as (parent & Hunion & Hinv); simpl.
  { apply uf_inv_empty. by intros x y (o & ?%elem_of_nil & _). }
  { lia. }
  simpl in Hunion, Hinv. rewrite Hunion. simpl.
  destruct (group_loop_returns _ _ (S (length overlaps))
              (set_iter (all_skills overlaps)) parent ∅ [] Hinv)
    as (parent' & groups & Hloop & Hinv' & Hnd & Hmem & Hkey).
  { lia. }
  { split; [constructor|]. split.
    - by intros r c ?%elem_of_nil.
    - by intros x r ?%not_elem_of_empty. }
  rewrite Hloop. simpl.
  rewrite set_iter_set, (left_id_L ∅ (∪)) in Hmem, Hkey.
  eexists. split; [done|]. split.
  - intros c [Hsize ([r c'] & -> & Hin)%list_elem_of_fmap]%list_elem_of_filter.
    simpl in *. split; [done|].
    destruct (size_pos_elem_of c') as [x Hx]; [lia|].
    exists x. apply (Hmem _ _ Hin) in Hx as Hx'. destruct Hx' as [Hxa Hxr].
    split; [done|]. intros y.
    rewrite (Hmem _ _ Hin y).
    unfold connected. by rewrite (uf_inv_connected _ _ _ x y r Hinv' Hxr).
  - intros x Hx.
    destruct Hinv' as (Hterm & Hrest).
    destruct (Hterm x) as (r & n & _ & Hpath).
    assert (root_of parent' x r) as Hxr by (by exists n).
    pose proof (Hkey _ _ Hx Hxr) as ([r' c] & Hr' & Hin)%list_elem_of_fmap.
    simpl in Hr'. subst r'.
    exists c. split.
    + intros y. rewrite (Hmem _ _ Hin y). unfold connected.
      by rewrite (uf_inv_connected _ _ _ x y r (conj Hterm Hrest) Hxr).
    + intros Hsize. apply list_elem_of_filter. split; [done|].
      apply list_elem_of_fmap. by exists (r, c).
Qed.
End Clusters.

Lemma iter_up_perm (X : gset pystr) : iter_up X ≡ₚ elements X.
Proof. apply sorted_perm. Qed.

Lemma iter_down_perm (X : gset pystr) : iter_down X ≡ₚ elements X.
Proof.
  unfold iter_down. rewrite <- Permutation_rev. apply sorted_perm.
Qed.



(** C4.  For one list of overlap records and two thresholds [t1 <= t2],
    [find_clusters] returns for both; every cluster at [t2] is part of a
    cluster at [t1], so a name in a cluster at [t2] is in a cluster at
    [t1]; and a cluster at [t2] is a connected component of the graph of
    the same list: the names of its records that are joined to one of them
    by records at or above [t2]. *)
Theorem clusters_shrink (set_iter1 set_iter2 : gset pystr → list pystr)
    (overlaps : list overlap) (t1 t2 : Q) :
  (∀ X, set_iter1 X ≡ₚ elements X) →
  (∀ X, set_iter2 X ≡ₚ elements X) →
  (t1 <= t2)%Q →
  ∃ cl1 cl2,
    find_clusters set_iter1 overlaps t1 = Some cl1
    ∧ find_clusters set_iter2 overlaps t2 = Some cl2
    ∧ (∀ x, (∃ c2, c2 ∈ cl2 ∧ x ∈ c2) → ∃ c1, c1 ∈ cl1 ∧ x ∈ c1)
    ∧ (∀ c2, c2 ∈ cl2 → ∃ c1, c1 ∈ cl1 ∧ c2 ⊆ c1)
    ∧ (∀ c2, c2 ∈ cl2 →
         ∃ x, x ∈ all_skills overlaps
              ∧ ∀ y, y ∈ c2 ↔
                     y ∈ all_skills overlaps ∧ connected overlaps t2 x y).
Proof.
  intros Hiter1 Hiter2 Ht.
  destruct (find_clusters_returns set_iter1 Hiter1 overlaps t1)
    as (cl1 & Hcl1 & _ & Hall1).
  destruct (find_clusters_returns set_iter2 Hiter2 overlaps t2)
    as (cl2 & Hcl2 & Hc2 & _).
  exists cl1, cl2. split; [done|]. split; [done|].
  assert (∀ c2, c2 ∈ cl2 → ∃ c1, c1 ∈ cl1 ∧ c2 ⊆ c1) as Hsub.
  { intros c2 Hin2. destruct (Hc2 c2 Hin2) as (Hsize & x & Hx & Hmem2).
    destruct (Hall1 x Hx) as (c1 & Hmem1 & Hin1).
    assert (c2 ⊆ c1) as Hincl.
    { intros y [Hy Hxy]%Hmem2. apply Hmem1. split; [done|].
      by eapply connected_mono. }
    exists c1. split; [|done]. apply Hin1.
    apply subseteq_size in Hincl. lia. }
  split; [|split; [done|]].
  - intros x (c2 & Hin2 & Hx). destruct (Hsub c2 Hin2) as (c1 & Hin1 & Hincl).
    exists c1. split; [done|]. by apply Hincl.
  - intros c2 Hin2. by destruct (Hc2 c2 Hin2) as (_ & ?).
Qed.

Lemma clusters_shrink_witness :
  (∀ X, iter_up X ≡ₚ elements X)
  ∧ (∀ X, iter_down X ≡ₚ elements X)
  ∧ (0.25 <= 0.4)%Q
  ∧ find_clusters iter_up overlaps_chain 0.25 = Some [{[s "a"; s "b"; s "c"]}]
  ∧ find_clusters iter_down overlaps_chain 0.4 = Some [{[s "a"; s "b"]}]
  ∧ ∃ cl1 cl2,
      find_clusters iter_up overlaps_chain 0.25 = Some cl1
      ∧ find_clusters iter_down overlaps_chain 0.4 = Some cl2
      ∧ (∀ x, (∃ c2, c2 ∈ cl2 ∧ x ∈ c2) → ∃ c1, c1 ∈ cl1 ∧ x ∈ c1)
      ∧ (∀ c2, c2 ∈ cl2 → ∃ c1, c1 ∈ cl1 ∧ c2 ⊆ c1).
Proof.
  split; [exact iter_up_perm|]. split; [exact iter_down_perm|].
  assert (0.25 <= 0.4)%Q as Hle by (by vm_compute).
  split; [exact Hle|]. split; [by vm_compute|]. split; [by vm_compute|].
  destruct (clusters_shrink iter_up iter_down overlaps_chain 0.25 0.4
              iter_up_perm iter_down_perm Hle)
    as (cl1 & cl2 & H1 & H2 & Hmem & Hsub & _).
  exists cl1, cl2. repeat split; assumption.
Defined.

(** The object [main] prints is the same for any two iteration orders of
    the sets, up to the order of the list of clusters. *)
Lemma main_up_to_cluster_order (set_iter1 set_iter2 : gset pystr → list pystr)
    (str_lower : pystr → pystr) (skills : gmap pystr frontmatter) (t : Q) :
  (∀ X, set_iter1 X ≡ₚ elements X) →
  (∀ X, set_iter2 X ≡ₚ elements X) →
  ∃ r1 r2,
    main str_lower set_iter1 skills t = Some r1
    ∧ main str_lower set_iter2 skills t = Some r2
    ∧ total_skills r1 = total_skills r2
    ∧ overlaps r1 = overlaps r2
    ∧ ∀ c, c ∈ clusters r1 ↔ c ∈ clusters r2.
Proof.
  intros Hiter1 Hiter2. unfold main.
  rewrite compute_overlap_eq. simpl.
  set (rs := sorted composite_geb _).
  destruct (find_clusters_returns set_iter1 Hiter1 rs t)
    as (cl1 & -> & Hc1 & Hall1).
  destruct (find_clusters_returns set_iter2 Hiter2 rs t)
    as (cl2 & -> & Hc2 & Hall2).
  simpl. eexists _, _. split; [done|]. split; [done|]. simpl.
  split; [done|]. split; [done|].
  assert (∀ cla clb : list (gset pystr),
    (∀ c, c ∈ cla → 1 < size c ∧ ∃ x, x ∈ all_skills rs
        ∧ ∀ y, y ∈ c ↔ y ∈ all_skills rs ∧ connected rs t x y) →
    (∀ x, x ∈ all_skills rs →
        ∃ c, (∀ y, y ∈ c ↔ y ∈ all_skills rs ∧ connected rs t x y)
             ∧ (1 < size c → c ∈ clb)) →
    ∀ c, c ∈ cla → c ∈ clb) as Hincl.
  { intros cla clb Ha Hb c Hin.
    destruct (Ha c Hin) as (Hsize & x & Hx & Hmem).
    destruct (Hb x Hx) as (c' & Hmem' & Hin').
    assert (c' = c) as ->; [|by apply Hin'].
    apply set_eq. intros y. by rewrite Hmem, Hmem'. }
  intros c. rewrite !list_elem_of_fmap.
  split; intros (c0 & -> & Hin); exists c0; (split; [done|]).
  - by apply (Hincl cl1 cl2).
  - by apply (Hincl cl2 cl1).
Qed.

(** C6.  The list of clusters is in the order in which the loop over the
    set [all_skills] first meets each group, and Python does not fix the
    order of that loop for a set of strings.  On the corpus [corpus_two],
    one order gives the clusters [[a, b], [c, d]] and the other
    [[c, d], [a, b]], with the same overlap list: the two printed objects
    differ. *)
Theorem cluster_order_follows_set_order (str_lower : pystr → pystr) :
  lowers_ascii str_lower corpus_two →
  (∀ X, iter_up X ≡ₚ elements X)
  ∧ (∀ X, iter_down X ≡ₚ elements X)
  ∧ ∃ r1 r2,
      main str_lower iter_up corpus_two 0.25 = Some r1
      ∧ main str_lower iter_down corpus_two 0.25 = Some r2
      ∧ overlaps r1 = overlaps r2
      ∧ clusters r1 = [[s "a"; s "b"]; [s "c"; s "d"]]
      ∧ clusters r2 = [[s "c"; s "d"]; [s "a"; s "b"]]
      ∧ r1 ≠ r2.
Proof.
  intros Hlow.
  split; [exact iter_up_perm|]. split; [exact iter_down_perm|].
  assert (∀ set_iter, main str_lower set_iter corpus_two 0.25
                      = main ascii_lower set_iter corpus_two 0.25) as Hmain.
  { intros set_iter. unfold main. by rewrite (compute_overlap_ascii _ _ Hlow). }
  rewrite !Hmain.
  eexists _, _. split; [vm_compute; reflexivity|].
  split; [vm_compute; reflexivity|].
  split; [reflexivity|]. split; [reflexivity|]. split; [reflexivity|].
  intros Heq%(f_equal clusters). discriminate Heq.
Qed.

Lemma cluster_order_follows_set_order_witness :
  lowers_ascii ascii_lower corpus_two
  ∧ ∃ r1 r2,
      main ascii_lower iter_up corpus_two 0.25 = Some r1
      ∧ main ascii_lower iter_down corpus_two 0.25 = Some r2
      ∧ overlaps r1 = overlaps r2
      ∧ clusters r1 = [[s "a"; s "b"]; [s "c"; s "d"]]
      ∧ clusters r2 = [[s "c"; s "d"]; [s "a"; s "b"]]
      ∧ r1 ≠ r2.
Proof.
  split; [apply lowers_ascii_refl|].
  apply (cluster_order_follows_set_order ascii_lower), lowers_ascii_refl.
Defined.

(** * Further properties *)

(** ** Jaccard similarity as a measure *)

Lemma truediv_Qeq (n d : nat) (q : Q) (k : Z) :
  truediv n d = Some q →
  (q == inject_Z k)%Q ↔ Z.of_nat n = (k * Z.of_nat d)%Z.
Proof.
  destruct d as [|d]; [done|]. intros [= <-].
  unfold Qeq, inject_Z. simpl.
  rewrite Z.mul_1_r, <- Pos.of_nat_succ, Zpos_P_of_succ_nat.
  by rewrite Nat2Z.inj_succ.
Qed.

Lemma jaccard_cases `{Countable K} (a b : gset K) :
  (a = ∅ ∧ b = ∅ ∧ jaccard a b = Some 0%Q)
  ∨ (a ∪ b ≠ ∅ ∧ jaccard a b = truediv (size (a ∩ b)) (size (a ∪ b))).
Proof.
  unfold jaccard.
  destruct (size a =? 0) eqn:Ha; [destruct (size b =? 0) eqn:Hb|]; simpl.
  - left. by apply size_empty_iff_0 in Ha, Hb.
  - right. split; [|done]. intros He.
    apply not_true_iff_false in Hb. apply Hb, size_empty_iff_0. set_solver.
  - right. split; [|done]. intros He.
    apply not_true_iff_false in Ha. apply Ha, size_empty_iff_0. set_solver.
Qed.

(** X1.  The similarity is 1 exactly when the two sets are the same set and
    that set is not empty: two empty sets have similarity 0, not 1. *)
Theorem jaccard_one_iff `{Countable K} (a b : gset K) (q : Q) :
  jaccard a b = Some q →
  (q == 1)%Q ↔ a = b ∧ a ≠ ∅.
Proof.
  intros Hq. destruct (jaccard_cases a b) as [(-> & -> & H0)|[Hne Hdiv]].
  - rewrite H0 in Hq. injection Hq as <-. split; [done|]. by intros [_ []].
  - rewrite Hdiv in Hq.
    rewrite (truediv_Qeq _ _ _ 1 Hq), Z.mul_1_l, Nat2Z.inj_iff. split.
    + intros Hsize.
      assert (a ∩ b = a ∪ b) as Heq.
      { apply set_subseteq_size_eq; [|lia].
        etrans; [apply intersection_subseteq_l|apply union_subseteq_l]. }
      assert (a = b) as ->.
      { apply set_eq. intros x. split; intros Hx.
        - assert (x ∈ a ∩ b) as [_ ?]%elem_of_intersection; [|done].
          rewrite Heq. apply elem_of_union. by left.
        - assert (x ∈ a ∩ b) as [? _]%elem_of_intersection; [|done].
          rewrite Heq. apply elem_of_union. by right. }
      split; [done|]. intros ->. apply Hne. apply (left_id_L ∅ (∪)).
    + intros [-> _]. by rewrite (idemp_L (∩)), (idemp_L (∪)).
Qed.

Lemma jaccard_one_iff_witness :
  let a : gset pystr := {[s "git"; s "gh"]} in
  jaccard a a = Some (2 # 2)%Q ∧ ((2 # 2 == 1)%Q ↔ a = a ∧ a ≠ ∅).
Proof.
  intros a. assert (jaccard a a = Some (2 # 2)%Q) as Hq by (by vm_compute).
  split; [exact Hq|]. exact (jaccard_one_iff a a (2 # 2)%Q Hq).
Defined.

(** X2.  The similarity is 0 exactly when the two sets have no element in
    common. *)
Theorem jaccard_zero_iff `{Countable K} (a b : gset K) (q : Q) :
  jaccard a b = Some q →
  (q == 0)%Q ↔ a ∩ b = ∅.
Proof.
  intros Hq. destruct (jaccard_cases a b) as [(-> & -> & H0)|[Hne Hdiv]].
  - rewrite H0 in Hq. injection Hq as <-.
    split; [intros _; apply (left_absorb_L ∅ (∩))|done].
  - rewrite Hdiv in Hq.
    rewrite (truediv_Qeq _ _ _ 0 Hq), Z.mul_0_l.
    rewrite <- size_0_iff. lia.
Qed.

Lemma jaccard_zero_iff_witness :
  let a : gset pystr := {[s "git"]} in
  let b : gset pystr := {[s "helm"]} in
  jaccard a b = Some (0 # 2)%Q ∧ ((0 # 2 == 0)%Q ↔ a ∩ b = ∅).
Proof.
  intros a b. assert (jaccard a b = Some (0 # 2)%Q) as Hq by (by vm_compute).
  split; [exact Hq|]. exact (jaccard_zero_iff a b (0 # 2)%Q Hq).
Defined.

(** ** Trigger phrases and the text around them *)

Lemma scan_triggers_closing (acc d rest : pystr) :
  quote ∉ d → (acc ≠ [] ∨ d ≠ []) →
  scan_triggers (Some acc) (d ++ quote :: rest)
  = (rev acc ++ d) :: scan_triggers None rest.
Proof.
  revert acc. induction d as [|c d IH]; intros acc Hd Hne; simpl.
  - rewrite app_nil_r. destruct acc; [by destruct Hne|done].
  - apply not_elem_of_cons in Hd as [Hc Hd].
    destruct (N.eqb_spec c quote) as [->|_]; [done|].
    rewrite IH; [|done|by left]. simpl. by rewrite <- app_assoc.
Qed.

Lemma scan_triggers_occurs (d seen : pystr) (open : option pystr) (t : pystr) :
  (∀ acc, open = Some acc → ∃ pre, seen = pre ++ quote :: rev acc) →
  t ∈ scan_triggers open d →
  ∃ pre post, seen ++ d = pre ++ quote :: t ++ quote :: post.
Proof.
  revert seen open. induction d as [|c d IH]; intros seen open Hopen; simpl.
  { by intros ?%elem_of_nil. }
  rewrite (cons_middle c seen d), app_assoc.
  destruct open as [acc|].
  - destruct (Hopen acc eq_refl) as [pre0 Hseen].
    destruct (N.eqb_spec c quote) as [->|Hc].
    + destruct acc as [|a acc].
      * apply IH. intros ? [= <-]. by exists seen.
      * intros [->|Hin]%elem_of_cons.
        -- exists pre0, d. rewrite Hseen. by rewrite <- !app_assoc.
        -- revert Hin. by apply IH.
    + apply IH. intros ? [= <-]. exists pre0. rewrite Hseen. simpl.
      by rewrite <- !app_assoc.
  - destruct (N.eqb_spec c quote) as [->|Hc].
    + apply IH. intros ? [= <-]. by exists seen.
    + by apply IH.
Qed.

(** X3.  Every phrase [extract_triggers] returns stands in the description
    between two double quotes; a description without a double quote has no
    trigger phrase. *)
Theorem triggers_are_quoted (d : pystr) :
  (∀ t, t ∈ extract_triggers d →
        ∃ pre post, d = pre ++ quote :: t ++ quote :: post)
  ∧ (quote ∉ d → extract_triggers d = []).
Proof.
  split.
  - intros t Hin. by apply (scan_triggers_occurs d [] None t).
  - apply scan_triggers_no_quote.
Qed.

Lemma triggers_are_quoted_witness :
  (quote ∉ s "Handles deploy requests")
  ∧ extract_triggers (s "Handles deploy requests") = [].
Proof.
  assert (quote ∉ s "Handles deploy requests") as Hq.
  { rewrite list_elem_of_In. by vm_compute; intuition. }
  split; [exact Hq|].
  by apply (triggers_are_quoted (s "Handles deploy requests")).
Defined.

(** X4.  Quoting and extracting are inverse: from a description made of
    pieces of text without double quotes, each followed by a quoted phrase
    that is not empty and has no double quote, [extract_triggers] returns
    the phrases, in their order. *)
Theorem triggers_of_description (parts : list (pystr * pystr))
    (last : pystr) :
  Forall (λ tp, (quote ∉ tp.1) ∧ (quote ∉ tp.2) ∧ tp.2 ≠ []) parts →
  quote ∉ last →
  extract_triggers (description_of parts last) = parts.*2.
Proof.
  intros Hparts Hlast. unfold extract_triggers.
  induction Hparts as [|[text p] parts (Ht & Hp & Hne) _ IH]; simpl.
  - by apply scan_triggers_no_quote.
  - rewrite scan_triggers_app_no_quote by done. simpl.
    rewrite scan_triggers_closing; [|done|by right]. simpl in *.
    by rewrite IH.
Qed.

Lemma triggers_of_description_witness :
  extract_triggers
    (description_of [(s "Use on ", s "deploy app"); (s " or ", s "roll back")]
       (s "."))
  = [s "deploy app"; s "roll back"].
Proof.
  apply (triggers_of_description
           [(s "Use on ", s "deploy app"); (s " or ", s "roll back")]
           (s ".")).
  - repeat constructor; simpl; try discriminate;
      rewrite list_elem_of_In; vm_compute; intuition discriminate.
  - rewrite list_elem_of_In; vm_compute; intuition discriminate.
Defined.

(** ** Keywords *)

Lemma scan_words_run (text seen acc w : pystr) :
  Forall (λ c, is_word_char c = true) acc →
  (∀ c, last seen = Some c → is_word_char c = false) →
  w ∈ scan_words acc text →
  2 ≤ length w
  ∧ Forall (λ c, is_word_char c = true) w
  ∧ ∃ pre post,
      seen ++ rev acc ++ text = pre ++ w ++ post
      ∧ (∀ c, last pre = Some c → is_word_char c = false)
      ∧ (∀ c, head post = Some c → is_word_char c = false).
Proof.
  revert seen acc. induction text as [|c text IH]; intros seen acc Hacc Hseen.
  - cbn [scan_words]. destruct (Nat.leb_spec 2 (length acc)) as [Hlen|_];
      [|by intros ?%elem_of_nil].
    intros ->%list_elem_of_singleton. rewrite length_rev.
    split; [done|]. split; [by apply Forall_rev|].
    exists seen, []. by rewrite !app_nil_r.
  - cbn [scan_words]. destruct (is_word_char c) eqn:Hc.
    + intros Hw.
      destruct (IH seen (c :: acc) (Forall_cons_2 _ _ _ Hc Hacc) Hseen Hw)
        as (Hlen & Hword & pre & post & Heq & Hpre & Hpost).
      split; [done|]. split; [done|]. exists pre, post.
      split; [|done]. rewrite <- Heq. simpl. by rewrite <- !app_assoc.
    + intros [Hw|Hw]%elem_of_app.
      * destruct (Nat.leb_spec 2 (length acc)) as [Hlen|_];
          [|by apply elem_of_nil in Hw].
        apply list_elem_of_singleton in Hw as ->. rewrite length_rev.
        split; [done|]. split; [by apply Forall_rev|].
        exists seen, (c :: text). split; [done|]. split; [done|].
        by intros ? [= <-].
      * destruct (IH (seen ++ rev acc ++ [c]) [] (Forall_nil_2 _)) with (2:=Hw)
          as (Hlen & Hword & pre & post & Heq & Hpre & Hpost).
        { intros c'. rewrite !app_assoc, last_snoc. by intros [= <-]. }
        split; [done|]. split; [done|]. exists pre, post.
        split; [|done]. rewrite <- Heq. simpl. by rewrite <- !app_assoc.
Qed.

(** X5.  A keyword is a whole word of the lower-cased description: a run of
    two or more letters (ASCII or CJK) with no letter next to it on either
    side; and it is not a stopword. *)
Theorem keywords_are_words (str_lower : pystr → pystr) (d w : pystr) :
  w ∈ extract_keywords str_lower d →
  2 ≤ length w
  ∧ Forall (λ c, is_word_char c = true) w
  ∧ (w ∉ stopwords)
  ∧ ∃ pre post,
      str_lower d = pre ++ w ++ post
      ∧ (∀ c, last pre = Some c → is_word_char c = false)
      ∧ (∀ c, head post = Some c → is_word_char c = false).
Proof.
  unfold extract_keywords.
  rewrite elem_of_list_to_set, list_elem_of_filter. intros [Hstop Hw].
  destruct (scan_words_run (str_lower d) [] [] w) as (? & ? & ?); try done.
Qed.

Lemma keywords_are_words_witness :
  s "deploy" ∈ extract_keywords ascii_lower (s "Use it to Deploy-apps")
  ∧ ∃ pre post,
      ascii_lower (s "Use it to Deploy-apps") = pre ++ s "deploy" ++ post
      ∧ (∀ c, last pre = Some c → is_word_char c = false)
      ∧ (∀ c, head post = Some c → is_word_char c = false).
Proof.
  assert (s "deploy" ∈ extract_keywords ascii_lower (s "Use it to Deploy-apps"))
    as Hin.
  { refine (bool_decide_unpack _ _). by vm_compute. }
  split; [exact Hin|].
  by destruct (keywords_are_words ascii_lower _ _ Hin) as (_ & _ & _ & ?).
Defined.

(** ** Tools *)

Lemma lstrip_spec (x : pystr) :
  ∃ pre, x = pre ++ lstrip x
         ∧ Forall (λ c, isspace c = true) pre
         ∧ (∀ c, head (lstrip x) = Some c → isspace c = false).
Proof.
  induction x as [|c x (pre & Hx & Hpre & Hhead)]; simpl.
  - exists []. split; [done|]. split; [constructor|done].
  - destruct (isspace c) eqn:Hc.
    + exists (c :: pre). split; [by rewrite Hx at 1|].
      split; [by constructor|done].
    + exists []. split; [done|]. split; [constructor|].
      by intros ? [= <-].
Qed.

Lemma lstrip_spaces (pre x : pystr) :
  Forall (λ c, isspace c = true) pre → lstrip (pre ++ x) = lstrip x.
Proof. induction 1 as [|c pre Hc _ IH]; simpl; [done|]. by rewrite Hc. Qed.

Lemma lstrip_id (x : pystr) :
  (∀ c, head x = Some c → isspace c = false) → lstrip x = x.
Proof. destruct x as [|c x]; simpl; [done|]. intros H. by rewrite H. Qed.

Lemma lstrip_all_spaces (x : pystr) :
  Forall (λ c, isspace c = true) x → lstrip x = [].
Proof. induction 1 as [|c x Hc _ IH]; simpl; [done|]. by rewrite Hc. Qed.

Lemma head_rev {A} (l : list A) : head (rev l) = last l.
Proof.
  induction l as [|x l IH] using rev_ind; [done|].
  by rewrite rev_app_distr, last_snoc.
Qed.

Lemma last_rev {A} (l : list A) : last (rev l) = head l.
Proof. by rewrite <- head_rev, rev_involutive. Qed.

Lemma strip_spec (x : pystr) :
  ∃ pre post,
    x = pre ++ strip x ++ post
    ∧ Forall (λ c, isspace c = true) pre
    ∧ Forall (λ c, isspace c = true) post
    ∧ (∀ c, head (strip x) = Some c → isspace c = false)
    ∧ (∀ c, last (strip x) = Some c → isspace c = false).
Proof.
  unfold strip.
  destruct (lstrip_spec x) as (pre & Hx & Hpre & Hhead).
  destruct (lstrip_spec (rev (lstrip x))) as (post & Hr & Hpost & Hlast).
  exists pre, (rev post). split; [|split; [done|split; [|split]]].
  - rewrite Hx at 1. f_equal.
    rewrite <- (rev_involutive (lstrip x)), Hr at 1.
    by rewrite rev_app_distr.
  - by apply Forall_rev.
  - intros c Hc. rewrite head_rev in Hc. apply Hhead.
    rewrite <- last_rev, Hr, last_app. by rewrite Hc.
  - intros c Hc. rewrite last_rev in Hc. by apply Hlast.
Qed.

Lemma strip_padded (piece name : pystr) :
  padded piece name →
  (∀ c, head name = Some c → isspace c = false) →
  (∀ c, last name = Some c → isspace c = false) →
  strip piece = name.
Proof.
  intros (pre & post & -> & Hpre & Hpost) Hhead Hlast. unfold strip.
  rewrite lstrip_spaces by done.
  destruct name as [|c name].
  - simpl. by rewrite (lstrip_all_spaces post Hpost).
  - rewrite (lstrip_id ((c :: name) ++ post)).
    2:{ intros c' [= <-]. by apply Hhead. }
    rewrite rev_app_distr, lstrip_spaces by (by apply Forall_rev).
    rewrite lstrip_id; [apply rev_involutive|].
    intros c'. rewrite head_rev. apply Hlast.
Qed.

Lemma split_cons (sep : N) (x : pystr) :
  ∃ w ws, split sep x = w :: ws.
Proof.
  induction x as [|c x (w & ws & IH)]; simpl; [by eexists _, _|].
  destruct (c =? sep)%N; [by eexists _, _|]. rewrite IH. by eexists _, _.
Qed.

Lemma join_cons (sep x : pystr) (l : list pystr) :
  l ≠ [] → join sep (x :: l) = x ++ sep ++ join sep l.
Proof. by destruct l. Qed.

Lemma join_split (sep : N) (x : pystr) : join [sep] (split sep x) = x.
Proof.
  induction x as [|c x IH]; simpl; [done|].
  destruct (split_cons sep x) as (w & ws & Hsplit). rewrite Hsplit in *.
  destruct (N.eqb_spec c sep) as [->|Hc].
  - rewrite join_cons by done. by rewrite IH.
  - destruct ws as [|y ws]; [by rewrite <- IH|].
    rewrite join_cons by done. rewrite join_cons in IH by done.
    by rewrite <- IH.
Qed.

Lemma split_no_sep (sep : N) (x : pystr) :
  Forall (λ piece, sep ∉ piece) (split sep x).
Proof.
  induction x as [|c x IH]; simpl.
  - repeat constructor. apply not_elem_of_nil.
  - destruct (N.eqb_spec c sep) as [->|Hc].
    + constructor; [apply not_elem_of_nil|done].
    + destruct (split sep x) as [|w ws].
      * repeat constructor. apply not_elem_of_cons.
        split; [done|apply not_elem_of_nil].
      * apply Forall_cons in IH as [Hw Hws].
        constructor; [|done]. apply not_elem_of_cons. by split.
Qed.

Lemma split_app_sep (sep : N) (x rest : pystr) :
  sep ∉ x → split sep (x ++ sep :: rest) = x :: split sep rest.
Proof.
  induction x as [|c x IH]; simpl; intros Hx.
  - by rewrite N.eqb_refl.
  - apply not_elem_of_cons in Hx as [Hc Hx].
    destruct (N.eqb_spec c sep) as [->|_]; [done|]. by rewrite IH.
Qed.

Lemma split_id (sep : N) (x : pystr) : sep ∉ x → split sep x = [x].
Proof.
  induction x as [|c x IH]; simpl; intros Hx; [done|].
  apply not_elem_of_cons in Hx as [Hc Hx].
  destruct (N.eqb_spec c sep) as [->|_]; [done|]. by rewrite IH.
Qed.

Lemma split_join (sep : N) (l : list pystr) :
  l ≠ [] → Forall (λ piece, sep ∉ piece) l →
  split sep (join [sep] l) = l.
Proof.
  intros Hne Hl. induction Hl as [|x l Hx Hl IH]; [done|].
  destruct l as [|y l]; [by apply split_id|].
  rewrite join_cons by done.
  change (x ++ [sep] ++ join [sep] (y :: l))
    with (x ++ sep :: join [sep] (y :: l)).
  rewrite split_app_sep by done. by rewrite IH.
Qed.

Lemma join_infix (sep piece : pystr) (l : list pystr) :
  piece ∈ l → ∃ pre post, join sep l = pre ++ piece ++ post.
Proof.
  induction l as [|x l IH]; [by intros ?%elem_of_nil|].
  destruct l as [|y l].
  - intros ->%list_elem_of_singleton. exists [], []. simpl.
    by rewrite app_nil_r.
  - rewrite join_cons by done. intros [->|Hin]%elem_of_cons.
    + by eexists [], _.
    + destruct (IH Hin) as (pre & post & ->).
      exists (x ++ sep ++ pre), post. by rewrite <- !app_assoc.
Qed.

(** X6.  Without a list of tools, or with an empty one, a skill has no
    tools.  Each tool of a skill is a piece of the list between commas,
    without the white space around it: it is not empty, has no comma and
    neither starts nor ends with white space. *)
Theorem tools_are_names (fm : frontmatter) :
  (fm !! s "tools" = None ∨ fm !! s "tools" = Some [] →
   extract_tools fm = ∅)
  ∧ ∀ t, t ∈ extract_tools fm →
      tool_name t
      ∧ ∃ tools_str pre post,
          fm !! s "tools" = Some tools_str ∧ tools_str = pre ++ t ++ post.
Proof.
  unfold extract_tools. split.
  - by intros [->| ->].
  - intros t. destruct (fm !! s "tools") as [tools_str|]; simpl;
      [|by intros ?%not_elem_of_empty].
    destruct tools_str as [|c x]; [by intros ?%not_elem_of_empty|].
    set (tools_str := c :: x).
    rewrite elem_of_list_to_set, list_elem_of_filter, list_elem_of_fmap.
    intros (Hne & piece & -> & Hpiece).
    destruct (strip_spec piece) as (pre & post & Hp & _ & _ & Hhead & Hlast).
    destruct (join_infix [0x2c%N] piece _ Hpiece) as (pre' & post' & Hjoin).
    rewrite join_split in Hjoin.
    pose proof (split_no_sep 0x2c%N tools_str) as Hsep.
    rewrite Forall_forall in Hsep. specialize (Hsep _ Hpiece).
    split.
    + split; [done|]. split; [|done].
      intros Hin. apply Hsep. rewrite Hp, !elem_of_app. auto.
    + exists tools_str, (pre' ++ pre), (post ++ post'). split; [done|].
      rewrite Hjoin, Hp at 1. by rewrite <- !app_assoc.
Qed.

Lemma tools_are_names_witness :
  let fm := skill [] (s "kubectl , helm,") in
  extract_tools fm = {[s "kubectl"; s "helm"]}
  ∧ ∀ t, t ∈ extract_tools fm → tool_name t.
Proof.
  intros fm. split; [by vm_compute|].
  intros t Ht. by destruct (tools_are_names fm) as [_ [? _]%(λ H, H t Ht)].
Defined.

(** X7.  Writing and reading a list of tools are inverse: when the tools
    string is a list of names separated by commas, with any white space
    around each name, the tools of the skill are these names. *)
Theorem tools_of_names (fm : frontmatter) (pieces names : list pystr) :
  Forall2 padded pieces names →
  Forall tool_name names →
  extract_tools (<[s "tools" := join [0x2c%N] pieces]> fm)
  = list_to_set names.
Proof.
  intros Hpad Hnames. unfold extract_tools. rewrite lookup_insert_eq. simpl.
  destruct pieces as [|piece pieces].
  { by apply Forall2_nil_inv_l in Hpad as ->. }
  assert (Forall (λ p, (0x2c%N) ∉ p) (piece :: pieces)) as Hsep.
  { clear fm. revert Hnames.
    induction Hpad as [|p n ps ns (pre & post & -> & Hpre & Hpost) _ IH];
      intros Hnames; [constructor|].
    apply Forall_cons in Hnames as [(_ & Hcomma & _) Hnames].
    constructor; [|by apply IH].
    rewrite !elem_of_app. intros [Hin|[Hin|Hin]]; [|done|].
    - rewrite Forall_forall in Hpre. by apply Hpre in Hin.
    - rewrite Forall_forall in Hpost. by apply Hpost in Hin. }
  assert (strip <$> (piece :: pieces) = names) as Hstrip.
  { clear Hsep. revert Hnames.
    induction Hpad as [|p n ps ns Hp _ IH]; intros Hnames; [done|].
    apply Forall_cons in Hnames as [(_ & _ & Hhead & Hlast) Hnames].
    rewrite fmap_cons, IH by done. by rewrite (strip_padded p n). }
  assert (filter (λ t : pystr, t ≠ []) names = names) as Hfilter.
  { clear Hstrip Hpad. induction Hnames as [|n ns (Hne & _) _ IH]; [done|].
    by rewrite filter_cons_True, IH. }
  destruct (join [0x2c%N] (piece :: pieces)) as [|c x] eqn:Hjoin.
  - exfalso. apply (f_equal (split 0x2c%N)) in Hjoin.
    rewrite split_join in Hjoin by done. injection Hjoin as -> ->.
    apply Forall2_cons_inv_l in Hpad
      as (n & ns & (pre & post & Hp & _) & _ & ->).
    apply Forall_cons in Hnames as [(Hne & _) _].
    symmetry in Hp. apply app_eq_nil in Hp as [_ [? _]%app_eq_nil]. done.
  - rewrite <- Hjoin, split_join by done. by rewrite Hstrip, Hfilter.
Qed.

Lemma tools_of_names_witness :
  Forall2 padded [s "kubectl "; s " helm"] [s "kubectl"; s "helm"]
  ∧ Forall tool_name [s "kubectl"; s "helm"]
  ∧ extract_tools (skill [] (s "kubectl , helm"))
    = {[s "kubectl"; s "helm"]}.
Proof.
  assert (Forall2 padded [s "kubectl "; s " helm"] [s "kubectl"; s "helm"])
    as Hpad.
  { repeat constructor.
    - exists [], (s " "). repeat split; repeat constructor.
    - exists (s " "), []. repeat split; repeat constructor. }
  assert (Forall tool_name [s "kubectl"; s "helm"]) as Hnames.
  { repeat constructor; try discriminate;
      try (rewrite list_elem_of_In; vm_compute; intuition discriminate);
      by intros ? [= <-]. }
  split; [exact Hpad|]. split; [exact Hnames|].
  pose proof (tools_of_names (skill [] []) _ _ Hpad Hnames) as H.
  vm_compute in H. vm_compute. exact H.
Defined.

(** ** Rounding *)

Lemma round_half_even_near (q : Q) :
  (inject_Z (Qfloor q) <= q)%Q ∧ (q < inject_Z (Qfloor q) + 1)%Q
  ∧ (Qfloor q ≤ round_half_even q ≤ Qfloor q + 1)%Z
  ∧ (- (1 # 2) <= inject_Z (round_half_even q) - q <= 1 # 2)%Q.
Proof.
  pose proof (Qfloor_le q) as Hlo. pose proof (Qlt_floor q) as Hhi.
  rewrite inject_Z_plus in Hhi.
  change (inject_Z 1) with 1%Q in Hhi.
  split; [done|]. split; [done|]. unfold round_half_even.
  destruct (Qcompare_spec (q - inject_Z (Qfloor q)) (1 # 2)) as [He|Hl|Hg].
  - destruct (Z.even _); (split; [lia|]);
      rewrite ?inject_Z_plus; change (inject_Z 1) with 1%Q; lra.
  - split; [lia|]. lra.
  - split; [lia|]. rewrite inject_Z_plus. change (inject_Z 1) with 1%Q. lra.
Qed.

Lemma round_half_even_mono (p q : Q) :
  (p <= q)%Q → (round_half_even p ≤ round_half_even q)%Z.
Proof.
  intros Hpq. pose proof (Qfloor_resp_le _ _ Hpq) as Hfloor.
  destruct (round_half_even_near p) as (_ & _ & [_ Hp] & _).
  destruct (round_half_even_near q) as (_ & _ & [Hq _] & _).
  destruct (decide (Qfloor p = Qfloor q)) as [Heq|]; [|lia].
  clear Hp Hq. unfold round_half_even. rewrite Heq.
  destruct (Qcompare_spec (p - inject_Z (Qfloor q)) (1 # 2)) as [He|Hl|Hg];
    destruct (Qcompare_spec (q - inject_Z (Qfloor q)) (1 # 2))
      as [He'|Hl'|Hg'];
    try destruct (Z.even _); try lia; exfalso; lra.
Qed.

Lemma round_mono (x y : Q) (ndigits : nat) :
  (x <= y)%Q → (round x ndigits <= round y ndigits)%Q.
Proof.
  intros Hxy. unfold round.
  assert (0 < 10 ^ Z.of_nat ndigits)%Z as Hpos by (apply Z.pow_pos_nonneg; lia).
  set (scale := (10 ^ Z.of_nat ndigits)%Z) in *.
  assert (0 < inject_Z scale)%Q as Hposq.
  { by rewrite (Zlt_Qlt 0 scale) in Hpos. }
  rewrite !Qred_correct. apply Qmult_le_compat_r.
  - rewrite <- Zle_Qle. apply round_half_even_mono.
    apply Qmult_le_compat_r; [done|]. by apply Qlt_le_weak.
  - apply Qlt_le_weak, Qinv_lt_0_compat. done.
Qed.

(** ** More on the overlap list *)

Lemma pair_scores_inv (str_lower : pystr → pystr) (fa fb : frontmatter)
    (sc : scores) :
  pair_scores str_lower fa fb = Some sc →
  let kw_a := extract_keywords str_lower (default [] (fa !! s "description")) in
  let kw_b := extract_keywords str_lower (default [] (fb !! s "description")) in
  let tr_a := trigger_set str_lower (default [] (fa !! s "description")) in
  let tr_b := trigger_set str_lower (default [] (fb !! s "description")) in
  jaccard kw_a kw_b = Some (kw_sim sc)
  ∧ jaccard (extract_tools fa) (extract_tools fb) = Some (tl_sim sc)
  ∧ trig_overlap sc = tr_a ∩ tr_b
  ∧ kw_shared sc = kw_a ∩ kw_b
  ∧ score sc
    = (kw_sim sc * 0.5 + tl_sim sc * 0.2
       + (if bool_decide (tr_a ∩ tr_b ≠ ∅) then 0.3 else 0))%Q.
Proof.
  unfold pair_scores.
  destruct (jaccard (extract_keywords _ _) _) as [kw|]; simpl; [|done].
  destruct (jaccard (extract_tools _) _) as [tl|]; simpl; [|done].
  by intros [= <-].
Qed.

Lemma pair_scores_unit (str_lower : pystr → pystr) (fa fb : frontmatter)
    (sc : scores) :
  pair_scores str_lower fa fb = Some sc →
  (0 <= kw_sim sc <= 1)%Q ∧ (0 <= tl_sim sc <= 1)%Q
  ∧ (kw_sim sc * 0.5 <= score sc <= 1)%Q.
Proof.
  intros (Hkw%jaccard_unit & Htl%jaccard_unit & _ & _ & ->)%pair_scores_inv.
  split; [done|]. split; [done|]. destruct (bool_decide _); lra.
Qed.

Lemma StronglySorted_NoDup {A} (R : relation A) (l : list A) :
  (∀ x, ¬ R x x) → StronglySorted R l → NoDup l.
Proof.
  intros Hirr. induction 1 as [|x l _ IH Hx]; constructor; [|done].
  rewrite Forall_forall in Hx. intros Hin. by apply (Hirr x), Hx.
Qed.

Lemma pair_lt_irrefl (p : pystr * pystr) : ¬ pair_lt p p.
Proof. intros [?|[_ ?]]; by eapply str_lt_irrefl. Qed.

Lemma length_combinations2 {A} (l : list A) :
  2 * length (combinations2 l) = length l * (length l - 1).
Proof.
  induction l as [|x l IH]; simpl; [done|].
  rewrite length_app, length_fmap. nia.
Qed.

Lemma emitted_pairs_sublist (str_lower : pystr → pystr)
    (skills : gmap pystr frontmatter) (l : list (pystr * pystr)) :
  pair <$> omap (emitted str_lower skills) l `sublist_of` l.
Proof.
  induction l as [|ab l IH]; simpl; [done|].
  destruct (emitted str_lower skills ab) as [r|] eqn:Hr.
  - rewrite fmap_cons, (emitted_pair _ _ _ _ Hr). by apply sublist_skip.
  - by apply sublist_cons.
Qed.

(** X8.  A corpus of no skill or of one skill has no overlap record and no
    cluster. *)
Theorem small_corpus_no_overlap (str_lower : pystr → pystr)
    (set_iter : gset pystr → list pystr)
    (skills : gmap pystr frontmatter) (t : Q) :
  (∀ X, set_iter X ≡ₚ elements X) →
  size skills ≤ 1 →
  compute_overlap str_lower skills = Some []
  ∧ main str_lower set_iter skills t
    = Some {| total_skills := size skills; overlaps := []; clusters := [] |}.
Proof.
  intros Hiter Hsize.
  assert (compute_overlap str_lower skills = Some []) as Hov.
  { rewrite compute_overlap_eq.
    assert (length (sorted str_leb (elements (dom skills))) ≤ 1) as Hlen.
    { rewrite sorted_perm.
      change (length (elements (dom skills))) with (size (dom skills)).
      by rewrite size_dom. }
    destruct (sorted str_leb (elements (dom skills))) as [|x [|y l]];
      simpl in *; [done|done|lia]. }
  split; [done|]. unfold main. rewrite Hov. simpl.
  unfold find_clusters, find_clusters_fuel. simpl.
  assert (set_iter (all_skills []) = []) as ->; [|done].
  apply Permutation_nil. rewrite Hiter. unfold all_skills. simpl.
  by rewrite elements_empty.
Qed.

Lemma small_corpus_no_overlap_witness :
  (∀ X, iter_up X ≡ₚ elements X)
  ∧ size ({[s "solo" := skill (s "Deploys apps") (s "kubectl")]}
          : gmap pystr frontmatter) ≤ 1
  ∧ main ascii_lower iter_up
      {[s "solo" := skill (s "Deploys apps") (s "kubectl")]} 0.25
    = Some {| total_skills := 1; overlaps := []; clusters := [] |}.
Proof.
  split; [exact iter_up_perm|].
  assert (size ({[s "solo" := skill (s "Deploys apps") (s "kubectl")]}
                : gmap pystr frontmatter) ≤ 1) as Hsize.
  { by rewrite map_size_singleton. }
  split; [exact Hsize|].
  destruct (small_corpus_no_overlap ascii_lower iter_up _ 0.25 iter_up_perm
              Hsize) as [_ ->].
  by rewrite map_size_singleton.
Defined.

(** X9.  The overlap list has at most one record for a pair of names, so
    no more than [n (n - 1) / 2] records for [n] skills, and the two names
    of a record are two different skills of the corpus. *)
Theorem overlap_pairs_unique (str_lower : pystr → pystr)
    (skills : gmap pystr frontmatter) :
  ∃ rs, compute_overlap str_lower skills = Some rs
    ∧ NoDup (pair <$> rs)
    ∧ 2 * length rs ≤ size skills * (size skills - 1)
    ∧ ∀ r, r ∈ rs →
        (pair r).1 ∈ dom skills ∧ (pair r).2 ∈ dom skills
        ∧ (pair r).1 ≠ (pair r).2.
Proof.
  eexists. split; [apply compute_overlap_eq|].
  set (names := sorted str_leb (elements (dom skills))).
  pose proof (emitted_pairs_sublist str_lower skills (combinations2 names))
    as Hsub.
  split; [|split].
  - rewrite sorted_perm. eapply sublist_NoDup; [|done].
    eapply StronglySorted_NoDup; [apply pair_lt_irrefl|].
    apply combinations2_pair_lt, names_sorted.
  - rewrite sorted_perm. apply sublist_length in Hsub.
    rewrite length_fmap in Hsub.
    pose proof (length_combinations2 names) as Hlen.
    assert (length names = size skills) as Hn.
    { unfold names. rewrite sorted_perm.
      change (length (elements (dom skills))) with (size (dom skills)).
      by rewrite size_dom. }
    rewrite Hn in Hlen. lia.
  - intros r Hr.
    apply (elem_of_compute_overlap str_lower skills _ r
             (compute_overlap_eq str_lower skills)) in Hr
      as (a & b & fa & fb & sc & Hlt & Hfa & Hfb & _ & _ & ->).
    simpl. rewrite !elem_of_dom, Hfa, Hfb.
    split; [done|]. split; [done|]. intros ->. by eapply str_lt_irrefl.
Qed.

Lemma StronglySorted_take {A} (R : relation A) (n : nat) (l : list A) :
  StronglySorted R l → StronglySorted R (take n l).
Proof.
  intros Hs. rewrite <- (take_drop n l) in Hs.
  by apply StronglySorted_app_1_l in Hs.
Qed.

(** X10.  The shared keywords of a record are keywords of both
    descriptions, in ascending order without repetition, ten at most; when
    the two descriptions share no more than ten keywords, all of them are
    listed. *)
Theorem shared_keywords_preview (str_lower : pystr → pystr)
    (skills : gmap pystr frontmatter) :
  ∃ rs, compute_overlap str_lower skills = Some rs
    ∧ ∀ r, r ∈ rs →
      ∃ fa fb,
        skills !! (pair r).1 = Some fa ∧ skills !! (pair r).2 = Some fb
        ∧ let kw_a := extract_keywords str_lower
                        (default [] (fa !! s "description")) in
          let kw_b := extract_keywords str_lower
                        (default [] (fb !! s "description")) in
          length (shared_keywords r) ≤ 10
          ∧ StronglySorted str_lt (shared_keywords r)
          ∧ (∀ w, w ∈ shared_keywords r → w ∈ kw_a ∧ w ∈ kw_b)
          ∧ (size (kw_a ∩ kw_b) ≤ 10 →
             ∀ w, w ∈ kw_a → w ∈ kw_b → w ∈ shared_keywords r).
Proof.
  eexists. split; [apply compute_overlap_eq|]. intros r Hr.
  apply (elem_of_compute_overlap str_lower skills _ r
           (compute_overlap_eq str_lower skills)) in Hr
    as (a & b & fa & fb & sc & _ & Hfa & Hfb & Hsc & _ & ->).
  exists fa, fb. split; [done|]. split; [done|]. simpl.
  destruct (pair_scores_inv _ _ _ _ Hsc) as (_ & _ & _ & -> & _).
  split; [|split; [|split]].
  - rewrite length_take. lia.
  - apply StronglySorted_take, sorted_set_lt.
  - intros w (i & Hw%list_elem_of_lookup_2 & _)%elem_of_take.
    apply elem_of_sorted_set in Hw. by apply elem_of_intersection.
  - intros Hsize w Ha Hb. rewrite take_ge.
    + apply elem_of_sorted_set. by apply elem_of_intersection.
    + by rewrite sorted_perm.
Qed.

(** X11.  The scores of a pair do not depend on the order of the two
    skills. *)
Theorem pair_scores_symmetric (str_lower : pystr → pystr)
    (fa fb : frontmatter) :
  pair_scores str_lower fa fb = pair_scores str_lower fb fa.
Proof.
  unfold pair_scores.
  set (ka := extract_keywords _ (default [] (fa !! _))).
  set (kb := extract_keywords _ (default [] (fb !! _))).
  set (ta := trigger_set _ (default [] (fa !! _))).
  set (tb := trigger_set _ (default [] (fb !! _))).
  rewrite (jaccard_comm kb ka), (comm_L (∩) tb ta), (comm_L (∩) kb ka).
  by rewrite (jaccard_comm (extract_tools fb) (extract_tools fa)).
Qed.

Lemma pair_scores_reads (str_lower : pystr → pystr)
    (fa fb fa' fb' : frontmatter) :
  fa !! s "description" = fa' !! s "description" →
  fa !! s "tools" = fa' !! s "tools" →
  fb !! s "description" = fb' !! s "description" →
  fb !! s "tools" = fb' !! s "tools" →
  pair_scores str_lower fa fb = pair_scores str_lower fa' fb'.
Proof.
  intros Hda Hta Hdb Htb. unfold pair_scores, extract_tools.
  by rewrite Hda, Hta, Hdb, Htb.
Qed.

(** X12.  The overlap list depends on the description and on the tools of
    each skill only: two corpora with the same names that agree on these
    two entries have the same overlap list, whatever their other
    entries. *)
Theorem overlap_reads_description_and_tools (str_lower : pystr → pystr)
    (skills skills' : gmap pystr frontmatter) :
  dom skills = dom skills' →
  (∀ name fm fm', skills !! name = Some fm → skills' !! name = Some fm' →
     fm !! s "description" = fm' !! s "description"
     ∧ fm !! s "tools" = fm' !! s "tools") →
  compute_overlap str_lower skills = compute_overlap str_lower skills'.
Proof.
  intros Hdom Hagree. rewrite !compute_overlap_eq, <- Hdom. do 2 f_equal.
  apply list_omap_ext, Forall2_same_length_lookup.
  split; [done|]. intros i [a b] ab' Hab Hab'. simplify_eq.
  unfold emitted. simpl.
  destruct (skills !! a) as [fa|] eqn:Hfa.
  2:{ apply not_elem_of_dom in Hfa. rewrite Hdom in Hfa.
      apply not_elem_of_dom in Hfa. by rewrite Hfa. }
  destruct (skills' !! a) as [fa'|] eqn:Hfa'.
  2:{ apply not_elem_of_dom in Hfa'. rewrite <- Hdom in Hfa'.
      apply not_elem_of_dom in Hfa'. congruence. }
  simpl.
  destruct (skills !! b) as [fb|] eqn:Hfb.
  2:{ apply not_elem_of_dom in Hfb. rewrite Hdom in Hfb.
      apply not_elem_of_dom in Hfb. by rewrite Hfb. }
  destruct (skills' !! b) as [fb'|] eqn:Hfb'.
  2:{ apply not_elem_of_dom in Hfb'. rewrite <- Hdom in Hfb'.
      apply not_elem_of_dom in Hfb'. congruence. }
  simpl.
  destruct (Hagree _ _ _ Hfa Hfa') as [? ?].
  destruct (Hagree _ _ _ Hfb Hfb') as [? ?].
  by rewrite (pair_scores_reads str_lower fa fb fa' fb').
Qed.

Lemma overlap_reads_description_and_tools_witness :
  compute_overlap ascii_lower corpus_deploy
  = compute_overlap ascii_lower
      (<[s "version" := s "1.0"]> <$> corpus_deploy).
Proof.
  apply overlap_reads_description_and_tools.
  - by rewrite dom_fmap_L.
  - intros name fm fm' Hfm. rewrite lookup_fmap, Hfm. intros [= <-].
    by rewrite !lookup_insert_ne.
Defined.

(** ** More on the clusters *)

Lemma size_two (c : gset pystr) (x y : pystr) :
  x ∈ c → y ∈ c → x ≠ y → 1 < size c.
Proof.
  intros Hx Hy Hne.
  assert ({[x]} ∪ {[y]} ⊆ c) as Hsub.
  { intros z [->%elem_of_singleton| ->%elem_of_singleton]%elem_of_union;
      done. }
  apply subseteq_size in Hsub.
  rewrite size_union, !size_singleton in Hsub; [lia|].
  intros z ->%elem_of_singleton ?%elem_of_singleton. done.
Qed.

Lemma connected_equiv (overlaps : list overlap) (t : Q) :
  Equivalence (connected overlaps t).
Proof. unfold connected. apply _. Qed.

Section MoreClusters.
Variable set_iter : gset pystr → list pystr.
Hypothesis set_iter_perm : ∀ X, set_iter X ≡ₚ elements X.

(** What [find_clusters] returns, with the forest and the groups it was
    read from. *)
Lemma find_clusters_groups (overlaps : list overlap) (t : Q) :
  ∃ parent groups,
    find_clusters set_iter overlaps t
    = Some (filter (λ c, 1 < size c) groups.*2)
    ∧ uf_inv (edge overlaps t) (length overlaps) parent
    ∧ groups_inv parent (all_skills overlaps) groups.
Proof.
  unfold find_clusters, find_clusters_fuel.
  destruct (union_loop_returns (S (length overlaps)) t overlaps [] ∅)
    as (parent & Hunion & Hinv); simpl.
  { apply uf_inv_empty. by intros x y (o & ?%elem_of_nil & _). }
  { lia. }
  simpl in Hunion, Hinv. rewrite Hunion. simpl.
  destruct (group_loop_returns _ _ (S (length overlaps))
              (set_iter (all_skills overlaps)) parent ∅ [] Hinv)
    as (parent' & groups & Hloop & Hinv' & Hg).
  { lia. }
  { split; [constructor|]. split.
    - by intros r c ?%elem_of_nil.
    - by intros x r ?%not_elem_of_empty. }
  rewrite Hloop. simpl.
  rewrite (set_iter_set set_iter set_iter_perm), (left_id_L ∅ (∪)) in Hg.
  by exists parent', groups.
Qed.

Lemma find_clusters_NoDup (overlaps : list overlap) (t : Q) :
  ∃ cl, find_clusters set_iter overlaps t = Some cl ∧ NoDup cl.
Proof.
  destruct (find_clusters_groups overlaps t)
    as (parent & groups & -> & _ & Hnd & Hmem & _).
  eexists. split; [done|].
  induction groups as [|[r c] groups IH]; [constructor|].
  apply NoDup_cons in Hnd as [Hr Hnd]. rewrite fmap_cons. simpl.
  assert (NoDup (filter (λ c, 1 < size c) groups.*2)) as IH'.
  { apply IH; [done|]. intros r' c' Hin. apply Hmem. by right. }
  rewrite filter_cons. case_decide as Hsize; [|done].
  apply NoDup_cons. split; [|done].
  intros [_ ([r' c'] & Hc & Hin)%list_elem_of_fmap]%list_elem_of_filter.
  simpl in Hc. subst c'.
  destruct (size_pos_elem_of c) as [x Hx]; [lia|].
  apply (Hmem r c) in Hx as Hx1; [|left]. destruct Hx1 as [_ Hxr].
  apply (Hmem r' c) in Hx as Hx2; [|by right]. destruct Hx2 as [_ Hxr'].
  apply Hr. rewrite (root_of_det _ _ _ _ Hxr Hxr').
  apply list_elem_of_fmap. by exists (r', c).
Qed.

Lemma find_clusters_share (overlaps : list overlap) (t : Q)
    (cl : list (gset pystr)) (c1 c2 : gset pystr) (x : pystr) :
  find_clusters set_iter overlaps t = Some cl →
  c1 ∈ cl → c2 ∈ cl → x ∈ c1 → x ∈ c2 → c1 = c2.
Proof.
  destruct (find_clusters_returns set_iter set_iter_perm overlaps t)
    as (cl' & -> & Hc & _).
  intros [= <-] Hin1 Hin2 Hx1 Hx2.
  destruct (Hc c1 Hin1) as (_ & x1 & _ & Hmem1).
  destruct (Hc c2 Hin2) as (_ & x2 & _ & Hmem2).
  pose proof (connected_equiv overlaps t) as Heq.
  apply Hmem1 in Hx1 as [_ Hx1]. apply Hmem2 in Hx2 as [_ Hx2].
  apply set_eq. intros y. rewrite Hmem1, Hmem2.
  split; intros [? Hy]; (split; [done|]).
  - transitivity x; [exact Hx2|]. transitivity x1; [by symmetry|exact Hy].
  - transitivity x; [exact Hx1|]. transitivity x2; [by symmetry|exact Hy].
Qed.

Lemma connected_stays (overlaps : list overlap) (t : Q) (x y : pystr) :
  connected overlaps t x y → x ≠ y →
  x ∈ all_skills overlaps ∧ y ∈ all_skills overlaps.
Proof.
  intros Hxy.
  assert (x = y ∨ (x ∈ all_skills overlaps ∧ y ∈ all_skills overlaps))
    as [?|?]; [|done|done].
  induction Hxy as [|x z y Hxz _ IH]; [by left|]. right.
  assert (x ∈ all_skills overlaps ∧ z ∈ all_skills overlaps) as [Hx Hz].
  { rewrite !elem_of_all_skills.
    destruct Hxz as [(o & Ho & _ & Hp)|(o & Ho & _ & Hp)];
      split; exists o; rewrite Hp; auto. }
  split; [done|]. by destruct IH as [<-|[_ ?]].
Qed.

Lemma find_clusters_joins (overlaps : list overlap) (t : Q)
    (cl : list (gset pystr)) (x y : pystr) :
  find_clusters set_iter overlaps t = Some cl →
  x ≠ y → connected overlaps t x y → ∃ c, c ∈ cl ∧ x ∈ c ∧ y ∈ c.
Proof.
  destruct (find_clusters_returns set_iter set_iter_perm overlaps t)
    as (cl' & -> & _ & Hall).
  intros [= <-] Hne Hxy.
  destruct (connected_stays _ _ _ _ Hxy Hne) as [Hx Hy].
  pose proof (connected_equiv overlaps t) as Heq.
  destruct (Hall x Hx) as (c & Hmem & Hin).
  assert (x ∈ c) as Hxc.
  { apply Hmem. split; [done|]. reflexivity. }
  assert (y ∈ c) as Hyc.
  { apply Hmem. by split. }
  exists c. split; [|done]. apply Hin. by apply (size_two c x y).
Qed.

(** X13.  The clusters are pairwise disjoint, and no cluster is listed
    twice: a skill is in one cluster at most. *)
Theorem clusters_disjoint (overlaps : list overlap) (t : Q) :
  ∃ cl, find_clusters set_iter overlaps t = Some cl
    ∧ NoDup cl
    ∧ ∀ c1 c2 x, c1 ∈ cl → c2 ∈ cl → x ∈ c1 → x ∈ c2 → c1 = c2.
Proof.
  destruct (find_clusters_NoDup overlaps t) as (cl & Hcl & Hnd).
  exists cl. split; [done|]. split; [done|].
  intros c1 c2 x. by apply find_clusters_share with overlaps t.
Qed.

(** X14.  The clusters are maximal: two different names that are joined by
    a chain of records at or above the threshold are in one cluster; so are
    the two names of any such record. *)
Theorem clusters_maximal (overlaps : list overlap) (t : Q) :
  ∃ cl, find_clusters set_iter overlaps t = Some cl
    ∧ (∀ x y, x ≠ y → connected overlaps t x y →
         ∃ c, c ∈ cl ∧ x ∈ c ∧ y ∈ c)
    ∧ (∀ o, o ∈ overlaps → (t <= composite o)%Q →
         (pair o).1 ≠ (pair o).2 →
         ∃ c, c ∈ cl ∧ (pair o).1 ∈ c ∧ (pair o).2 ∈ c).
Proof.
  destruct (find_clusters_NoDup overlaps t) as (cl & Hcl & _).
  exists cl. split; [done|]. split.
  - intros x y. by apply find_clusters_joins.
  - intros o Ho Ht Hne. apply (find_clusters_joins overlaps t); [done|done|].
    apply rtsc_lr. exists o. by destruct (pair o).
Qed.

(** X15.  There is no cluster exactly when no record at or above the
    threshold has two different names: for instance when the list is empty
    or the threshold is above every composite. *)
Theorem no_cluster_iff (overlaps : list overlap) (t : Q) :
  ∃ cl, find_clusters set_iter overlaps t = Some cl
    ∧ (cl = [] ↔
       ∀ o, o ∈ overlaps → (t <= composite o)%Q → (pair o).1 = (pair o).2).
Proof.
  destruct (find_clusters_returns set_iter set_iter_perm overlaps t)
    as (cl & Hcl & Hc & Hall).
  pose proof (connected_equiv overlaps t) as Heq.
  exists cl. split; [done|]. split.
  - intros -> o Ho Ht. destruct (decide ((pair o).1 = (pair o).2)) as [|Hne];
      [done|].
    destruct (Hall (pair o).1) as (c & Hmem & Hin).
    { apply elem_of_all_skills. exists o. auto. }
    exfalso. eapply not_elem_of_nil, Hin.
    apply (size_two c (pair o).1 (pair o).2); [| |done].
    + apply Hmem. split; [|reflexivity].
      apply elem_of_all_skills. exists o. auto.
    + apply Hmem. split.
      * apply elem_of_all_skills. exists o. auto.
      * apply rtsc_lr. exists o. by destruct (pair o).
  - intros Hloop.
    assert (∀ x y, connected overlaps t x y → x = y) as Hsame.
    { intros x y Hxy. induction Hxy as [|x z y Hxz _ IH]; [done|].
      rewrite <- IH.
      destruct Hxz as [(o & Ho & Ht & Hp)|(o & Ho & Ht & Hp)];
        specialize (Hloop o Ho Ht); rewrite Hp in Hloop; done. }
    destruct cl as [|c cl]; [done|]. exfalso.
    destruct (Hc c) as (Hsize & x & _ & Hmem); [left|].
    assert (c ⊆ {[x]}) as Hsub.
    { intros y [_ <-%Hsame]%Hmem. by apply elem_of_singleton. }
    apply subseteq_size in Hsub. rewrite size_singleton in Hsub. lia.
Qed.
End MoreClusters.

Lemma clusters_disjoint_witness :
  (∀ X, iter_up X ≡ₚ elements X)
  ∧ find_clusters iter_up (overlaps_chain ++ [link "e" "f" 0.9]) 0.25
    = Some [{[s "a"; s "b"; s "c"]}; {[s "e"; s "f"]}]
  ∧ ∃ cl, find_clusters iter_up (overlaps_chain ++ [link "e" "f" 0.9]) 0.25
          = Some cl
      ∧ NoDup cl
      ∧ ∀ c1 c2 x, c1 ∈ cl → c2 ∈ cl → x ∈ c1 → x ∈ c2 → c1 = c2.
Proof.
  split; [exact iter_up_perm|]. split; [by vm_compute|].
  apply (clusters_disjoint iter_up iter_up_perm).
Defined.

Lemma clusters_maximal_witness :
  (∀ X, iter_up X ≡ₚ elements X)
  ∧ ∃ cl, find_clusters iter_up overlaps_chain 0.25 = Some cl
      ∧ ∀ o, o ∈ overlaps_chain → (0.25 <= composite o)%Q →
          (pair o).1 ≠ (pair o).2 →
          ∃ c, c ∈ cl ∧ (pair o).1 ∈ c ∧ (pair o).2 ∈ c.
Proof.
  split; [exact iter_up_perm|].
  destruct (clusters_maximal iter_up iter_up_perm overlaps_chain 0.25)
    as (cl & Hcl & _ & Hedge).
  by exists cl.
Defined.

Lemma no_cluster_iff_witness :
  (∀ X, iter_up X ≡ₚ elements X)
  ∧ find_clusters iter_up overlaps_chain 0.6 = Some []
  ∧ ∃ cl, find_clusters iter_up overlaps_chain 0.6 = Some cl
      ∧ (cl = [] ↔
         ∀ o, o ∈ overlaps_chain → (0.6 <= composite o)%Q →
              (pair o).1 = (pair o).2).
Proof.
  split; [exact iter_up_perm|]. split; [by vm_compute|].
  apply (no_cluster_iff iter_up iter_up_perm).
Defined.

(** ** [find] and [union] on a forest *)

Lemma forest_uf_inv (k : nat) (parent : gmap pystr pystr) :
  forest k parent → uf_inv (same_root parent) k parent.
Proof.
  intros Hforest. split; [done|]. split; [|done].
  intros x r [n Hx]. apply rtsc_lr. exists r. split; [by exists n|].
  exists 0. apply path_root. by eapply path_end_root.
Qed.

Lemma same_root_equiv (k : nat) (parent : gmap pystr pystr) :
  forest k parent → Equivalence (same_root parent).
Proof.
  intros Hforest. split.
  - intros x. destruct (Hforest x) as (r & n & _ & Hx).
    exists r. split; by exists n.
  - intros x y (r & ? & ?). by exists r.
  - intros x y z (r & Hx & Hy) (r' & Hy' & Hz).
    rewrite <- (root_of_det _ _ _ _ Hy Hy') in Hz. by exists r.
Qed.

(** X16.  On a forest, and with fuel for its longest chain, [find] returns
    the root of the name; the dictionary it leaves is a forest with no
    longer chains in which every name has the root it had. *)
Theorem find_keeps_roots (k fuel : nat) (parent : gmap pystr pystr)
    (x : pystr) :
  forest k parent → k < fuel →
  ∃ parent' r,
    find fuel parent x = Some (parent', r)
    ∧ root_of parent x r
    ∧ default r (parent' !! r) = r
    ∧ forest k parent'
    ∧ ∀ z rz, root_of parent z rz ↔ root_of parent' z rz.
Proof.
  intros Hforest Hk. destruct (Hforest x) as (r & n & Hn & Hx).
  destruct (find_returns fuel _ _ _ _ Hx ltac:(lia)) as (parent' & Hfind & Hc).
  exists parent', r. split; [done|]. split; [by exists n|].
  pose proof (forest_uf_inv _ _ Hforest) as Hinv.
  split; [|split].
  - destruct (Hc _ _ _ Hx) as (n' & _ & Hx'). by eapply path_end_root.
  - by destruct (uf_inv_compresses _ _ _ _ Hinv Hc) as [? _].
  - intros z rz. by apply (root_of_compresses _ _ _ _ _ _ Hinv Hc).
Qed.

Lemma find_keeps_roots_witness :
  let parent : gmap pystr pystr :=
    {[s "a" := s "b"; s "b" := s "c"; s "c" := s "d"]} in
  forest 3 parent ∧ 3 < 4
  ∧ find 4 parent (s "a")
    = Some ({[s "a" := s "c"; s "b" := s "c"; s "c" := s "d"]}, s "d")
  ∧ ∃ parent' r, find 4 parent (s "a") = Some (parent', r)
                 ∧ root_of parent (s "a") r.
Proof.
  intros parent.
  assert (path parent (s "d") (s "d") 0) as Hd.
  { apply path_root. reflexivity. }
  assert (path parent (s "c") (s "d") 1) as Hc.
  { eapply path_step; [reflexivity|discriminate|exact Hd]. }
  assert (path parent (s "b") (s "d") 2) as Hb.
  { eapply path_step; [reflexivity|discriminate|exact Hc]. }
  assert (path parent (s "a") (s "d") 3) as Ha.
  { eapply path_step; [reflexivity|discriminate|exact Hb]. }
  assert (forest 3 parent) as Hforest.
  { intros x.
    destruct (decide (x = s "a")) as [->|?]; [by eexists _, _|].
    destruct (decide (x = s "b")) as [->|?]; [eexists _, _; split; [|done]; lia|].
    destruct (decide (x = s "c")) as [->|?]; [eexists _, _; split; [|done]; lia|].
    exists x, 0. split; [lia|]. apply path_root.
    unfold parent.
    by rewrite !lookup_insert_ne, lookup_singleton_ne by done. }
  split; [exact Hforest|]. split; [lia|]. split; [by vm_compute|].
  destruct (find_keeps_roots 3 4 parent (s "a") Hforest ltac:(lia))
    as (parent' & r & Hfind & Hr & _).
  by exists parent', r.
Defined.

(** X17.  On a forest, and with fuel for its longest chain, [union] joins
    two classes and nothing else: afterwards two names have the same root
    exactly when they had, or when one had the root of [x] and the other
    the root of [y].  The chains grow by one link at most. *)
Theorem union_merges (k fuel : nat) (parent : gmap pystr pystr)
    (x y : pystr) :
  forest k parent → k < fuel →
  ∃ parent',
    union fuel parent x y = Some parent'
    ∧ forest (S k) parent'
    ∧ ∀ a b,
        same_root parent' a b ↔
        same_root parent a b
        ∨ (same_root parent a x ∧ same_root parent y b)
        ∨ (same_root parent a y ∧ same_root parent x b).
Proof.
  intros Hforest Hk.
  pose proof (same_root_equiv _ _ Hforest) as Heq.
  destruct (union_returns _ _ fuel _ x y (forest_uf_inv _ _ Hforest) Hk)
    as (parent' & Hunion & Hinv).
  exists parent'. split; [done|].
  pose proof Hinv as (Hforest' & _). split; [done|].
  intros a b.
  assert (same_root parent' a b
          ↔ rtsc (λ a b, same_root parent a b ∨ (a = x ∧ b = y)) a b) as ->.
  { destruct (Hforest' a) as (r & n & _ & Ha).
    rewrite (uf_inv_connected _ _ _ a b r Hinv (ex_intro _ n Ha)). split.
    - intros (r' & Ha' & Hb).
      by rewrite (root_of_det _ _ _ _ (ex_intro _ n Ha) Ha').
    - intros Hb. exists r. split; [by exists n|done]. }
  split.
  - induction 1 as [a|a c b Hac _ IH]; [left; reflexivity|].
    destruct Hac as [[Hac|[-> ->]]|[Hca|[-> ->]]].
    + destruct IH as [?|[[??]|[??]]].
      * left. by transitivity c.
      * right. left. split; [by transitivity c|done].
      * right. right. split; [by transitivity c|done].
    + destruct IH as [?|[[??]|[??]]].
      * right. left. split; [reflexivity|done].
      * left. transitivity y; [by symmetry|done].
      * by left.
    + symmetry in Hca. destruct IH as [?|[[??]|[??]]].
      * left. by transitivity c.
      * right. left. split; [by transitivity c|done].
      * right. right. split; [by transitivity c|done].
    + destruct IH as [?|[[??]|[??]]].
      * right. right. split; [reflexivity|done].
      * by left.
      * left. transitivity x; [by symmetry|done].
  - intros [Hab|[[Hax Hyb]|[Hay Hxb]]].
    + apply rtsc_lr. by left.
    + transitivity x; [apply rtsc_lr; by left|].
      transitivity y; [apply rtsc_lr; by right|apply rtsc_lr; by left].
    + transitivity y; [apply rtsc_lr; by left|].
      transitivity x; [apply rtsc_rl; by right|apply rtsc_lr; by left].
Qed.

Lemma union_merges_witness :
  forest 0 ∅ ∧ 0 < 1
  ∧ union 1 ∅ (s "a") (s "b") = Some {[s "a" := s "b"]}
  ∧ ∃ parent', union 1 ∅ (s "a") (s "b") = Some parent'
               ∧ same_root parent' (s "a") (s "b").
Proof.
  assert (forest 0 ∅) as Hforest.
  { intros x. exists x, 0. split; [lia|]. by apply path_root. }
  split; [exact Hforest|]. split; [lia|]. split; [by vm_compute|].
  destruct (union_merges 0 1 ∅ (s "a") (s "b") Hforest ltac:(lia))
    as (parent' & Hunion & _ & Hsame).
  exists parent'. split; [done|]. apply Hsame. right. left.
  destruct (same_root_equiv _ _ Hforest). split; reflexivity.
Defined.

(** ** The printed object *)

Lemma sorted_set_inj (c1 c2 : gset pystr) :
  sorted str_leb (elements c1) = sorted str_leb (elements c2) → c1 = c2.
Proof.
  intros Heq. apply set_eq. intros x.
  by rewrite <- !elem_of_sorted_set, Heq.
Qed.

Section Report.
Variable set_iter : gset pystr → list pystr.
Hypothesis set_iter_perm : ∀ X, set_iter X ≡ₚ elements X.
Variable str_lower : pystr → pystr.
Variable skills : gmap pystr frontmatter.
Variable t : Q.

Lemma main_returns :
  ∃ rs cl,
    compute_overlap str_lower skills = Some rs
    ∧ find_clusters set_iter rs t = Some cl
    ∧ NoDup cl
    ∧ main str_lower set_iter skills t
      = Some {| total_skills := size skills; overlaps := rs;
                clusters := (λ c, sorted str_leb (elements c)) <$> cl |}.
Proof.
  unfold main. rewrite compute_overlap_eq. simpl.
  destruct (find_clusters_NoDup set_iter set_iter_perm
              (sorted composite_geb
                 (omap (emitted str_lower skills)
                    (combinations2 (sorted str_leb (elements (dom skills))))))
              t) as (cl & Hcl & Hnd).
  rewrite Hcl. simpl. by eexists _, cl.
Qed.

Lemma main_clusters_NoDup (rep : report) :
  main str_lower set_iter skills t = Some rep → NoDup (clusters rep).
Proof.
  destruct main_returns as (rs & cl & _ & _ & Hnd & Hmain).
  rewrite Hmain. intros [= <-]. simpl.
  apply NoDup_fmap_2_strong; [|done].
  intros c1 c2 _ _. apply sorted_set_inj.
Qed.

(** Two skills whose pair passes both thresholds are in one cluster of the
    printed object. *)
Lemma scored_pair_clustered (a b : pystr) (fa fb : frontmatter)
    (sc : scores) :
  skills !! a = Some fa → skills !! b = Some fb → a ≠ b →
  pair_scores str_lower fa fb = Some sc →
  (0.15 < score sc)%Q → (t <= round (score sc) 3)%Q →
  ∃ rep c, main str_lower set_iter skills t = Some rep
           ∧ c ∈ clusters rep ∧ a ∈ c ∧ b ∈ c.
Proof.
  intros Hfa Hfb Hne Hsc Hgt Ht.
  destruct main_returns as (rs & cl & Hrs & Hcl & _ & Hmain).
  assert (connected rs t a b) as Hconn.
  { destruct (str_lt_total a b Hne) as [Hlt|Hlt].
    - apply rtsc_lr. exists (overlap_of a b sc). split; [|done].
      apply (elem_of_compute_overlap str_lower skills rs _ Hrs).
      by exists a, b, fa, fb, sc.
    - destruct (pair_scores_sym _ _ _ _ Hsc) as (sc' & Hsc' & Heq).
      apply rtsc_rl. exists (overlap_of b a sc'). split.
      + apply (elem_of_compute_overlap str_lower skills rs _ Hrs).
        exists b, a, fb, fa, sc'. by rewrite Heq.
      + simpl. by rewrite Heq. }
  destruct (find_clusters_joins set_iter set_iter_perm rs t cl a b Hcl Hne
              Hconn) as (c & Hc & Ha & Hb).
  eexists _, (sorted str_leb (elements c)). split; [exact Hmain|]. simpl.
  split; [|by rewrite !elem_of_sorted_set].
  apply list_elem_of_fmap. by exists c.
Qed.

(** X18.  [main] prints, for every corpus: the number of skills; the list
    [compute_overlap] returns; and clusters that are lists of two names or
    more, in ascending order without repetition, of skills of the corpus,
    no name being in two clusters. *)
Theorem report_shape :
  ∃ rep,
    main str_lower set_iter skills t = Some rep
    ∧ total_skills rep = size skills
    ∧ compute_overlap str_lower skills = Some (overlaps rep)
    ∧ NoDup (clusters rep)
    ∧ ∀ c, c ∈ clusters rep →
        2 ≤ length c
        ∧ StronglySorted str_lt c
        ∧ (∀ x, x ∈ c → x ∈ dom skills)
        ∧ (∀ c' x, c' ∈ clusters rep → x ∈ c → x ∈ c' → c = c').
Proof.
  destruct main_returns as (rs & cl & Hrs & Hcl & Hnd & Hmain).
  eexists. split; [exact Hmain|]. simpl.
  split; [done|]. split; [done|]. split.
  { apply NoDup_fmap_2_strong; [|done].
    intros c1 c2 _ _. apply sorted_set_inj. }
  intros ? (c & -> & Hc)%list_elem_of_fmap.
  destruct (find_clusters_returns set_iter set_iter_perm rs t)
    as (cl' & Hcl' & Hchar & _).
  rewrite Hcl in Hcl'. injection Hcl' as <-.
  destruct (Hchar c Hc) as (Hsize & x0 & _ & Hmem).
  split; [|split; [|split]].
  - rewrite sorted_perm. change (length (elements c)) with (size c). lia.
  - apply sorted_set_lt.
  - intros x [Hx _]%elem_of_sorted_set%Hmem.
    apply elem_of_all_skills in Hx as (o & Ho & Hxo).
    apply (elem_of_compute_overlap str_lower skills rs _ Hrs) in Ho
      as (a & b & fa & fb & sc & _ & Hfa & Hfb & _ & _ & ->).
    simpl in Hxo. rewrite elem_of_dom.
    destruct Hxo as [-> | ->]; by eexists.
  - intros ? x (c' & -> & Hc')%list_elem_of_fmap Hx Hx'.
    rewrite elem_of_sorted_set in Hx, Hx'.
    by rewrite (find_clusters_share set_iter set_iter_perm rs t cl c c' x).
Qed.

(** X19.  Two skills that share a quoted phrase, letter case apart, are in
    one cluster whenever the cluster threshold is 0.3 or less, as the
    default 0.25 is: the shared phrase alone brings the composite to
    0.3. *)
Theorem shared_trigger_clustered (a b : pystr) (fa fb : frontmatter)
    (ta tb : pystr) :
  skills !! a = Some fa → skills !! b = Some fb → a ≠ b →
  ta ∈ extract_triggers (default [] (fa !! s "description")) →
  tb ∈ extract_triggers (default [] (fb !! s "description")) →
  str_lower ta = str_lower tb →
  (t <= 0.3)%Q →
  ∃ rep c, main str_lower set_iter skills t = Some rep
           ∧ c ∈ clusters rep ∧ a ∈ c ∧ b ∈ c.
Proof.
  intros Hfa Hfb Hne Hta Htb Heq Ht.
  destruct (pair_scores_returns str_lower fa fb) as [sc Hsc].
  assert (0.3 <= score sc)%Q as Hbonus.
  { apply (pair_scores_bonus _ _ _ _ Hsc).
    rewrite (pair_scores_trig_overlap _ _ _ _ Hsc). unfold trigger_set.
    intros He. apply (not_elem_of_empty (C:=gset pystr) (str_lower ta)).
    rewrite <- He.
    rewrite elem_of_intersection, !elem_of_list_to_set, !list_elem_of_fmap.
    split; [by exists ta|by exists tb]. }
  apply (scored_pair_clustered a b fa fb sc); try done.
  - lra.
  - pose proof (round_mono 0.3 (score sc) 3 Hbonus) as Hr.
    change (round 0.3 3) with (3 # 10)%Q in Hr. lra.
Qed.

(** X20.  Two skills with the same description, if it has a keyword at all,
    are in one cluster whenever the cluster threshold is 0.5 or less: their
    keyword similarity is 1. *)
Theorem same_description_clustered (a b : pystr) (fa fb : frontmatter) :
  skills !! a = Some fa → skills !! b = Some fb → a ≠ b →
  fa !! s "description" = fb !! s "description" →
  extract_keywords str_lower (default [] (fa !! s "description")) ≠ ∅ →
  (t <= 0.5)%Q →
  ∃ rep c, main str_lower set_iter skills t = Some rep
           ∧ c ∈ clusters rep ∧ a ∈ c ∧ b ∈ c.
Proof.
  intros Hfa Hfb Hne Hdesc Hkw Ht.
  destruct (pair_scores_returns str_lower fa fb) as [sc Hsc].
  destruct (pair_scores_unit _ _ _ _ Hsc) as (_ & _ & [Hlo _]).
  assert (kw_sim sc == 1)%Q as Hone.
  { destruct (pair_scores_inv _ _ _ _ Hsc) as (Hj & _).
    rewrite <- Hdesc in Hj.
    destruct (jaccard_cases
                (extract_keywords str_lower
                   (default [] (fa !! s "description")))
                (extract_keywords str_lower
                   (default [] (fa !! s "description"))))
      as [(He & _)|[_ Hdiv]]; [done|].
    rewrite Hdiv, (idemp_L (∩)), (idemp_L (∪)) in Hj.
    rewrite (truediv_Qeq _ _ _ 1 Hj). lia. }
  rewrite Hone in Hlo.
  apply (scored_pair_clustered a b fa fb sc); try done.
  - lra.
  - pose proof (round_mono 0.5 (score sc) 3 ltac:(lra)) as Hr.
    change (round 0.5 3) with (1 # 2)%Q in Hr. lra.
Qed.
End Report.

(** X21.  The order in which the interpreter iterates over a set changes
    nothing in what [main] prints but the order of the clusters: under two
    orders the number of skills and the overlap list are the same, and the
    clusters of one are the clusters of the other, rearranged. *)
Theorem report_up_to_cluster_order
    (set_iter1 set_iter2 : gset pystr → list pystr)
    (str_lower : pystr → pystr) (skills : gmap pystr frontmatter) (t : Q) :
  (∀ X, set_iter1 X ≡ₚ elements X) →
  (∀ X, set_iter2 X ≡ₚ elements X) →
  ∃ r1 r2,
    main str_lower set_iter1 skills t = Some r1
    ∧ main str_lower set_iter2 skills t = Some r2
    ∧ total_skills r1 = total_skills r2
    ∧ overlaps r1 = overlaps r2
    ∧ clusters r1 ≡ₚ clusters r2.
Proof.
  intros Hp1 Hp2.
  destruct (main_up_to_cluster_order set_iter1 set_iter2 str_lower skills t
              Hp1 Hp2) as (r1 & r2 & H1 & H2 & Ht & Ho & Hc).
  exists r1, r2. repeat (split; [done|]).
  apply NoDup_Permutation; [| |exact Hc].
  - exact (main_clusters_NoDup set_iter1 Hp1 str_lower skills t r1 H1).
  - exact (main_clusters_NoDup set_iter2 Hp2 str_lower skills t r2 H2).
Qed.

Lemma report_shape_witness :
  (∀ X, iter_up X ≡ₚ elements X)
  ∧ ∃ rep,
      main ascii_lower iter_up corpus_two 0.25 = Some rep
      ∧ total_skills rep = size corpus_two
      ∧ compute_overlap ascii_lower corpus_two = Some (overlaps rep)
      ∧ NoDup (clusters rep)
      ∧ ∀ c, c ∈ clusters rep →
          2 ≤ length c
          ∧ StronglySorted str_lt c
          ∧ (∀ x, x ∈ c → x ∈ dom corpus_two)
          ∧ (∀ c' x, c' ∈ clusters rep → x ∈ c → x ∈ c' → c = c').
Proof.
  split; [exact iter_up_perm|].
  exact (report_shape iter_up iter_up_perm ascii_lower corpus_two 0.25).
Defined.

Lemma shared_trigger_clustered_witness :
  (∀ X, iter_up X ≡ₚ elements X)
  ∧ ∃ rep c, main ascii_lower iter_up corpus_deploy 0.25 = Some rep
             ∧ c ∈ clusters rep ∧ s "a" ∈ c ∧ s "b" ∈ c.
Proof.
  split; [exact iter_up_perm|].
  apply (shared_trigger_clustered iter_up iter_up_perm ascii_lower
           corpus_deploy 0.25 (s "a") (s "b") deploy_a deploy_b
           (s "deploy app") (s "deploy app")); try reflexivity.
  - discriminate.
  - by left.
  - by left.
  - by vm_compute.
Defined.

Lemma same_description_clustered_witness :
  let fm := skill (s "Deploys apps to clusters") [] in
  let skills : gmap pystr frontmatter := {[s "a" := fm; s "b" := fm]} in
  (∀ X, iter_up X ≡ₚ elements X)
  ∧ ∃ rep c, main ascii_lower iter_up skills 0.5 = Some rep
             ∧ c ∈ clusters rep ∧ s "a" ∈ c ∧ s "b" ∈ c.
Proof.
  intros fm skills. split; [exact iter_up_perm|].
  apply (same_description_clustered iter_up iter_up_perm ascii_lower
           skills 0.5 (s "a") (s "b") fm fm); try reflexivity.
  - discriminate.
  - apply (non_empty_inhabited_L (s "deploys")).
    refine (bool_decide_unpack _ _). by vm_compute.
  - by vm_compute.
Defined.

Lemma report_up_to_cluster_order_witness :
  (∀ X, iter_up X ≡ₚ elements X) ∧ (∀ X, iter_down X ≡ₚ elements X)
  ∧ ∃ r1 r2,
      main ascii_lower iter_up corpus_two 0.25 = Some r1
      ∧ main ascii_lower iter_down corpus_two 0.25 = Some r2
      ∧ total_skills r1 = total_skills r2
      ∧ overlaps r1 = overlaps r2
      ∧ clusters r1 ≡ₚ clusters r2.
Proof.
  split; [exact iter_up_perm|]. split; [exact iter_down_perm|].
  exact (report_up_to_cluster_order iter_up iter_down ascii_lower corpus_two
           0.25 iter_up_perm iter_down_perm).
Defined.

(** ** The fences of the frontmatter *)

Lemma startswith_spec (p x : pystr) :
  startswith p x = true ↔ ∃ rest, x = p ++ rest.
Proof.
  revert x. induction p as [|c p IH]; intros x; simpl.
  { split; [by exists x|done]. }
  destruct x as [|d x].
  { split; [done|by intros [? ?]]. }
  rewrite andb_true_iff, N.eqb_eq, IH. split.
  - intros [-> [rest ->]]. by exists rest.
  - intros [rest [= -> ->]]. split; [done|by exists rest].
Qed.

Lemma startswith_app (p rest : pystr) : startswith p (p ++ rest) = true.
Proof. apply startswith_spec. by exists rest. Qed.

Lemma elem_of_after_blank (text rest : pystr) :
  rest ∈ after_blank text ↔
  ∃ ws, text = ws ++ newline :: rest ∧ Forall (λ c, isspace c = true) ws.
Proof.
  revert rest. induction text as [|c text IH]; intros rest; simpl.
  { split; [by intros ?%elem_of_nil|]. by intros ([|??] & ? & _). }
  destruct (isspace c) eqn:Hc.
  - rewrite elem_of_app, IH. split.
    + intros [(ws & -> & Hws)|Hin].
      * exists (c :: ws). split; [done|by constructor].
      * destruct (N.eqb_spec c newline) as [->|_];
          [|by apply elem_of_nil in Hin].
        apply list_elem_of_singleton in Hin as ->. by exists [].
    + intros ([|c' ws] & Heq & Hws); simplify_eq/=.
      * right. by apply list_elem_of_singleton.
      * left. exists ws. split; [done|]. by inversion Hws.
  - split; [by intros ?%elem_of_nil|].
    intros ([|c' ws] & Heq & Hws); simpl in Heq; injection Heq as -> ->.
    + by vm_compute in Hc.
    + inversion Hws; congruence.
Qed.

Lemma find_fence_sound (acc text raw' body : pystr) :
  find_fence acc text = Some (raw', body) →
  ∃ raw, raw' = rev acc ++ raw
         ∧ text = raw ++ newline :: fence ++ body
         ∧ absent (newline :: fence) raw.
Proof.
  revert acc. induction text as [|c text IH]; intros acc; [done|].
  cbn [find_fence].
  destruct (startswith (newline :: fence) (c :: text)) eqn:Hs.
  - apply startswith_spec in Hs as [rest Hrest].
    injection Hrest as -> ->. clear IH.
    intros [= <- <-]. exists []. rewrite app_nil_r.
    split; [done|]. split; [reflexivity|]. by intros [|??] ?.
  - intros (raw & -> & -> & Habs)%IH. exists (c :: raw). simpl.
    rewrite <- app_assoc. split; [done|]. split; [done|].
    intros [|c' pre] post Heq.
    + assert (startswith (newline :: fence)
                (c :: raw ++ newline :: fence ++ body) = true) as Ht;
        [|congruence].
      apply startswith_spec. exists (post ++ newline :: fence ++ body).
      change (c :: raw ++ ?x) with ((c :: raw) ++ x). rewrite Heq.
      reflexivity.
    + injection Heq as _ Heq. by apply (Habs pre post).
Qed.

Lemma find_fence_complete (acc raw body : pystr) :
  is_Some (find_fence acc (raw ++ newline :: fence ++ body)).
Proof.
  revert acc. induction raw as [|c raw IH]; intros acc.
  - by eexists.
  - change ((c :: raw) ++ ?x) with (c :: (raw ++ x)). cbn [find_fence].
    destruct (startswith _ _); [by eexists|apply IH].
Qed.

Lemma head_omap_Some {A B} (f : A → option B) (l : list A) (y : B) :
  head (omap f l) = Some y → ∃ x, x ∈ l ∧ f x = Some y.
Proof.
  intros Hh. apply list_elem_of_omap.
  destruct (omap f l); simplify_eq/=. by left.
Qed.

Lemma head_omap_is_Some {A B} (f : A → option B) (l : list A) (x : A) :
  x ∈ l → is_Some (f x) → is_Some (head (omap f l)).
Proof.
  intros Hin [y Hy].
  assert (y ∈ omap f l) as Hyin by (apply list_elem_of_omap; eauto).
  destruct (omap f l); [by apply elem_of_nil in Hyin|by eexists].
Qed.

Lemma match_fences_sound (text raw body : pystr) :
  match_fences text = Some (raw, body) →
  ∃ ws, text = fence ++ ws ++ newline :: raw ++ newline :: fence ++ body
        ∧ Forall (λ c, isspace c = true) ws
        ∧ absent (newline :: fence) raw.
Proof.
  unfold match_fences. destruct (startswith fence text) eqn:Hs; [|done].
  apply startswith_spec in Hs as [rest ->].
  change (drop 3 (fence ++ rest)) with rest.
  intros (x & (ws & -> & Hws)%elem_of_after_blank & Hx)%head_omap_Some.
  apply find_fence_sound in Hx as (raw0 & -> & -> & Habs).
  exists ws. by rewrite <- !app_assoc.
Qed.

Lemma match_fences_complete (ws raw body : pystr) :
  Forall (λ c, isspace c = true) ws →
  is_Some (match_fences
             (fence ++ ws ++ newline :: raw ++ newline :: fence ++ body)).
Proof.
  intros Hws. unfold match_fences. rewrite startswith_app.
  change (drop 3 (fence ++ ?x)) with x.
  apply (head_omap_is_Some _ _ (raw ++ newline :: fence ++ body)).
  - apply elem_of_after_blank. by exists ws.
  - apply find_fence_complete.
Qed.

Lemma parse_text_is_Some (isalnum : N → bool) (path text : pystr) :
  is_Some (parse_text isalnum path text) ↔ is_Some (match_fences text).
Proof.
  unfold parse_text. destruct (match_fences text) as [[raw body]|]; simpl.
  - destruct (foldl _ _ _) as [[fm k] v]. split; by eexists.
  - done.
Qed.

(** X22.  [parse_frontmatter] returns a dictionary for the texts, and only
    for them, that start with three hyphens, white space up to the end of a
    line, and have a later line starting with three hyphens; for every
    other text it returns [None]. *)
Theorem parsed_iff_fenced (isalnum : N → bool) (path text : pystr) :
  (∃ p, parse_frontmatter isalnum path (Text text) = Some (Some p)) ↔
  ∃ ws raw body,
    text = fence ++ ws ++ newline :: raw ++ newline :: fence ++ body
    ∧ Forall (λ c, isspace c = true) ws.
Proof.
  unfold parse_frontmatter. split.
  - intros [p Hp]. assert (is_Some (match_fences text)) as [[raw body] Hm].
    { apply (parse_text_is_Some isalnum path). exists p. congruence. }
    apply match_fences_sound in Hm as (ws & -> & Hws & _).
    by exists ws, raw, body.
  - intros (ws & raw & body & -> & Hws).
    destruct (proj2 (parse_text_is_Some isalnum path _)
                (match_fences_complete ws raw body Hws)) as [p Hp].
    exists p. by rewrite Hp.
Qed.

(** X23.  The frontmatter ends at the first line that starts with three
    hyphens: the text taken as frontmatter holds no such line after its
    first one, and all that follows the three hyphens is the body. *)
Theorem frontmatter_ends_at_first_fence (text raw body : pystr) :
  match_fences text = Some (raw, body) →
  absent (newline :: fence) raw
  ∧ ∃ ws, text = fence ++ ws ++ newline :: raw ++ newline :: fence ++ body
          ∧ Forall (λ c, isspace c = true) ws.
Proof.
  intros (ws & Htext & Hws & Habs)%match_fences_sound.
  split; [done|]. by exists ws.
Qed.

Lemma frontmatter_ends_at_first_fence_witness :
  let text := fence ++ newline :: s "name: a" ++ newline :: fence
              ++ s "body" in
  match_fences text = Some (s "name: a", s "body")
  ∧ absent (newline :: fence) (s "name: a")
  ∧ ∃ ws, text = fence ++ ws ++ newline :: s "name: a" ++ newline :: fence
                 ++ s "body"
          ∧ Forall (λ c, isspace c = true) ws.
Proof.
  intros text. split; [reflexivity|].
  apply (frontmatter_ends_at_first_fence text). reflexivity.
Defined.

(** ** The lines of the frontmatter *)

Lemma span_app (p : N → bool) (run rest : pystr) :
  Forall (λ c, p c = true) run →
  (∀ c, head rest = Some c → p c = false) →
  span p (run ++ rest) = (run, rest).
Proof.
  intros Hrun Hrest. induction Hrun as [|c run Hc _ IH]; simpl.
  - destruct rest as [|c rest]; [done|]. simpl. by rewrite (Hrest c).
  - by rewrite Hc, IH.
Qed.

Lemma span_all (p : N → bool) (x : pystr) :
  Forall (λ c, p c = true) x → span p x = (x, []).
Proof.
  intros Hx. rewrite <- (app_nil_r x) at 1. by apply span_app.
Qed.

Lemma span_spec (p : N → bool) (x : pystr) :
  x = (span p x).1 ++ (span p x).2
  ∧ Forall (λ c, p c = true) (span p x).1.
Proof.
  induction x as [|c x [IH1 IH2]]; simpl; [by split|].
  destruct (p c) eqn:Hc; [|by split].
  destruct (span p x) as [run rest]. simpl in *. split; [by f_equal|].
  by constructor.
Qed.

Lemma lstrip_suffix (x : pystr) : ∃ pre, x = pre ++ lstrip x.
Proof. destruct (lstrip_spec x) as (pre & ? & _). by exists pre. Qed.

Lemma lstrip_lstrip (x : pystr) : lstrip (lstrip x) = lstrip x.
Proof.
  apply lstrip_id. by destruct (lstrip_spec x) as (_ & _ & _ & ?).
Qed.

Lemma strip_lstrip (x : pystr) : strip (lstrip x) = strip x.
Proof. unfold strip. by rewrite lstrip_lstrip. Qed.

Lemma strip_spaces_l (pre x : pystr) :
  Forall (λ c, isspace c = true) pre → strip (pre ++ x) = strip x.
Proof. intros Hpre. unfold strip. by rewrite lstrip_spaces. Qed.

Lemma strip_sublist (x : pystr) (c : N) : c ∈ strip x → c ∈ x.
Proof.
  destruct (strip_spec x) as (pre & post & Hx & _). intros Hc.
  rewrite Hx, !elem_of_app. auto.
Qed.

Lemma strip_strip (x : pystr) : strip (strip x) = strip x.
Proof.
  destruct (strip_spec x) as (_ & _ & _ & _ & _ & Hh & Hl).
  apply strip_padded; [|done..]. exists [], []. by rewrite app_nil_r.
Qed.

Section Lines.
Variable isalnum : N → bool.

Lemma is_w_ascii (c : N) :
  (c < 0x80)%N → is_w isalnum c = true → isspace c = false.
Proof.
  unfold is_w. intros Hc. rewrite (proj2 (N.ltb_lt _ _) Hc).
  rewrite !orb_true_iff, !andb_true_iff, !N.leb_le, N.eqb_eq. intros Hw.
  apply not_true_is_false. unfold isspace.
  rewrite !orb_true_iff, !andb_true_iff, !N.leb_le, !N.eqb_eq. lia.
Qed.

Lemma is_w_not_space (c : N) :
  (∀ c, isalnum c = true → isspace c = false) →
  is_w isalnum c = true → isspace c = false.
Proof.
  intros Hal Hw. destruct (N.ltb_spec c 0x80) as [Hc|Hc].
  - by apply is_w_ascii.
  - apply Hal. unfold is_w in Hw.
    by rewrite (proj2 (N.ltb_ge _ _) Hc) in Hw.
Qed.

Lemma is_w_not (c d : N) :
  is_w isalnum c = true → is_w isalnum d = false → (d =? c)%N = false.
Proof. intros Hc Hd. apply N.eqb_neq. congruence. Qed.

Lemma match_key_line (k v : pystr) :
  key_name isalnum k → newline ∉ v →
  match_key isalnum (k ++ s ": " ++ v) = Some (k, lstrip v).
Proof.
  intros (c & run & -> & Hc & Hrun) Hv.
  change ((c :: run) ++ ?x) with (c :: (run ++ x)). cbn [match_key].
  rewrite Hc, (span_app _ run (s ": " ++ v)); [|done|by intros ? [= <-]].
  change (s ": " ++ v) with (0x3a%N :: 0x20%N :: v). cbv iota beta.
  rewrite N.eqb_refl.
  change (lstrip (0x20%N :: v)) with (lstrip v).
  rewrite span_all; [done|].
  apply Forall_forall. intros d Hd. apply negb_true_iff, N.eqb_neq.
  intros ->. apply Hv. destruct (lstrip_suffix v) as [pre ->].
  apply elem_of_app. by right.
Qed.

Lemma match_key_indented (line : pystr) :
  match_key isalnum (s "  " ++ line) = None.
Proof. reflexivity. Qed.

Lemma startswith_key (k rest : pystr) :
  key_name isalnum k → startswith (s "  ") (k ++ rest) = false.
Proof.
  intros (c & run & -> & Hc & _).
  change (startswith (s "  ") ((c :: run) ++ rest))
    with ((0x20 =? c)%N && startswith (s " ") (run ++ rest)).
  by rewrite (is_w_not c 0x20 Hc).
Qed.

(** The lines of one entry, read in any state: the entry before is stored,
    and the pieces of the value are collected. *)
Lemma foldl_line_step_entry (fm : frontmatter) (key : option pystr)
    (vals : list pystr) (k v : pystr) (below : list pystr) :
  key_name isalnum k → newline ∉ v →
  foldl (line_step isalnum) (fm, key, vals) (render_entry (k, v, below))
  = (flush fm key vals, Some k,
     (if block_marker (strip v) then [] else [strip v])
     ++ (strip <$> below)).
Proof.
  intros Hk Hv. unfold render_entry. cbn [fst snd foldl].
  assert (line_step isalnum (fm, key, vals) (k ++ s ": " ++ v)
          = (flush fm key vals, Some k,
             if block_marker (strip v) then [] else [strip v])) as ->.
  { unfold line_step. rewrite match_key_line, startswith_key by done.
    cbn [negb]. by rewrite strip_lstrip. }
  generalize (if block_marker (strip v) then [] else [strip v]).
  generalize (flush fm key vals). clear fm key vals.
  induction below as [|l below IH]; intros fm vals.
  { by rewrite app_nil_r. }
  cbn [fmap list_fmap foldl].
  assert (line_step isalnum (fm, Some k, vals) (s "  " ++ l)
          = (fm, Some k, vals ++ [strip l])) as ->.
  { unfold line_step. rewrite match_key_indented, startswith_app.
    rewrite bool_decide_eq_true_2 by by eexists. cbn [andb].
    rewrite (strip_spaces_l (s "  ")); [done|].
    by repeat constructor. }
  rewrite IH. by rewrite <- app_assoc.
Qed.

Lemma foldl_line_step_entries
    (st : frontmatter * option pystr * list pystr)
    (entries : list (pystr * pystr * list pystr)) :
  Forall (λ e, key_name isalnum e.1.1 ∧ newline ∉ e.1.2) entries →
  (let '(fm, key, vals) :=
     foldl (line_step isalnum) st (entries ≫= render_entry) in
   flush fm key vals)
  = foldl (λ fm e, <[e.1.1 := value_of e.1.2 e.2]> fm)
      (let '(fm, key, vals) := st in flush fm key vals) entries.
Proof.
  intros Hentries. revert st.
  induction Hentries as [|[[k v] below] entries [Hk Hv] _ IH]; intros st.
  { done. }
  cbn [mbind list_bind]. rewrite foldl_app.
  destruct st as [[fm key] vals].
  rewrite foldl_line_step_entry by done. rewrite IH. reflexivity.
Qed.
End Lines.

(** ** Documents *)

Lemma find_fence_line (acc l rest : pystr) :
  newline ∉ l → find_fence acc (l ++ rest) = find_fence (rev l ++ acc) rest.
Proof.
  revert acc. induction l as [|c l IH]; intros acc Hl; [done|].
  apply not_elem_of_cons in Hl as [Hc Hl].
  change ((c :: l) ++ rest) with (c :: (l ++ rest)). cbn [find_fence].
  change (startswith (newline :: fence) (c :: l ++ rest))
    with ((newline =? c)%N && startswith fence (l ++ rest)).
  rewrite (proj2 (N.eqb_neq newline c)) by done. cbn [andb].
  rewrite IH by done. simpl. by rewrite <- app_assoc.
Qed.

Lemma startswith_fence_head (x : pystr) :
  (∀ c, head x = Some c → c ≠ 0x2d%N) → startswith fence x = false.
Proof.
  destruct x as [|c x]; intros Hx; [done|].
  change (startswith fence (c :: x))
    with ((0x2d =? c)%N && startswith (s "--") x).
  rewrite (proj2 (N.eqb_neq 0x2d c)); [done|].
  intros Heq. by apply (Hx c).
Qed.

Lemma join_head (sep x : pystr) (c : N) (l : list pystr) :
  join sep ((c :: x) :: l) = c :: join sep (x :: l).
Proof. by destruct l. Qed.

Lemma find_fence_lines (acc : pystr) (lines : list pystr) (body : pystr) :
  lines ≠ [] →
  Forall (λ l, (newline ∉ l) ∧ ∀ c, head l = Some c → c ≠ 0x2d%N) lines →
  find_fence acc (join [newline] lines ++ newline :: fence ++ body)
  = Some (rev acc ++ join [newline] lines, body).
Proof.
  intros Hne Hlines. revert acc.
  induction Hlines as [|l lines [Hl _] Hrest IH]; intros acc; [done|].
  destruct lines as [|l2 lines].
  - change (join [newline] [l]) with l. rewrite find_fence_line by done.
    cbn [find_fence].
    change (newline :: fence ++ body) with ((newline :: fence) ++ body).
    rewrite startswith_app.
    change (drop 4 ((newline :: fence) ++ body)) with body.
    by rewrite rev_app_distr, rev_involutive.
  - rewrite join_cons by done. rewrite <- !app_assoc.
    rewrite find_fence_line by done.
    change ([newline] ++ ?x) with (newline :: x). cbn [find_fence].
    change (startswith (newline :: fence) (newline :: ?x))
      with (startswith fence x).
    rewrite startswith_fence_head.
    + rewrite IH by done. simpl.
      by rewrite rev_app_distr, rev_involutive, <- !app_assoc.
    + apply Forall_cons in Hrest as [[_ Hl2] _].
      destruct l2 as [|c2 l2].
      * destruct lines; by intros ? [= <-].
      * rewrite join_head. intros c [= <-]. by apply Hl2.
Qed.

Lemma elem_of_join (sep : pystr) (l : list pystr) (c : N) :
  c ∈ join sep l → c ∈ sep ∨ ∃ x, x ∈ l ∧ c ∈ x.
Proof.
  induction l as [|x l IH]; [by intros ?%elem_of_nil|].
  destruct l as [|y l].
  - intros Hc. right. exists x. split; [by left|done].
  - rewrite join_cons by done. rewrite !elem_of_app.
    intros [Hc|[Hc|Hc]]; [|by left|].
    + right. exists x. split; [by left|done].
    + destruct (IH Hc) as [?|(z & Hz & ?)]; [by left|].
      right. exists z. split; [by right|done].
Qed.

Section Documents.
Variable isalnum : N → bool.

Lemma key_name_chars (k : pystr) (c : N) :
  key_name isalnum k → c ∈ k → is_w isalnum c || (c =? 0x2d)%N = true.
Proof.
  intros (c0 & run & -> & Hc0 & Hrun) [->|Hc]%elem_of_cons.
  - by rewrite Hc0.
  - by apply (proj1 (Forall_forall _ _) Hrun).
Qed.

Lemma key_name_no_newline (k : pystr) : key_name isalnum k → newline ∉ k.
Proof. intros Hk Hin. by apply (key_name_chars k newline Hk) in Hin. Qed.

Lemma render_entry_lines (e : pystr * pystr * list pystr) :
  key_name isalnum e.1.1 → newline ∉ e.1.2 →
  Forall (λ l, newline ∉ l) e.2 →
  Forall (λ l, (newline ∉ l) ∧ ∀ c, head l = Some c → c ≠ 0x2d%N)
    (render_entry e).
Proof.
  destruct e as [[k v] below]. simpl. intros Hk Hv Hbelow.
  unfold render_entry. cbn [fst snd]. constructor.
  - split.
    + change (s ": " ++ v) with (0x3a%N :: 0x20%N :: v).
      rewrite not_elem_of_app, !not_elem_of_cons.
      split; [by apply key_name_no_newline|done].
    + destruct Hk as (c0 & run & -> & Hc0 & _). intros c [= <-] ->.
      by vm_compute in Hc0.
  - apply Forall_fmap, Forall_forall. intros l Hl. simpl. split.
    + rewrite !not_elem_of_cons. split; [done|]. split; [done|].
      by apply (proj1 (Forall_forall _ _) Hbelow).
    + by intros c [= <-].
Qed.

Lemma render_lines (entries : list (pystr * pystr * list pystr)) :
  Forall (λ e, key_name isalnum e.1.1 ∧ (newline ∉ e.1.2)
               ∧ Forall (λ l, newline ∉ l) e.2) entries →
  Forall (λ l, (newline ∉ l) ∧ ∀ c, head l = Some c → c ≠ 0x2d%N)
    (entries ≫= render_entry).
Proof.
  induction 1 as [|e entries (Hk & Hv & Hb) _ IH]; [constructor|].
  cbn [mbind list_bind]. apply Forall_app. split; [|done].
  by apply render_entry_lines.
Qed.

Lemma match_fences_render (entries : list (pystr * pystr * list pystr))
    (body : pystr) :
  (∀ c, isalnum c = true → isspace c = false) →
  entries ≠ [] →
  Forall (λ e, key_name isalnum e.1.1 ∧ (newline ∉ e.1.2)
               ∧ Forall (λ l, newline ∉ l) e.2) entries →
  match_fences (render entries body)
  = Some (join [newline] (entries ≫= render_entry), body).
Proof.
  intros Hal Hne Hentries. pose proof (render_lines entries Hentries) as Hl.
  unfold match_fences, render. rewrite startswith_app.
  change (drop 3 (fence ++ ?x)) with x.
  assert (entries ≫= render_entry ≠ []) as Hne'.
  { by destruct entries as [|[[??]?] ?]. }
  pose proof (find_fence_lines [] (entries ≫= render_entry) body Hne' Hl)
    as Hf.
  assert (∃ c x, join [newline] (entries ≫= render_entry)
                 ++ newline :: fence ++ body = c :: x
                 ∧ isspace c = false) as (c & x & Hx & Hc).
  { destruct entries as [|[[k v] below] entries]; [done|].
    apply Forall_cons in Hentries as [(Hk & _) _]. simpl in Hk.
    destruct Hk as (c & run & -> & Hc & _).
    exists c. eexists. split; [|by apply (is_w_not_space isalnum)].
    cbn [mbind list_bind]. unfold render_entry at 1. cbn [fst snd].
    change ((((c :: run) ++ ?x) :: ?y) ++ ?z)
      with ((c :: (run ++ x)) :: (y ++ z)).
    rewrite join_head. reflexivity. }
  rewrite Hx in Hf |- *.
  assert (after_blank (newline :: c :: x) = [c :: x]) as ->.
  { simpl. by rewrite Hc. }
  cbn [omap list_omap]. by rewrite Hf.
Qed.

(** X24.  A frontmatter written as entries, each a key, a colon and text,
    with indented lines below, is read back: every key has the pieces of
    its text joined by one space, the later of two entries with one key
    stays, and [_path] is the path of the skill. *)
Theorem parse_rendered (path : pystr)
    (entries : list (pystr * pystr * list pystr)) (body : pystr) :
  (∀ c, isalnum c = true → isspace c = false) →
  entries ≠ [] →
  Forall (λ e, key_name isalnum e.1.1 ∧ (newline ∉ e.1.2)
               ∧ Forall (λ l, newline ∉ l) e.2) entries →
  ∃ p, parse_text isalnum path (render entries body) = Some p
       ∧ fields p
         = <[s "_path" := path]> (delete (s "_body_lines") (written entries)).
Proof.
  intros Hal Hne Hentries. unfold parse_text.
  rewrite match_fences_render by done. cbn [mbind option_bind].
  rewrite split_join.
  - pose proof (foldl_line_step_entries isalnum (∅, None, []) entries)
      as Hfold.
    destruct (foldl _ _ _) as [[fm key] vals]. eexists. split; [done|].
    cbn [fields]. rewrite Hfold; [done|].
    eapply Forall_impl; [exact Hentries|]. by intros e (? & ? & _).
  - destruct entries as [|[[??]?] ?]; done.
  - eapply Forall_impl; [exact (render_lines entries Hentries)|].
    by intros l [? _].
Qed.
End Documents.

Lemma parse_rendered_witness :
  let entries :=
    [(s "name", s "deploy", []);
     (s "description", s ">-", [s "Use when asked"; s "to deploy"])] in
  (∀ c, ascii_alnum c = true → isspace c = false)
  ∧ ∃ p, parse_text ascii_alnum (s "/skills/deploy")
           (render entries (s "text")) = Some p
         ∧ fields p
           = <[s "_path" := s "/skills/deploy"]>
               (delete (s "_body_lines") (written entries)).
Proof.
  intros entries. split; [by intros c [=]|].
  apply (parse_rendered ascii_alnum (s "/skills/deploy") entries (s "text")).
  - by intros c [=].
  - discriminate.
  - repeat constructor; try (refine (bool_decide_unpack _ _); by vm_compute).
    + exists 0x6e%N, (s "ame"). split; [reflexivity|]. split; [reflexivity|].
      refine (bool_decide_unpack _ _). by vm_compute.
    + exists 0x64%N, (s "escription"). split; [reflexivity|].
      split; [reflexivity|]. refine (bool_decide_unpack _ _). by vm_compute.
Defined.

(** ** What the parser returns *)

Section Parsed.
Variable isalnum : N → bool.

Lemma match_key_Some (line k v : pystr) :
  match_key isalnum line = Some (k, v) →
  key_name isalnum k ∧ newline ∉ v.
Proof.
  destruct line as [|c line]; [done|]. cbn [match_key].
  destruct (is_w isalnum c) eqn:Hc; [|done].
  pose proof (span_spec (λ c, is_w isalnum c || (c =? 0x2d)%N) line)
    as [_ Hrun].
  destruct (span _ line) as [run rest]. cbn [fst] in Hrun.
  destruct rest as [|c' rest]; [done|].
  destruct (c' =? 0x3a)%N; [|done]. intros [= <- <-]. split.
  - by exists c, run.
  - pose proof (span_spec (λ c, negb (c =? newline)%N) (lstrip rest))
      as [_ Hv].
    intros Hin. apply (proj1 (Forall_forall _ _) Hv) in Hin.
    by rewrite N.eqb_refl in Hin.
Qed.

Lemma flush_tidy (fm : frontmatter) (key : option pystr)
    (vals : list pystr) :
  map_Forall (λ k v, key_name isalnum k ∧ (newline ∉ v) ∧ strip v = v) fm →
  (∀ k, key = Some k → key_name isalnum k) →
  Forall (λ v, newline ∉ v) vals →
  map_Forall (λ k v, key_name isalnum k ∧ (newline ∉ v) ∧ strip v = v)
    (flush fm key vals).
Proof.
  intros Hfm Hkey Hvals. destruct key as [k|]; [|done]. simpl.
  apply map_Forall_insert_2; [|done].
  split; [by apply Hkey|]. split; [|apply strip_strip].
  intros [Hin|(x & Hx & Hin)]%strip_sublist%elem_of_join.
  - by apply list_elem_of_singleton in Hin.
  - by apply (proj1 (Forall_forall _ _) Hvals x).
Qed.

Lemma foldl_line_step_tidy (lines : list pystr)
    (st st' : frontmatter * option pystr * list pystr) :
  Forall (λ l, newline ∉ l) lines →
  foldl (line_step isalnum) st lines = st' →
  map_Forall (λ k v, key_name isalnum k ∧ (newline ∉ v) ∧ strip v = v)
    st.1.1 →
  (∀ k, st.1.2 = Some k → key_name isalnum k) →
  Forall (λ v, newline ∉ v) st.2 →
  map_Forall (λ k v, key_name isalnum k ∧ (newline ∉ v) ∧ strip v = v)
    st'.1.1
  ∧ (∀ k, st'.1.2 = Some k → key_name isalnum k)
  ∧ Forall (λ v, newline ∉ v) st'.2.
Proof.
  intros Hlines. revert st.
  induction Hlines as [|l lines Hl _ IH]; intros st; simpl.
  { by intros <-. }
  intros Hst' Hfm Hkey Hvals. apply (IH _ Hst'); clear IH Hst'.
  - destruct st as [[fm key] vals]. unfold line_step.
    destruct (match_key isalnum l) as [[k v]|];
      repeat case_match; simpl in *; try done.
    all: by apply flush_tidy.
  - destruct st as [[fm key] vals]. unfold line_step.
    destruct (match_key isalnum l) as [[k v]|] eqn:Hm;
      repeat case_match; simpl in *; try done.
    all: intros ? [= <-]; by apply (match_key_Some l k v).
  - assert (∀ x, newline ∉ x → newline ∉ strip x) as Hstrip.
    { intros x Hx Hin. by apply Hx, strip_sublist. }
    destruct st as [[fm key] vals]. unfold line_step.
    destruct (match_key isalnum l) as [[k v]|] eqn:Hm;
      repeat case_match; simpl in *; try done.
    all: try (constructor; [|done]; apply Hstrip;
              by apply (match_key_Some l k v)).
    all: apply Forall_app; split; [done|]; constructor; [|done];
      by apply Hstrip.
Qed.

(** X25.  In the dictionary [parse_frontmatter] returns, [_path] is the
    path of the skill; every other key with text is a word of the class
    [\w], hyphens allowed after its first character, and its text is one
    line with no white space at either end. *)
Theorem fields_wellformed (path text : pystr) (p : parsed) (k v : pystr) :
  parse_text isalnum path text = Some p →
  fields p !! k = Some v →
  (k = s "_path" ∧ v = path)
  ∨ (k ≠ s "_path" ∧ k ≠ s "_body_lines" ∧ key_name isalnum k
     ∧ (newline ∉ v) ∧ strip v = v).
Proof.
  unfold parse_text. destruct (match_fences text) as [[raw body]|]; [|done].
  cbn [mbind option_bind].
  destruct (foldl (line_step isalnum) (∅, None, []) (split newline raw))
    as [[fm key] vals] eqn:Hfold.
  apply foldl_line_step_tidy in Hfold as (Hfm & Hkey & Hvals);
    [|apply split_no_sep|done|done|done].
  intros [= <-]. cbn [fields].
  destruct (decide (k = s "_path")) as [->|Hk].
  { rewrite lookup_insert_eq. intros [= <-]. by left. }
  rewrite lookup_insert_ne by done.
  intros [Hb Hv]%lookup_delete_Some. right.
  split; [done|]. split; [done|].
  by apply (flush_tidy fm key vals Hfm Hkey Hvals k v).
Qed.

Lemma last_join (sep : pystr) (ls : list pystr) (l : pystr) (c : N) :
  last ls = Some l → last l = Some c → last (join sep ls) = Some c.
Proof.
  intros Hls Hl. induction ls as [|x ls IH]; [done|].
  destruct ls as [|y ls].
  - by injection Hls as ->.
  - rewrite join_cons by done. rewrite !last_app.
    by rewrite (IH Hls).
Qed.

(** X26.  [_body_lines] counts the lines of the body from its first
    character that is not white space to its last: for a body of [ls]
    lines, the first starting and the last ending with such a character,
    with any white space before and behind, it is the length of [ls]; and
    it is 0 for a body of white space. *)
Theorem body_lines_counts (path text raw pre post : pystr)
    (ls : list pystr) (p : parsed) :
  match_fences text = Some (raw, pre ++ join [newline] ls ++ post) →
  Forall (λ c, isspace c = true) pre →
  Forall (λ c, isspace c = true) post →
  Forall (λ l, newline ∉ l) ls →
  (∀ l, head ls = Some l → ∃ c, head l = Some c ∧ isspace c = false) →
  (∀ l, last ls = Some l → ∃ c, last l = Some c ∧ isspace c = false) →
  parse_text isalnum path text = Some p →
  body_lines p = length ls.
Proof.
  intros Hm Hpre Hpost Hls Hhead Hlast. unfold parse_text. rewrite Hm.
  cbn [mbind option_bind]. destruct (foldl _ _ _) as [[fm key] vals].
  intros [= <-]. cbn [body_lines].
  destruct ls as [|l ls].
  { assert (strip (pre ++ join [newline] [] ++ post) = []) as ->; [|done].
    unfold strip.
    rewrite (lstrip_all_spaces (pre ++ join [newline] [] ++ post));
      [done|by apply Forall_app]. }
  destruct (Hhead l eq_refl) as (c & Hc & Hsp).
  destruct l as [|c' l]; [done|]. injection Hc as ->.
  assert (strip (pre ++ join [newline] ((c :: l) :: ls) ++ post)
          = join [newline] ((c :: l) :: ls)) as ->.
  { apply strip_padded; [by exists pre, post| |].
    - rewrite join_head. by intros ? [= <-].
    - destruct (last ((c :: l) :: ls)) as [l'|] eqn:Hl'.
      + destruct (Hlast l' eq_refl) as (d & Hd & Hdsp).
        rewrite (last_join _ _ l' d Hl' Hd). by intros ? [= <-].
      + by apply last_None in Hl'. }
  rewrite join_head at 1. by rewrite split_join.
Qed.
End Parsed.

Lemma fields_wellformed_witness :
  let text := render [(s "name", s " deploy ", [])] [] in
  let p := {| fields := {[s "_path" := s "/d"; s "name" := s "deploy"]};
              body_lines := 0 |} in
  parse_text ascii_alnum (s "/d") text = Some p
  ∧ fields p !! s "name" = Some (s "deploy")
  ∧ ((s "name" = s "_path" ∧ s "deploy" = s "/d")
     ∨ (s "name" ≠ s "_path" ∧ s "name" ≠ s "_body_lines"
        ∧ key_name ascii_alnum (s "name")
        ∧ (newline ∉ s "deploy") ∧ strip (s "deploy") = s "deploy")).
Proof.
  intros text p.
  assert (parse_text ascii_alnum (s "/d") text = Some p) as Hp
    by (by vm_compute).
  assert (fields p !! s "name" = Some (s "deploy")) as Hk
    by (by vm_compute).
  split; [exact Hp|]. split; [exact Hk|].
  exact (fields_wellformed ascii_alnum (s "/d") text p (s "name")
           (s "deploy") Hp Hk).
Defined.

Lemma body_lines_counts_witness :
  let ls := [s "# Title"; []; s "text"] in
  let body := [newline; newline] ++ join [newline] ls ++ [newline] in
  let text := fence ++ newline :: s "name: a" ++ newline :: fence ++ body in
  let p := {| fields := {[s "_path" := s "/d"; s "name" := s "a"]};
              body_lines := 3 |} in
  match_fences text = Some (s "name: a", body)
  ∧ parse_text ascii_alnum (s "/d") text = Some p
  ∧ body_lines p = length ls.
Proof.
  intros ls body text p.
  assert (match_fences text = Some (s "name: a", body)) as Hm
    by reflexivity.
  assert (parse_text ascii_alnum (s "/d") text = Some p) as Hp
    by (by vm_compute).
  split; [exact Hm|]. split; [exact Hp|].
  apply (body_lines_counts ascii_alnum (s "/d") text (s "name: a")
           [newline; newline] [newline] ls p Hm).
  - by repeat constructor.
  - by repeat constructor.
  - repeat constructor; refine (bool_decide_unpack _ _); by vm_compute.
  - intros l [= <-]. by exists 0x23%N.
  - intros l [= <-]. by exists 0x74%N.
  - exact Hp.
Defined.

(** ** The scan of the directory *)

Lemma str_lt_not_leb (a b : pystr) : str_lt a b → str_leb b a = false.
Proof.
  unfold str_lt, str_leb. intros Hlt.
  by rewrite (str_compare_antisym a b), Hlt.
Qed.

Lemma str_lt_leb (a b : pystr) : str_lt a b → str_leb a b = true.
Proof. unfold str_lt, str_leb. by intros ->. Qed.

Lemma str_leb_refl (a : pystr) : str_leb a a = true.
Proof. unfold str_leb. by rewrite (proj2 (str_compare_eq a a)). Qed.

Lemma str_leb_antisym (a b : pystr) :
  str_leb a b = true → str_leb b a = true → a = b.
Proof.
  intros Hab Hba. destruct (decide (a = b)) as [|Hne]; [done|].
  apply (str_leb_lt a b Hab), str_lt_not_leb in Hne. congruence.
Qed.

Lemma NoDup_fmap_eq {A B} (f : A → B) (l : list A) (x y : A) :
  NoDup (f <$> l) → x ∈ l → y ∈ l → f x = f y → x = y.
Proof.
  intros Hnd (i & Hi)%list_elem_of_lookup (j & Hj)%list_elem_of_lookup Heq.
  assert (i = j) as ->; [|congruence].
  apply (NoDup_lookup (f <$> l) i j (f x)); [done| |].
  - by rewrite list_lookup_fmap, Hi.
  - by rewrite list_lookup_fmap, Hj, Heq.
Qed.

(** The entries of a directory, which have different names, are visited in
    the ascending order of their names. *)
Lemma sorted_entries (entries : list entry) :
  NoDup (entry_name <$> entries) →
  StronglySorted (λ d1 d2, str_lt (entry_name d1) (entry_name d2))
    (sorted entry_leb entries).
Proof.
  intros Hnd.
  assert (∀ x y, entry_leb x y = true ∨ entry_leb y x = true) as Htot.
  { intros x y. apply str_leb_total. }
  assert (∀ x y z, entry_leb x y = true → entry_leb y z = true →
                   entry_leb x z = true) as Htrans.
  { intros x y z. apply str_leb_trans. }
  assert (NoDup (entry_name <$> sorted entry_leb entries)) as Hnd'.
  { by rewrite sorted_perm. }
  pose proof (sorted_stable entry_leb Htot Htrans (λ _ _, True) entries
                (StronglySorted_trivial _)) as Hs.
  revert Hnd' Hs. generalize (sorted entry_leb entries). intros l.
  induction l as [|x l IH]; intros Hnd' Hs; [constructor|].
  rewrite fmap_cons in Hnd'. apply NoDup_cons in Hnd' as [Hx Hnd'].
  apply StronglySorted_inv in Hs as [Hs Hall].
  constructor; [by apply IH|].
  rewrite Forall_forall in *. intros y Hy.
  apply str_leb_lt; [by apply Hall|]. intros Heq. apply Hx.
  rewrite Heq. apply list_elem_of_fmap. by exists y.
Qed.

Lemma sorted_entries_unique (entries1 entries2 : list entry) :
  NoDup (entry_name <$> entries1) → entries1 ≡ₚ entries2 →
  sorted entry_leb entries1 = sorted entry_leb entries2.
Proof.
  intros Hnd Hperm.
  apply (StronglySorted_unique_strong
           (λ d1 d2, str_lt (entry_name d1) (entry_name d2))).
  - intros x y _ _ Hxy Hyx. destruct (str_lt_irrefl (entry_name x)).
    by apply (str_lt_trans _ (entry_name y)).
  - by apply sorted_entries.
  - apply sorted_entries. by rewrite <- Hperm.
  - by rewrite !sorted_perm.
Qed.

Section Scan.
Variable isalnum : N → bool.

Lemma declares_det (d : entry) (n n' : pystr) (fm fm' : frontmatter) :
  declares isalnum d n fm → declares isalnum d n' fm' → n = n' ∧ fm = fm'.
Proof.
  intros (_ & text & p & Ht & Hp & -> & ->)
         (_ & text' & p' & Ht' & Hp' & -> & ->).
  rewrite Ht in Ht'. injection Ht' as <-.
  rewrite Hp in Hp'. by injection Hp' as <-.
Qed.

Lemma scan_step_cases (skills skills' : gmap pystr frontmatter)
    (d : entry) :
  scan_step isalnum skills d = Some skills' →
  (skills' = skills ∧ ∀ n fm, ¬ declares isalnum d n fm)
  ∨ (∃ n fm, declares isalnum d n fm ∧ skills' = <[n := fm]> skills).
Proof.
  unfold scan_step, parse_frontmatter, declares, visible.
  destruct (is_dir d) eqn:Hdir;
    cbn [andb negb mbind option_bind option_ret].
  2: { intros [= <-]. left. split; [done|]. by intros n fm [[? _] _]. }
  destruct (startswith (s ".") (entry_name d)) eqn:Hdot;
    cbn [andb negb mbind option_bind option_ret].
  { intros [= <-]. left. split; [done|]. by intros n fm [[_ ?] _]. }
  destruct (skill_md d) as [| |text] eqn:Hmd;
    cbn [andb negb mbind option_bind option_ret]; [| done |].
  { intros [= <-]. left. split; [done|].
    by intros n fm (_ & ? & ? & ? & _). }
  destruct (parse_text isalnum (entry_path d) text) as [p|] eqn:Hp.
  - intros [= <-]. right. eexists _, (fields p).
    split; [|done]. split; [done|]. by exists text, p.
  - intros [= <-]. left. split; [done|].
    intros n fm (_ & text' & p' & [= <-] & Hp' & _). congruence.
Qed.

Lemma scan_step_is_Some (skills : gmap pystr frontmatter) (d : entry) :
  is_Some (scan_step isalnum skills d) ↔
  (visible d → skill_md d ≠ Unreadable).
Proof.
  unfold scan_step, parse_frontmatter, visible.
  destruct (is_dir d);
    cbn [andb negb mbind option_bind option_ret].
  2: { split; [by intros _ [? _]|by eexists]. }
  destruct (startswith (s ".") (entry_name d));
    cbn [andb negb mbind option_bind option_ret].
  { split; [by intros _ [_ ?]|by eexists]. }
  destruct (skill_md d) as [| |text];
    cbn [andb negb mbind option_bind option_ret].
  - split; [done|by eexists].
  - split; [by intros [? ?]|]. intros Hne. by destruct Hne.
  - split; [done|]. intros _. destruct (parse_text _ _ _); by eexists.
Qed.

Lemma foldlM_scan_step_is_Some (skills : gmap pystr frontmatter)
    (l : list entry) :
  is_Some (foldlM (scan_step isalnum) skills l) ↔
  ∀ d, d ∈ l → visible d → skill_md d ≠ Unreadable.
Proof.
  revert skills. induction l as [|d l IH]; intros skills; simpl.
  { split; [by intros _ ? ?%elem_of_nil|by eexists]. }
  destruct (scan_step isalnum skills d) as [skills'|] eqn:Hstep; simpl.
  - rewrite IH. split.
    + intros Hl d' [->|Hd']%elem_of_cons; [|by apply Hl].
      apply (scan_step_is_Some skills). by eexists.
    + intros Hl d' Hd'. apply Hl. by right.
  - split; [by intros [? ?]|]. intros Hl.
    assert (is_Some (scan_step isalnum skills d)) as [? ?]; [|congruence].
    apply scan_step_is_Some, Hl. by left.
Qed.

(** What the loop leaves when it visits entries in the ascending order of
    their names: under a name, the frontmatter of the last entry that
    holds a skill of that name. *)
Lemma foldlM_scan_step_spec (l : list entry)
    (skills0 skills : gmap pystr frontmatter) (n : pystr)
    (fm : frontmatter) :
  StronglySorted (λ d1 d2, str_lt (entry_name d1) (entry_name d2)) l →
  foldlM (scan_step isalnum) skills0 l = Some skills →
  skills !! n = Some fm ↔
  (∃ d, d ∈ l ∧ declares isalnum d n fm
        ∧ ∀ d' fm', d' ∈ l → declares isalnum d' n fm' →
                    str_leb (entry_name d') (entry_name d) = true)
  ∨ (skills0 !! n = Some fm ∧ ∀ d fm', d ∈ l → ¬ declares isalnum d n fm').
Proof.
  intros Hs. revert skills0.
  induction Hs as [|d0 l Hs IH Hd0]; intros skills0; simpl.
  { intros [= <-]. split.
    - intros Hn. right. split; [done|]. by intros ?? ?%elem_of_nil.
    - by intros [(? & ?%elem_of_nil & _)|[? _]]. }
  rewrite Forall_forall in Hd0.
  destruct (scan_step isalnum skills0 d0) as [skills1|] eqn:Hstep; [|done].
  simpl. intros Hfold. rewrite (IH skills1 Hfold). clear IH Hfold.
  apply scan_step_cases in Hstep. split.
  - intros [(d & Hd & Hdecl & Hmax)|[Hn Hnone]].
    + left. exists d. split; [by right|]. split; [done|].
      intros d' fm' [->|Hd']%elem_of_cons Hdecl'; [|by apply (Hmax d' fm')].
      by apply str_lt_leb, Hd0.
    + destruct Hstep as [[-> Hno]|(n0 & fm0 & Hdecl0 & ->)].
      * right. split; [done|].
        intros d fm' [->|Hd]%elem_of_cons; [apply Hno|by apply Hnone].
      * destruct (decide (n0 = n)) as [->|Hne].
        -- rewrite lookup_insert_eq in Hn. injection Hn as ->.
           left. exists d0. split; [by left|]. split; [done|].
           intros d' fm' [->|Hd']%elem_of_cons Hdecl'.
           ++ apply str_leb_refl.
           ++ by destruct (Hnone d' fm' Hd').
        -- rewrite lookup_insert_ne in Hn by done.
           right. split; [done|].
           intros d fm' [->|Hd]%elem_of_cons Hdecl; [|by apply (Hnone d fm')].
           by destruct (declares_det _ _ _ _ _ Hdecl0 Hdecl).
  - intros [(d & [->|Hd]%elem_of_cons & Hdecl & Hmax)|[Hn Hnone]].
    + right.
      assert (∀ d fm', d ∈ l → ¬ declares isalnum d n fm') as Hnone.
      { intros d fm' Hd Hdecl'.
        pose proof (Hmax d fm' (list_elem_of_further _ _ _ Hd) Hdecl')
          as Hle.
        by rewrite (str_lt_not_leb _ _ (Hd0 d Hd)) in Hle. }
      split; [|done].
      destruct Hstep as [[-> Hno]|(n0 & fm0 & Hdecl0 & ->)].
      * by destruct (Hno n fm).
      * destruct (declares_det _ _ _ _ _ Hdecl0 Hdecl) as [-> ->].
        by rewrite lookup_insert_eq.
    + left. exists d. split; [done|]. split; [done|].
      intros d' fm' Hd'. apply Hmax. by right.
    + right. split.
      * destruct Hstep as [[-> Hno]|(n0 & fm0 & Hdecl0 & ->)]; [done|].
        rewrite lookup_insert_ne; [done|]. intros ->.
        apply (Hnone d0 fm0); [by left|done].
      * intros d fm' Hd. apply Hnone. by right.
Qed.

(** X27.  The scan does not depend on the order in which the directory
    lists its entries. *)
Theorem scan_order_independent (entries1 entries2 : list entry) :
  NoDup (entry_name <$> entries1) → entries1 ≡ₚ entries2 →
  scan_skills isalnum entries1 = scan_skills isalnum entries2.
Proof.
  intros Hnd Hperm. unfold scan_skills.
  by rewrite (sorted_entries_unique entries1 entries2).
Qed.

(** X28.  The skills the scan finds: a name stands for the frontmatter of
    a directory that is not hidden and has a [SKILL.md] with a
    frontmatter, under the name the frontmatter gives or else under the
    name of the directory; where two directories hold a skill of one
    name, the one whose own name comes last stays.  Files, hidden
    directories and directories without a frontmatter add nothing. *)
Theorem scan_skills_spec (entries : list entry)
    (skills : gmap pystr frontmatter) (n : pystr) (fm : frontmatter) :
  NoDup (entry_name <$> entries) →
  scan_skills isalnum entries = Some skills →
  skills !! n = Some fm ↔
  ∃ d, d ∈ entries ∧ declares isalnum d n fm
       ∧ ∀ d' fm', d' ∈ entries → declares isalnum d' n fm' →
                   str_leb (entry_name d') (entry_name d) = true.
Proof.
  intros Hnd Hscan.
  rewrite (foldlM_scan_step_spec (sorted entry_leb entries) ∅ skills n fm
             (sorted_entries entries Hnd) Hscan).
  split.
  - intros [(d & Hd & Hdecl & Hmax)|[Hn _]]; [|by rewrite lookup_empty in Hn].
    exists d. rewrite elem_of_sorted in Hd. split; [done|]. split; [done|].
    intros d' fm' Hd'. apply Hmax. by rewrite elem_of_sorted.
  - intros (d & Hd & Hdecl & Hmax). left. exists d.
    rewrite elem_of_sorted. split; [done|]. split; [done|].
    intros d' fm' Hd'. apply Hmax. by rewrite elem_of_sorted in Hd'.
Qed.

(** X29.  With [--json] and a directory that exists, the program prints
    its object unless a [SKILL.md] it opens cannot be read: nothing else
    in the scan, the scores or the clusters can raise. *)
Theorem main_json_prints_iff_readable (str_lower : pystr → pystr)
    (set_iter : gset pystr → list pystr) (entries : list entry) (t : Q) :
  (∀ X, set_iter X ≡ₚ elements X) →
  (∃ r, main_json str_lower set_iter isalnum (Some entries) t
        = Some (Printed r)) ↔
  readable entries.
Proof.
  intros Hperm. unfold main_json, readable.
  assert (is_Some (scan_skills isalnum entries) ↔
          ∀ d, d ∈ entries → visible d → skill_md d ≠ Unreadable) as <-.
  { unfold scan_skills. rewrite foldlM_scan_step_is_Some.
    split; intros H d Hd; apply H; by rewrite elem_of_sorted in *. }
  destruct (scan_skills isalnum entries) as [skills|]; simpl.
  - destruct (main_returns set_iter Hperm str_lower skills t)
      as (rs & cl & _ & _ & _ & ->). simpl. split; by eexists.
  - split; [by intros [? ?]|by intros [? ?]].
Qed.
End Scan.

Lemma scan_order_independent_witness :
  NoDup (entry_name <$> listing)
  ∧ listing ≡ₚ reverse listing
  ∧ scan_skills ascii_alnum listing = scan_skills ascii_alnum (reverse listing).
Proof.
  assert (NoDup (entry_name <$> listing)) as Hnd.
  { refine (bool_decide_unpack _ _). by vm_compute. }
  assert (listing ≡ₚ reverse listing) as Hperm.
  { symmetry. apply reverse_Permutation. }
  split; [exact Hnd|]. split; [exact Hperm|].
  exact (scan_order_independent ascii_alnum listing (reverse listing) Hnd
           Hperm).
Defined.

Lemma scan_skills_spec_witness :
  let fm : frontmatter :=
    {[s "_path" := s "/skills/beta"; s "name" := s "deploy"]} in
  let skills : gmap pystr frontmatter := {[s "deploy" := fm]} in
  NoDup (entry_name <$> listing)
  ∧ scan_skills ascii_alnum listing = Some skills
  ∧ (skills !! s "deploy" = Some fm ↔
     ∃ d, d ∈ listing ∧ declares ascii_alnum d (s "deploy") fm
          ∧ ∀ d' fm', d' ∈ listing →
                      declares ascii_alnum d' (s "deploy") fm' →
                      str_leb (entry_name d') (entry_name d) = true).
Proof.
  intros fm skills.
  assert (NoDup (entry_name <$> listing)) as Hnd.
  { refine (bool_decide_unpack _ _). by vm_compute. }
  assert (scan_skills ascii_alnum listing = Some skills) as Hscan.
  { by vm_compute. }
  split; [exact Hnd|]. split; [exact Hscan|].
  exact (scan_skills_spec ascii_alnum listing skills (s "deploy") fm Hnd
           Hscan).
Defined.

Lemma main_json_prints_iff_readable_witness :
  (∀ X, iter_up X ≡ₚ elements X)
  ∧ ((∃ r, main_json ascii_lower iter_up ascii_alnum (Some listing) 0.25
           = Some (Printed r)) ↔
     readable listing).
Proof.
  split; [exact iter_up_perm|].
  exact (main_json_prints_iff_readable ascii_alnum ascii_lower iter_up
           listing 0.25 iter_up_perm).
Defined.
